(** * SimpleVector: a growable array over a fixed-size buffer owner

    A shallow embedding of [simple-vector/simple_vector.h].

    - [size_t] values are integers in [Z]; every arithmetic operation of the
      source on them is followed by [wrap], reduction modulo 2^64.
    - The free store is a finite map from block addresses to arrays
      ([list T]).  A raw pointer [Type*] is a block address (or null) with
      an element offset; an iterator of the vector is such a pointer.
    - A [SimpleVector] object is a record of its three data members.  A
      member function takes the object as its last argument and returns the
      object as it is left by the call; functions of two objects return both.
    - Calls run in a state-and-failure monad over the free store.  A call
      ends with a value or with a [failure]: a thrown exception
      ([bad_alloc], [out_of_range]), a failed [assert], or an access outside
      an array ([invalid_access], undefined behaviour in C++). *)

From stdpp Require Import base numbers option list gmap strings.

Local Open Scope Z_scope.

(** ** Machine integers *)

Definition SIZE_MAX : Z := 2 ^ 64 - 1.
Definition PTRDIFF_MAX : Z := 2 ^ 63 - 1.

(** Arithmetic on [size_t] is modulo 2^64. *)
Definition wrap (z : Z) : Z := z mod 2 ^ 64.

(** ** Outcomes of a call *)

Inductive failure : Set :=
| bad_alloc
| out_of_range
| assertion_failed
| invalid_access.

Inductive result (A : Type) : Type :=
| Ok (a : A)
| Fail (f : failure).
Arguments Ok {A} a.
Arguments Fail {A} f.

(** ** Raw pointers *)

Definition addr : Set := positive.

Record ptr : Set := Ptr { base : option addr; off : Z }.

Definition ptr_add (p : ptr) (n : Z) : ptr := Ptr (base p) (off p + n).
Infix "+ₚ" := ptr_add (at level 50, left associativity).

(** [p <= q] and [p < q] on pointers: meaningful inside one array only;
    pointers into different blocks compare false here. *)
Definition ptr_le (p q : ptr) : bool :=
  bool_decide (base p = base q) && (off p <=? off q).
Definition ptr_lt (p q : ptr) : bool :=
  bool_decide (base p = base q) && (off p <? off q).

(** ** The template parameter and the environment *)

(** What the class template uses of its element type [Type]: the value
    [Type()], the state a moved-from element is left in, and the value an
    element of a new array has before it is first assigned
    (default-initialisation: [Type()] for a class type, indeterminate for a
    scalar). *)
Class Element (T : Type) : Type := {
  dflt : T;
  moved : T → T;
  indet : T
}.

(** [operator==] and [operator<] of the element type, used by the
    comparison operators of the vector. *)
Class Comparable (T : Type) : Type := {
  elem_eq : T → T → bool;
  elem_lt : T → T → bool
}.

(** The environment of the header: the largest element count that
    [operator new] grants, and which of the two usual forms the move
    assignment of [ArrayPtr] has (see [ArrayPtr_move_assign]). *)
Class Environment : Type := {
  heap_limit : Z;
  move_assign_by_swap : bool
}.

(** ** The monad *)

Abbreviation heap T := (gmap addr (list T)).

Definition M (T A : Type) : Type := heap T → result (A * heap T).

#[global] Instance M_ret {T} : MRet (M T) := λ A a h, Ok (a, h).
#[global] Instance M_bind {T} : MBind (M T) := λ A B k m h,
  match m h with
  | Ok (a, h') => k a h'
  | Fail f => Fail f
  end.

Definition raise {T A} (f : failure) : M T A := λ _, Fail f.

(** [assert(b)] of <cassert>. *)
Definition assert {T} (b : bool) : M T unit :=
  if b then mret () else raise assertion_failed.

Section SimpleVector.

Context {T : Type} {ET : Element T} {Env : Environment}.

(** ** Memory access through raw pointers *)

Definition load (p : ptr) : M T T := λ h,
  match base p with
  | Some a =>
      match h !! a with
      | Some l =>
          if 0 <=? off p then
            match l !! Z.to_nat (off p) with
            | Some x => Ok (x, h)
            | None => Fail invalid_access
            end
          else Fail invalid_access
      | None => Fail invalid_access
      end
  | None => Fail invalid_access
  end.

Definition store (p : ptr) (x : T) : M T unit := λ h,
  match base p with
  | Some a =>
      match h !! a with
      | Some l =>
          if (0 <=? off p) && (off p <? Z.of_nat (length l)) then
            Ok ((), <[a := <[Z.to_nat (off p) := x]> l]> h)
          else Fail invalid_access
      | None => Fail invalid_access
      end
  | None => Fail invalid_access
  end.

(** [last - first]: the number of steps of a loop
    [for (; first != last; ++first)]. *)
Definition distance (first last : ptr) : M T nat :=
  if bool_decide (base first = base last) && (off first <=? off last)
  then mret (Z.to_nat (off last - off first))
  else raise invalid_access.

(** ** Algorithms of <algorithm> used by the class *)

(** [std::move(first, last, d_first)] on elements that can be moved from:
    each step move-assigns the element at [first] to the one at [d_first]
    and advances both. *)
Fixpoint move_n (n : nat) (first d_first : ptr) : M T ptr :=
  match n with
  | O => mret d_first
  | S n' =>
      x ← load first;
      store d_first x;;
      store first (moved x);;
      move_n n' (first +ₚ 1) (d_first +ₚ 1)
  end.

Definition std_move (first last d_first : ptr) : M T ptr :=
  n ← distance first last; move_n n first d_first.

(** [std::move_backward(first, last, d_last)]: each step steps [last] and
    [d_last] back and move-assigns the element at [last] to the one at
    [d_last]. *)
Fixpoint move_backward_n (n : nat) (last d_last : ptr) : M T ptr :=
  match n with
  | O => mret d_last
  | S n' =>
      x ← load (last +ₚ -1);
      store (d_last +ₚ -1) x;;
      store (last +ₚ -1) (moved x);;
      move_backward_n n' (last +ₚ -1) (d_last +ₚ -1)
  end.

Definition std_move_backward (first last d_last : ptr) : M T ptr :=
  n ← distance first last; move_backward_n n last d_last.

(** [std::move(first, last, d_first)] on a range of const elements: the
    rvalue of a const element binds to copy assignment, the source keeps its
    value. *)
Fixpoint copy_n (n : nat) (first d_first : ptr) : M T ptr :=
  match n with
  | O => mret d_first
  | S n' =>
      x ← load first;
      store d_first x;;
      copy_n n' (first +ₚ 1) (d_first +ₚ 1)
  end.

Definition std_move_const (first last d_first : ptr) : M T ptr :=
  n ← distance first last; copy_n n first d_first.

(** The same from a [std::initializer_list], whose elements are const and
    live outside the free store. *)
Fixpoint std_move_init (init : list T) (d_first : ptr) : M T ptr :=
  match init with
  | [] => mret d_first
  | x :: init' => store d_first x;; std_move_init init' (d_first +ₚ 1)
  end.

(** [std::fill(first, last, value)], and the loop of the constructor that
    assigns [value] to every element from [first] up to [last]. *)
Fixpoint fill_n (n : nat) (first : ptr) (value : T) : M T unit :=
  match n with
  | O => mret ()
  | S n' => store first value;; fill_n n' (first +ₚ 1) value
  end.

Definition std_fill (first last : ptr) (value : T) : M T unit :=
  n ← distance first last; fill_n n first value.

(** [std::equal(first1, last1, first2, last2)] on random-access iterators:
    the two lengths are compared first, then the elements in order up to the
    first pair that differs. *)
Fixpoint equal_n {Cmp : Comparable T} (n : nat) (first1 first2 : ptr)
  : M T bool :=
  match n with
  | O => mret true
  | S n' =>
      x ← load first1;
      y ← load first2;
      if elem_eq x y then equal_n n' (first1 +ₚ 1) (first2 +ₚ 1)
      else mret false
  end.

Definition std_equal {Cmp : Comparable T} (first1 last1 first2 last2 : ptr)
  : M T bool :=
  n1 ← distance first1 last1;
  n2 ← distance first2 last2;
  if (n1 =? n2)%nat then equal_n n1 first1 first2 else mret false.

(** [std::lexicographical_compare(first1, last1, first2, last2)]: while both
    ranges have an element left, the first pair ordered either way decides;
    when one range ends, the answer is whether the first ended and the
    second did not. *)
Fixpoint lexicographical_compare_n {Cmp : Comparable T} (n1 n2 : nat)
    (first1 first2 : ptr) : M T bool :=
  match n1, n2 with
  | S n1', S n2' =>
      x ← load first1;
      y ← load first2;
      if elem_lt x y then mret true
      else if elem_lt y x then mret false
      else lexicographical_compare_n n1' n2' (first1 +ₚ 1) (first2 +ₚ 1)
  | O, S _ => mret true
  | _, O => mret false
  end.

Definition std_lexicographical_compare {Cmp : Comparable T}
    (first1 last1 first2 last2 : ptr) : M T bool :=
  n1 ← distance first1 last1;
  n2 ← distance first2 last2;
  lexicographical_compare_n n1 n2 first1 first2.

(** ** ArrayPtr, the owner of a fixed-size array *)

(** Modelled from the spec: array_ptr.h, which defines the class template
    [ArrayPtr] (the FixedBuffer of the specification), is not among the
    sources.  An [ArrayPtr] holds one raw pointer to the first element of an
    array it owns, or null when it owns no storage. *)
Definition ArrayPtr : Set := option addr.

(** Modelled from the spec: the constructor [ArrayPtr(size)] of the missing
    array_ptr.h.  It allocates storage for exactly [size] elements; a count
    of 0 is legal and denotes no storage.  The array is a new block of the
    free store; [operator new] throws when the count is above what it can
    grant, and no array has more than [PTRDIFF_MAX] elements. *)
Definition ArrayPtr_new (size : Z) : M T ArrayPtr := λ h,
  if size =? 0 then Ok (None, h)
  else if (size <=? heap_limit) && (size <=? PTRDIFF_MAX) then
    let a := fresh (dom h) in
    Ok (Some a, <[a := replicate (Z.to_nat size) indet]> h)
  else Fail bad_alloc.

(** Modelled from the spec: the destructor of the missing [ArrayPtr]; it
    releases the storage, exactly once. *)
Definition ArrayPtr_delete (this : ArrayPtr) : M T unit := λ h,
  match this with
  | None => Ok ((), h)
  | Some a =>
      match h !! a with
      | Some _ => Ok ((), delete a h)
      | None => Fail invalid_access
      end
  end.

(** Modelled from the spec: [ArrayPtr::Get] of the missing array_ptr.h, the
    base address of the storage. *)
Definition ArrayPtr_Get (this : ArrayPtr) : ptr := Ptr this 0.

(** Modelled from the spec: [ArrayPtr::operator[]] of the missing
    array_ptr.h, unchecked access by position; the result is a reference,
    that is the address of the element. *)
Definition ArrayPtr_index (this : ArrayPtr) (index : Z) : ptr :=
  ArrayPtr_Get this +ₚ index.

(** Modelled from the spec: [ArrayPtr::swap] of the missing array_ptr.h
    exchanges the owned storage. *)
Definition ArrayPtr_swap (this other : ArrayPtr) : ArrayPtr * ArrayPtr :=
  (other, this).

(** Modelled from the spec: the move assignment of the missing [ArrayPtr],
    between two distinct objects.  The specification only says that a move
    transfers ownership of the storage; the two usual forms are an exchange
    of the raw pointers, and the release of the target's storage with the
    source left null.  [move_assign_by_swap] selects the form. *)
Definition ArrayPtr_move_assign (this other : ArrayPtr)
  : M T (ArrayPtr * ArrayPtr) :=
  if move_assign_by_swap then mret (other, this)
  else ArrayPtr_delete this;; mret (other, None).

(** ** ReserveProxyObj *)

Record ReserveProxyObj : Set := { capacity_to_reserve_ : Z }.

Definition GetCapacityToReserve (obj : ReserveProxyObj) : Z :=
  capacity_to_reserve_ obj.

(** The free function [Reserve(capacity_to_reserve)], which makes the
    argument of the reserving constructor. *)
Definition Reserve_proxy (capacity_to_reserve : Z) : ReserveProxyObj :=
  {| capacity_to_reserve_ := capacity_to_reserve |}.

(** ** SimpleVector *)

Record SimpleVector : Set := {
  items_ : ArrayPtr;
  size_ : Z;
  capacity_ : Z
}.

Definition set_size (n : Z) (this : SimpleVector) : SimpleVector :=
  {| items_ := items_ this; size_ := n; capacity_ := capacity_ this |}.

Definition GetSize (this : SimpleVector) : Z := size_ this.
Definition GetCapacity (this : SimpleVector) : Z := capacity_ this.
Definition IsEmpty (this : SimpleVector) : bool := size_ this =? 0.

Definition begin (this : SimpleVector) : ptr := ArrayPtr_Get (items_ this).
Definition end_ (this : SimpleVector) : ptr := begin this +ₚ size_ this.
Definition cbegin (this : SimpleVector) : ptr := begin this.
Definition cend (this : SimpleVector) : ptr := end_ this.

(** [SimpleVector() noexcept = default]: the default member initialisers. *)
Definition SimpleVector_default : SimpleVector :=
  {| items_ := None; size_ := 0; capacity_ := 0 |}.

(** The implicit destructor destroys the member [items_]. *)
Definition SimpleVector_destroy (this : SimpleVector) : M T unit :=
  ArrayPtr_delete (items_ this).

(** [explicit SimpleVector(size_t size)]. *)
Definition SimpleVector_sized (size : Z) : M T SimpleVector :=
  items ← ArrayPtr_new size;
  let this := {| items_ := items; size_ := size; capacity_ := size |} in
  std_fill (begin this) (end_ this) dflt;;
  mret this.

(** [SimpleVector(size_t size, Type value)]. *)
Definition SimpleVector_filled (size : Z) (value : T) : M T SimpleVector :=
  items ← ArrayPtr_new size;
  let this := {| items_ := items; size_ := size; capacity_ := size |} in
  std_fill (begin this) (end_ this) value;;
  mret this.

(** [void swap(SimpleVector& other) noexcept]. *)
Definition swap (this other : SimpleVector) : SimpleVector * SimpleVector :=
  let '(items, other_items) := ArrayPtr_swap (items_ this) (items_ other) in
  ({| items_ := items; size_ := size_ other; capacity_ := capacity_ other |},
   {| items_ := other_items; size_ := size_ this;
      capacity_ := capacity_ this |}).

(** [Assign(values, size)] for [Values = std::initializer_list<Type>]; the
    local [tmp] is destroyed on return. *)
Definition Assign_init (values : list T) (size : Z) (this : SimpleVector)
  : M T SimpleVector :=
  tmp ← SimpleVector_sized size;
  std_move_init values (begin tmp);;
  let '(this, tmp) := swap this tmp in
  SimpleVector_destroy tmp;;
  mret this.

(** [Assign(values, size)] for [Values = SimpleVector]. *)
Definition Assign_vector (values : SimpleVector) (size : Z)
    (this : SimpleVector) : M T SimpleVector :=
  tmp ← SimpleVector_sized size;
  std_move_const (begin values) (end_ values) (begin tmp);;
  let '(this, tmp) := swap this tmp in
  SimpleVector_destroy tmp;;
  mret this.

(** [void Reallocate(size_t new_capacity)]; the local [new_array] is
    destroyed on return. *)
Definition Reallocate (new_capacity : Z) (this : SimpleVector)
  : M T SimpleVector :=
  new_array ← ArrayPtr_new new_capacity;
  std_move (ArrayPtr_Get (items_ this))
           (ArrayPtr_Get (items_ this) +ₚ size_ this)
           (ArrayPtr_Get new_array);;
  let '(items, new_array) := ArrayPtr_swap (items_ this) new_array in
  ArrayPtr_delete new_array;;
  mret {| items_ := items; size_ := size_ this; capacity_ := new_capacity |}.

(** [void Reserve(size_t new_capacity)]. *)
Definition Reserve (new_capacity : Z) (this : SimpleVector)
  : M T SimpleVector :=
  if capacity_ this <? new_capacity then Reallocate new_capacity this
  else mret this.

(** [SimpleVector(std::initializer_list<Type> init)]. *)
Definition SimpleVector_init (init : list T) : M T SimpleVector :=
  Assign_init init (Z.of_nat (length init)) SimpleVector_default.

(** [SimpleVector(const ReserveProxyObj& obj)]. *)
Definition SimpleVector_reserved (obj : ReserveProxyObj) : M T SimpleVector :=
  Reserve (GetCapacityToReserve obj) SimpleVector_default.

(** [SimpleVector(const SimpleVector& other)]. *)
Definition SimpleVector_copy (other : SimpleVector) : M T SimpleVector :=
  Assign_vector other (size_ other) SimpleVector_default.

(** Two references to [SimpleVector] objects either name one object or two
    distinct ones. *)
Inductive operands : Set :=
| SameObject (v : SimpleVector)
| TwoObjects (lhs rhs : SimpleVector).

(** [SimpleVector& operator=(const SimpleVector& rhs)]; the left operand is
    [this]. *)
Definition copy_assign (args : operands) : M T operands :=
  match args with
  | SameObject v => mret (SameObject v)
  | TwoObjects this rhs =>
      tmp ← SimpleVector_copy rhs;
      let '(this, tmp) := swap this tmp in
      SimpleVector_destroy tmp;;
      mret (TwoObjects this rhs)
  end.

(** [SimpleVector(SimpleVector&& other)]: returns the new object and
    [other] as it is left. *)
Definition SimpleVector_move (other : SimpleVector)
  : M T (SimpleVector * SimpleVector) :=
  let this := SimpleVector_default in
  '(items, other_items) ← ArrayPtr_move_assign (items_ this) (items_ other);
  mret ({| items_ := items; size_ := size_ other;
           capacity_ := capacity_ other |},
        {| items_ := other_items; size_ := 0; capacity_ := 0 |}).

(** [SimpleVector& operator=(SimpleVector&&) = default]: member-wise move
    assignment.  Moving a [size_t] copies it, so the two counters of the
    right operand keep their values.  Returns [this] and the right operand
    as they are left. *)
Definition move_assign (this rhs : SimpleVector)
  : M T (SimpleVector * SimpleVector) :=
  '(items, rhs_items) ← ArrayPtr_move_assign (items_ this) (items_ rhs);
  mret ({| items_ := items; size_ := size_ rhs; capacity_ := capacity_ rhs |},
        {| items_ := rhs_items; size_ := size_ rhs;
           capacity_ := capacity_ rhs |}).

(** [void PushBack(Type item)]. *)
Definition PushBack (item : T) (this : SimpleVector) : M T SimpleVector :=
  this ← (if capacity_ this =? 0 then Reallocate 1 this else mret this);
  this ← (if size_ this =? capacity_ this
          then Reallocate (wrap (capacity_ this * 2)) this
          else mret this);
  store (ArrayPtr_index (items_ this) (size_ this)) item;;
  mret (set_size (wrap (size_ this + 1)) this).

(** [Iterator Insert(ConstIterator pos, Type value)]. *)
Definition Insert (pos : ptr) (value : T) (this : SimpleVector)
  : M T (ptr * SimpleVector) :=
  assert (ptr_le (cbegin this) pos && ptr_le pos (cend this));;
  if size_ this <? capacity_ this then
    let it := pos in
    std_move_backward it (end_ this) (end_ this +ₚ 1);;
    store it value;;
    mret (it, set_size (wrap (size_ this + 1)) this)
  else
    let new_capacity :=
      if size_ this =? 0 then 1 else wrap (capacity_ this * 2) in
    tmp ← SimpleVector_sized new_capacity;
    it ← std_move (begin this) pos (begin tmp);
    store it value;;
    std_move pos (end_ this) (it +ₚ 1);;
    let tmp := set_size (wrap (size_ this + 1)) tmp in
    let '(this, tmp) := swap this tmp in
    SimpleVector_destroy tmp;;
    mret (it, this).

(** [void PopBack() noexcept]. *)
Definition PopBack (this : SimpleVector) : M T SimpleVector :=
  assert (negb (IsEmpty this));;
  mret (set_size (wrap (size_ this - 1)) this).

(** [Iterator Erase(ConstIterator pos)]. *)
Definition Erase (pos : ptr) (this : SimpleVector)
  : M T (ptr * SimpleVector) :=
  assert (ptr_le (cbegin this) pos && ptr_lt pos (cend this));;
  let it := pos in
  std_move (it +ₚ 1) (end_ this) it;;
  mret (it, set_size (wrap (size_ this - 1)) this).

(** The names of type [size_t] that the body of an indexing operator can
    refer to: its parameter and the data members of the class.  No other
    declaration of the header is in scope under these or similar names. *)
Definition name_in_scope (index : Z) (this : SimpleVector) (name : string)
  : option Z :=
  if String.eqb name "index" then Some index
  else if String.eqb name "size_" then Some (size_ this)
  else if String.eqb name "capacity_" then Some (capacity_ this)
  else None.

(** [assert(lhs < rhs)] where [lhs] and [rhs] are written as names.  When a
    name denotes nothing the expression is ill-formed; the header is then
    accepted only where [assert] expands to nothing (NDEBUG), and nothing
    is checked. *)
Definition assert_less (index : Z) (this : SimpleVector) (lhs rhs : string)
  : M T unit :=
  match name_in_scope index this lhs, name_in_scope index this rhs with
  | Some a, Some b => assert (a <? b)
  | _, _ => mret ()
  end.

(** [Type& operator[](size_t index) noexcept]: asserts [index < size_]. *)
Definition subscript (index : Z) (this : SimpleVector) : M T ptr :=
  assert_less index this "index" "size_";;
  mret (ArrayPtr_index (items_ this) index).

(** [const Type& operator[](size_t index) const noexcept]: asserts
    [index < size]. *)
Definition subscript_const (index : Z) (this : SimpleVector) : M T ptr :=
  assert_less index this "index" "size";;
  mret (ArrayPtr_index (items_ this) index).

(** [Type& At(size_t index)]. *)
Definition At (index : Z) (this : SimpleVector) : M T ptr :=
  if size_ this <=? index then raise out_of_range
  else mret (ArrayPtr_index (items_ this) index).

(** [const Type& At(size_t index) const]. *)
Definition At_const (index : Z) (this : SimpleVector) : M T ptr :=
  if size_ this <=? index then raise out_of_range
  else mret (ArrayPtr_index (items_ this) index).

(** [void Clear() noexcept]. *)
Definition Clear (this : SimpleVector) : SimpleVector := set_size 0 this.

(** [void Resize(size_t new_size)]. *)
Definition Resize (new_size : Z) (this : SimpleVector) : M T SimpleVector :=
  this ← (if capacity_ this <? new_size then
            let new_capacity :=
              Z.max new_size (wrap (capacity_ this * 2)) in
            Reallocate new_capacity this
          else mret this);
  (if size_ this <? new_size then
     std_fill (end_ this) (end_ this +ₚ new_size +ₚ - size_ this) dflt
   else mret ());;
  mret (set_size new_size this).

(** [operator==]. *)
Definition operator_eq {Cmp : Comparable T} (args : operands) : M T bool :=
  match args with
  | SameObject _ => mret true
  | TwoObjects lhs rhs =>
      if GetSize lhs =? GetSize rhs then
        std_equal (begin lhs) (end_ lhs) (begin rhs) (end_ rhs)
      else mret false
  end.

(** [operator!=]. *)
Definition operator_ne {Cmp : Comparable T} (args : operands) : M T bool :=
  b ← operator_eq args; mret (negb b).

(** [operator<]. *)
Definition operator_lt {Cmp : Comparable T} (lhs rhs : SimpleVector)
  : M T bool :=
  std_lexicographical_compare (begin lhs) (end_ lhs) (begin rhs) (end_ rhs).

(** [operator<=]. *)
Definition operator_le {Cmp : Comparable T} (lhs rhs : SimpleVector)
  : M T bool :=
  b ← operator_lt rhs lhs; mret (negb b).

(** [operator>]. *)
Definition operator_gt {Cmp : Comparable T} (lhs rhs : SimpleVector)
  : M T bool :=
  operator_lt rhs lhs.

(** [operator>=]. *)
Definition operator_ge {Cmp : Comparable T} (lhs rhs : SimpleVector)
  : M T bool :=
  operator_le rhs lhs.

End SimpleVector.

(** ** What a vector denotes in a given free store *)

(** The capacity after [Insert], from the counters before it. *)
Definition Insert_capacity (v : SimpleVector) : Z :=
  if size_ v <? capacity_ v then capacity_ v
  else if size_ v =? 0 then 1
  else 2 * capacity_ v.

(** The capacity after [PushBack], from the counters before it. *)
Definition PushBack_capacity (v : SimpleVector) : Z :=
  if capacity_ v =? 0 then 1
  else if size_ v =? capacity_ v then 2 * capacity_ v
  else capacity_ v.

Section Denotation.

Context {T : Type}.

(** The array an [ArrayPtr] owns; a null one owns the empty array. *)
Definition buffer (h : heap T) (p : ArrayPtr) : option (list T) :=
  match p with
  | None => Some []
  | Some a => h !! a
  end.

(** The live elements: the first [size_] elements of the owned array. *)
Definition elements (h : heap T) (v : SimpleVector) : list T :=
  match buffer h (items_ v) with
  | Some l => take (Z.to_nat (size_ v)) l
  | None => []
  end.

(** The class invariant: [0 <= size_ <= capacity_], and [capacity_] is the
    length of the owned array, which like any array has at most
    [PTRDIFF_MAX] elements. *)
Definition invariant (h : heap T) (v : SimpleVector) : Prop :=
  0 ≤ size_ v ∧ size_ v ≤ capacity_ v ∧ capacity_ v ≤ PTRDIFF_MAX ∧
  ∃ l, buffer h (items_ v) = Some l ∧ Z.of_nat (length l) = capacity_ v.

(** [holds h v els spare]: in the free store [h] the vector [v] satisfies
    its invariant, its live elements are [els] and the unused rest of its
    array is [spare]. *)
Definition holds (h : heap T) (v : SimpleVector) (els spare : list T)
  : Prop :=
  buffer h (items_ v) = Some (els ++ spare) ∧
  size_ v = Z.of_nat (length els) ∧
  capacity_ v = Z.of_nat (length els + length spare) ∧
  capacity_ v ≤ PTRDIFF_MAX.

(** Every array of [h] other than the one [p] owns is the same in [h']. *)
Definition untouched (p : ArrayPtr) (h h' : heap T) : Prop :=
  ∀ b, p ≠ Some b → is_Some (h !! b) → h' !! b = h !! b.

(** The storage of [v'] is the storage of [v], or none, or an array that
    did not exist in [h]. *)
Definition storage_kept_or_new (h : heap T) (v v' : SimpleVector) : Prop :=
  items_ v' = items_ v ∨ items_ v' = None ∨
  ∃ a, items_ v' = Some a ∧ h !! a = None.

(** Two objects that do not share storage. *)
Definition separate (v w : SimpleVector) : Prop :=
  ∀ a, items_ v = Some a → items_ w ≠ Some a.

(** The storage of the free store is released through an [ArrayPtr]. *)
Definition release (p : ArrayPtr) (h : heap T) : heap T :=
  match p with
  | None => h
  | Some a => delete a h
  end.

End Denotation.

(** Lexicographic order of two sequences under the element order: a
    sequence that is a strict prefix of another is less than it; otherwise
    the first position where the two differ under the order decides. *)
Inductive lex_less {T} {Cmp : Comparable T} : list T → list T → Prop :=
| lex_less_prefix y l2 : lex_less [] (y :: l2)
| lex_less_here x l1 y l2 : elem_lt x y = true → lex_less (x :: l1) (y :: l2)
| lex_less_later x l1 y l2 :
    elem_lt x y = false → elem_lt y x = false → lex_less l1 l2 →
    lex_less (x :: l1) (y :: l2).

(** Two sequences of the same length whose elements are equal pairwise
    under [operator==] of the element type. *)
Definition pairwise_equal {T} {Cmp : Comparable T} (l1 l2 : list T)
  : Prop :=
  Forall2 (λ x y, elem_eq x y = true) l1 l2.

(** The values that can be read from [p] on. *)
Definition readable {T} (h : heap T) (p : ptr) (l : list T) : Prop :=
  ∀ (i : nat) x, l !! i = Some x → load (p +ₚ Z.of_nat i) h = Ok (x, h).

(** A request for [n] elements that [operator new] grants. *)
Definition grants {Env : Environment} (n : Z) : Prop :=
  n ≤ heap_limit ∧ n ≤ PTRDIFF_MAX.

(** The capacities that appending to an empty vector goes through: none,
    or a power of two less than twice the size. *)
Definition doubled (v : SimpleVector) : Prop :=
  capacity_ v = 0 ∨
  ∃ k, 0 ≤ k ∧ capacity_ v = 2 ^ k ∧ 2 ^ k < 2 * size_ v.

(** [c] is the smallest power of two that is at least [n]. *)
Definition smallest_power_of_two_from (n c : Z) : Prop :=
  ∃ k, 0 ≤ k ∧ c = 2 ^ k ∧ n ≤ 2 ^ k ∧
       ∀ j, 0 ≤ j → n ≤ 2 ^ j → 2 ^ k ≤ 2 ^ j.

(** ** Mutating member functions, as data *)

(** The calls by which a client changes a vector: the mutating member
    functions, and assignment to an element through the reference that [At]
    or [operator[]] returns. *)
Inductive mutation (T : Type) : Type :=
| mPushBack (item : T)
| mPopBack
| mInsert (index : Z) (value : T)
| mErase (index : Z)
| mResize (new_size : Z)
| mReserve (new_capacity : Z)
| mClear
| mAssignAt (index : Z) (value : T)
| mAssignSubscript (index : Z) (value : T).
Arguments mPushBack {T} item.
Arguments mPopBack {T}.
Arguments mInsert {T} index value.
Arguments mErase {T} index.
Arguments mResize {T} new_size.
Arguments mReserve {T} new_capacity.
Arguments mClear {T}.
Arguments mAssignAt {T} index value.
Arguments mAssignSubscript {T} index value.

Section Mutations.

Context {T : Type} {ET : Element T} {Env : Environment}.

Definition mutate (m : mutation T) (v : SimpleVector) : M T SimpleVector :=
  match m with
  | mPushBack item => PushBack item v
  | mPopBack => PopBack v
  | mInsert index value =>
      '(_, v) ← Insert (begin v +ₚ index) value v; mret v
  | mErase index => '(_, v) ← Erase (begin v +ₚ index) v; mret v
  | mResize new_size => Resize new_size v
  | mReserve new_capacity => Reserve new_capacity v
  | mClear => mret (Clear v)
  | mAssignAt index value => p ← At index v; store p value;; mret v
  | mAssignSubscript index value =>
      p ← subscript index v; store p value;; mret v
  end.

(** The arguments of type [size_t] are not negative. *)
Definition size_t_args (m : mutation T) : Prop :=
  match m with
  | mInsert n _ | mErase n | mResize n | mReserve n
  | mAssignAt n _ | mAssignSubscript n _ => 0 ≤ n ≤ SIZE_MAX
  | _ => True
  end.

Fixpoint mutate_all (ms : list (mutation T)) (v : SimpleVector)
  : M T SimpleVector :=
  match ms with
  | [] => mret v
  | m :: ms' => v' ← mutate m v; mutate_all ms' v'
  end.

(** [PushBack] of each value of a list in turn. *)
Fixpoint PushBack_all (items : list T) (v : SimpleVector)
  : M T SimpleVector :=
  match items with
  | [] => mret v
  | x :: items' => v' ← PushBack x v; PushBack_all items' v'
  end.

End Mutations.

(** [confined A m]: a run of [m] that ends with a value leaves every
    array of the free store as it was, and creates and releases none,
    except for the arrays that the pointers of [A] own. *)
Definition confined {T X} (A : list ArrayPtr) (m : M T X) : Prop :=
  ∀ h r h', m h = Ok (r, h') → ∀ b, Some b ∉ A → h' !! b = h !! b.

(** A mutation that the capacity the vector has already covers. *)
Definition fits {T} (m : mutation T) (v : SimpleVector) : Prop :=
  match m with
  | mPushBack _ | mInsert _ _ => size_ v < capacity_ v
  | mResize n | mReserve n => n ≤ capacity_ v
  | _ => True
  end.

(** ** Vectors of integers, for the examples *)

Module IntVector.

#[export] Instance Z_element : Element Z :=
  {| dflt := 0; moved := λ x, x; indet := -1 |}.

#[export] Instance Z_comparable : Comparable Z :=
  {| elem_eq := Z.eqb; elem_lt := Z.ltb |}.

#[export] Instance swap_environment : Environment :=
  {| heap_limit := 2 ^ 20; move_assign_by_swap := true |}.

Definition release_environment : Environment :=
  {| heap_limit := 2 ^ 20; move_assign_by_swap := false |}.

(** The vector {10,20,30} with room for a fourth element, and the free
    store that holds its array. *)
Definition sample_store : gmap addr (list Z) :=
  {[ 1%positive := [10; 20; 30; -1] ]}.
Definition sample : SimpleVector :=
  {| items_ := Some 1%positive; size_ := 3; capacity_ := 4 |}.

(** The vector {10,20,30} with no room left, and the vector {10,20} apart
    from it, in one free store. *)
Definition full_store : gmap addr (list Z) :=
  {[ 1%positive := [10; 20; 30]; 2%positive := [10; 20] ]}.
Definition full : SimpleVector :=
  {| items_ := Some 1%positive; size_ := 3; capacity_ := 3 |}.
Definition short : SimpleVector :=
  {| items_ := Some 2%positive; size_ := 2; capacity_ := 2 |}.

(** The value a program ends with when run from the empty free store. *)
Definition answer {A} (m : M Z A) : result A :=
  match m ∅ with
  | Ok (a, _) => Ok a
  | Fail f => Fail f
  end.

End IntVector.

(** * Proofs *)

(** ** Running the monad *)

Section Run.

Context {T : Type}.
Implicit Types (h : heap T).

Lemma bind_ok {A B} (m : M T A) (k : A → M T B) h (r : A) h' :
  m h = Ok (r, h') → (m ≫= k) h = k r h'.
Proof. intros E. unfold mbind, M_bind. by rewrite E. Qed.

Lemma bind_fail {A B} (m : M T A) (k : A → M T B) h f :
  m h = Fail f → (m ≫= k) h = Fail f.
Proof. intros E. unfold mbind, M_bind. by rewrite E. Qed.

Lemma bind_inv {A B} (m : M T A) (k : A → M T B) h (r : B) h' :
  (m ≫= k) h = Ok (r, h') →
  ∃ a h1, m h = Ok (a, h1) ∧ k a h1 = Ok (r, h').
Proof.
  unfold mbind, M_bind. destruct (m h) as [[a h1]|f]; [|done].
  intros E. by exists a, h1.
Qed.

Lemma ret_run {A} (a : A) h : (mret a : M T A) h = Ok (a, h).
Proof. done. Qed.

Lemma assert_true h : assert (T:=T) true h = Ok ((), h).
Proof. done. Qed.

End Run.

(** ** Pointers *)

Lemma ptr_add_0 p : p +ₚ 0 = p.
Proof. destruct p as [b o]. unfold ptr_add; simpl. f_equal. lia. Qed.

Lemma ptr_add_add p n m : p +ₚ n +ₚ m = p +ₚ (n + m).
Proof. unfold ptr_add; simpl. f_equal. lia. Qed.

Lemma ptr_at_succ (b : option addr) (i : nat) :
  Ptr b (Z.of_nat i) +ₚ 1 = Ptr b (Z.of_nat (S i)).
Proof. unfold ptr_add; simpl. f_equal. lia. Qed.

Lemma ptr_at_pred (b : option addr) (i : nat) :
  Ptr b (Z.of_nat (S i)) +ₚ -1 = Ptr b (Z.of_nat i).
Proof. unfold ptr_add; simpl. f_equal. lia. Qed.

Lemma ptr_add_at (b : option addr) (i n : Z) : Ptr b i +ₚ n = Ptr b (i + n).
Proof. done. Qed.

Lemma begin_at v : begin v = Ptr (items_ v) 0.
Proof. done. Qed.

Lemma end_at v : end_ v = Ptr (items_ v) (size_ v).
Proof. done. Qed.

Lemma index_at p i : ArrayPtr_index p i = Ptr p i.
Proof. done. Qed.

(** Projections of a record that is given by its fields. *)
Ltac fields := cbn [items_ size_ capacity_ base off fst snd] in *.

(** ** Memory and the loops over it *)

(** Equality of two free stores built by updates, address by address. *)
Ltac heap_eq :=
  apply map_eq; intros ?;
  rewrite ?lookup_insert, ?lookup_delete;
  repeat (case_decide; simplify_eq; rewrite ?lookup_insert, ?lookup_delete);
  try done.

Section Memory.

Context {T : Type} {ET : Element T}.
Implicit Types (h : heap T) (l pre mid post : list T) (a b : addr) (x y : T).

Lemma load_mid h a pre x post :
  h !! a = Some (pre ++ x :: post) →
  load (Ptr (Some a) (Z.of_nat (length pre))) h = Ok (x, h).
Proof.
  intros Ha. unfold load; simpl. rewrite Ha.
  destruct (Z.leb_spec 0 (Z.of_nat (length pre))); [|lia].
  by rewrite Nat2Z.id, list_lookup_middle.
Qed.

Lemma store_mid h a pre x post y :
  h !! a = Some (pre ++ x :: post) →
  store (Ptr (Some a) (Z.of_nat (length pre))) y h
  = Ok ((), <[a := pre ++ y :: post]> h).
Proof.
  intros Ha. unfold store; simpl. rewrite Ha.
  destruct (Z.leb_spec 0 (Z.of_nat (length pre))); [|lia].
  destruct (Z.ltb_spec (Z.of_nat (length pre))
              (Z.of_nat (length (pre ++ x :: post)))) as [_|Hge].
  - simpl. rewrite Nat2Z.id.
    replace (length pre) with (length pre + 0)%nat at 1 by lia.
    by rewrite insert_app_r.
  - rewrite length_app in Hge. simpl in Hge. lia.
Qed.

(** Moving a stretch of one array over a stretch of another. *)
Lemma move_n_across a b mid : ∀ pa qa pb old qb h,
  a ≠ b → length old = length mid →
  h !! a = Some (pa ++ mid ++ qa) →
  h !! b = Some (pb ++ old ++ qb) →
  move_n (length mid) (Ptr (Some a) (Z.of_nat (length pa)))
         (Ptr (Some b) (Z.of_nat (length pb))) h
  = Ok (Ptr (Some b) (Z.of_nat (length pb + length mid)),
        <[b := pb ++ mid ++ qb]> (<[a := pa ++ (moved <$> mid) ++ qa]> h)).
Proof.
  induction mid as [|x mid IH]; intros pa qa pb old qb h Hab Hlen Ha Hb.
  - destruct old; [|done]. simpl. rewrite Nat.add_0_r.
    rewrite ret_run. do 2 f_equal.
    rewrite (insert_id h a) by done. by rewrite insert_id.
  - destruct old as [|o old]; [done|]. simpl in *.
    rewrite (bind_ok _ _ _ _ _ (load_mid _ _ _ _ _ Ha)).
    rewrite (bind_ok _ _ _ _ _ (store_mid _ _ _ _ _ x Hb)).
    erewrite bind_ok; last first.
    { apply store_mid with (x := x). by rewrite lookup_insert_ne. }
    rewrite !ptr_at_succ.
    specialize (IH (pa ++ [moved x]) qa (pb ++ [x]) old qb
                  (<[a := pa ++ moved x :: mid ++ qa]>
                     (<[b := pb ++ x :: old ++ qb]> h))).
    rewrite !length_app in IH. simpl in IH.
    rewrite !Nat.add_1_r in IH.
    rewrite IH; [|done|lia| |].
    + do 2 f_equal; [f_equal; lia|].
      rewrite <- !(assoc_L (++)). simpl.
      heap_eq.
    + rewrite lookup_insert_eq. by rewrite <- (assoc_L (++)).
    + rewrite lookup_insert_ne by done. rewrite lookup_insert_eq.
      by rewrite <- (assoc_L (++)).
Qed.

(** Moving a stretch of an array one place to the left. *)
Lemma move_n_left a mid : ∀ pre x0 post h,
  h !! a = Some (pre ++ x0 :: mid ++ post) →
  ∃ junk, length junk = S (length post) ∧
    move_n (length mid) (Ptr (Some a) (Z.of_nat (S (length pre))))
           (Ptr (Some a) (Z.of_nat (length pre))) h
    = Ok (Ptr (Some a) (Z.of_nat (length pre + length mid)),
          <[a := pre ++ mid ++ junk]> h).
Proof.
  induction mid as [|x mid IH]; intros pre x0 post h Ha.
  - exists (x0 :: post). split; [done|]. simpl. rewrite Nat.add_0_r.
    by rewrite ret_run, insert_id.
  - simpl in *.
    assert (Ha' : h !! a = Some ((pre ++ [x0]) ++ x :: mid ++ post))
      by by rewrite <- (assoc_L (++)).
    pose proof (load_mid _ _ _ _ _ Ha') as Hload.
    rewrite length_app, Nat.add_1_r in Hload.
    rewrite (bind_ok _ _ _ _ _ Hload).
    rewrite (bind_ok _ _ _ _ _ (store_mid _ _ _ _ _ x Ha)).
    erewrite bind_ok; last first.
    { pose proof (store_mid (<[a := pre ++ x :: x :: mid ++ post]> h) a
                    (pre ++ [x]) x (mid ++ post) (moved x)) as Hst.
      rewrite length_app, Nat.add_1_r in Hst. apply Hst.
      by rewrite lookup_insert_eq, <- (assoc_L (++)). }
    rewrite !ptr_at_succ.
    destruct (IH (pre ++ [x]) (moved x) post
                (<[a := (pre ++ [x]) ++ moved x :: mid ++ post]>
                   (<[a := pre ++ x :: x :: mid ++ post]> h)))
      as (junk & Hjunk & Hrun).
    { by rewrite lookup_insert_eq. }
    exists junk. split; [done|].
    rewrite length_app, Nat.add_1_r in Hrun. rewrite Hrun.
    do 2 f_equal; [f_equal; lia|].
    rewrite <- !(assoc_L (++)). simpl. heap_eq.
Qed.

(** Moving a stretch of an array one place to the right, from its end. *)
Lemma move_backward_n_right a pre : ∀ mid y0 post h,
  h !! a = Some (pre ++ mid ++ y0 :: post) →
  ∃ junk,
    move_backward_n (length mid)
      (Ptr (Some a) (Z.of_nat (length pre + length mid)))
      (Ptr (Some a) (Z.of_nat (S (length pre + length mid)))) h
    = Ok (Ptr (Some a) (Z.of_nat (S (length pre))),
          <[a := pre ++ junk :: mid ++ post]> h).
Proof.
  induction mid as [|x mid IH] using rev_ind; intros y0 post h Ha.
  - exists y0. simpl. rewrite Nat.add_0_r. by rewrite ret_run, insert_id.
  - rewrite length_app. simpl.
    replace (length pre + (length mid + 1))%nat
      with (S (length pre + length mid)) by lia.
    rewrite Nat.add_1_r. simpl.
    rewrite !ptr_at_pred.
    assert (Ha1 : h !! a = Some ((pre ++ mid) ++ x :: y0 :: post)).
    { rewrite Ha. by rewrite <- !(assoc_L (++)). }
    pose proof (load_mid _ _ _ _ _ Ha1) as Hload.
    rewrite length_app in Hload. rewrite (bind_ok _ _ _ _ _ Hload).
    assert (Ha2 : h !! a = Some ((pre ++ mid ++ [x]) ++ y0 :: post)).
    { rewrite Ha. by rewrite <- !(assoc_L (++)). }
    pose proof (store_mid _ _ _ _ _ x Ha2) as Hst.
    rewrite !length_app in Hst. simpl in Hst.
    replace (length pre + (length mid + 1))%nat
      with (S (length pre + length mid)) in Hst by lia.
    rewrite (bind_ok _ _ _ _ _ Hst).
    erewrite bind_ok; last first.
    { pose proof (store_mid (<[a := (pre ++ mid ++ [x]) ++ x :: post]> h) a
                    (pre ++ mid) x (x :: post) (moved x)) as Hst2.
      rewrite length_app in Hst2. apply Hst2.
      rewrite lookup_insert_eq. by rewrite <- !(assoc_L (++)). }
    destruct (IH (moved x) (x :: post)
                (<[a := (pre ++ mid) ++ moved x :: x :: post]>
                   (<[a := (pre ++ mid ++ [x]) ++ x :: post]> h)))
      as (junk & Hrun).
    { rewrite lookup_insert_eq. by rewrite <- !(assoc_L (++)). }
    exists junk. rewrite Hrun. do 2 f_equal.
    rewrite <- !(assoc_L (++)). simpl. heap_eq.
Qed.

(** Copying a stretch of one array over a stretch of another. *)
Lemma copy_n_across a b mid : ∀ pa qa pb old qb h,
  a ≠ b → length old = length mid →
  h !! a = Some (pa ++ mid ++ qa) →
  h !! b = Some (pb ++ old ++ qb) →
  copy_n (length mid) (Ptr (Some a) (Z.of_nat (length pa)))
         (Ptr (Some b) (Z.of_nat (length pb))) h
  = Ok (Ptr (Some b) (Z.of_nat (length pb + length mid)),
        <[b := pb ++ mid ++ qb]> h).
Proof.
  induction mid as [|x mid IH]; intros pa qa pb old qb h Hab Hlen Ha Hb.
  - destruct old; [|done]. simpl. rewrite Nat.add_0_r.
    by rewrite ret_run, insert_id.
  - destruct old as [|o old]; [done|]. simpl in *.
    rewrite (bind_ok _ _ _ _ _ (load_mid _ _ _ _ _ Ha)).
    rewrite (bind_ok _ _ _ _ _ (store_mid _ _ _ _ _ x Hb)).
    rewrite !ptr_at_succ.
    specialize (IH (pa ++ [x]) qa (pb ++ [x]) old qb
                  (<[b := pb ++ x :: old ++ qb]> h)).
    rewrite !length_app in IH. simpl in IH.
    rewrite !Nat.add_1_r in IH.
    rewrite IH; [|done|lia| |].
    + do 2 f_equal; [f_equal; lia|].
      rewrite <- !(assoc_L (++)). simpl. heap_eq.
    + rewrite lookup_insert_ne by done. by rewrite <- (assoc_L (++)).
    + rewrite lookup_insert_eq. by rewrite <- (assoc_L (++)).
Qed.

(** Writing the values of an initializer list over a stretch of an array. *)
Lemma std_move_init_over b init : ∀ pb old qb h,
  length old = length init →
  h !! b = Some (pb ++ old ++ qb) →
  std_move_init init (Ptr (Some b) (Z.of_nat (length pb))) h
  = Ok (Ptr (Some b) (Z.of_nat (length pb + length init)),
        <[b := pb ++ init ++ qb]> h).
Proof.
  induction init as [|x init IH]; intros pb old qb h Hlen Hb.
  - destruct old; [|done]. simpl. rewrite Nat.add_0_r.
    by rewrite ret_run, insert_id.
  - destruct old as [|o old]; [done|]. simpl in *.
    rewrite (bind_ok _ _ _ _ _ (store_mid _ _ _ _ _ x Hb)).
    rewrite !ptr_at_succ.
    specialize (IH (pb ++ [x]) old qb (<[b := pb ++ x :: old ++ qb]> h)).
    rewrite !length_app in IH. simpl in IH.
    rewrite !Nat.add_1_r in IH.
    rewrite IH; [|lia|].
    + do 2 f_equal; [f_equal; lia|].
      rewrite <- !(assoc_L (++)). simpl. heap_eq.
    + rewrite lookup_insert_eq. by rewrite <- (assoc_L (++)).
Qed.

(** Filling a stretch of an array. *)
Lemma fill_n_over b value old : ∀ pb qb h,
  h !! b = Some (pb ++ old ++ qb) →
  fill_n (length old) (Ptr (Some b) (Z.of_nat (length pb))) value h
  = Ok ((), <[b := pb ++ replicate (length old) value ++ qb]> h).
Proof.
  induction old as [|o old IH]; intros pb qb h Hb.
  - simpl. by rewrite ret_run, insert_id.
  - simpl in *.
    rewrite (bind_ok _ _ _ _ _ (store_mid _ _ _ _ _ value Hb)).
    rewrite !ptr_at_succ.
    specialize (IH (pb ++ [value]) qb (<[b := pb ++ value :: old ++ qb]> h)).
    rewrite !length_app in IH. simpl in IH.
    rewrite !Nat.add_1_r in IH.
    rewrite IH.
    + do 2 f_equal. rewrite <- !(assoc_L (++)). simpl. heap_eq.
    + rewrite lookup_insert_eq. by rewrite <- (assoc_L (++)).
Qed.

(** The same loops between two pointers given by their offsets. *)

Lemma distance_run (b : option addr) (i j : Z) h :
  i ≤ j → distance (T:=T) (Ptr b i) (Ptr b j) h = Ok (Z.to_nat (j - i), h).
Proof.
  intros Hij. unfold distance; simpl.
  rewrite bool_decide_eq_true_2 by done.
  by destruct (Z.leb_spec i j); [|lia].
Qed.

Lemma std_move_across a b pa mid qa pb old qb h (i j k : Z) :
  a ≠ b → length old = length mid →
  h !! a = Some (pa ++ mid ++ qa) →
  h !! b = Some (pb ++ old ++ qb) →
  i = Z.of_nat (length pa) → j = Z.of_nat (length pa + length mid) →
  k = Z.of_nat (length pb) →
  std_move (Ptr (Some a) i) (Ptr (Some a) j) (Ptr (Some b) k) h
  = Ok (Ptr (Some b) (Z.of_nat (length pb + length mid)),
        <[b := pb ++ mid ++ qb]> (<[a := pa ++ (moved <$> mid) ++ qa]> h)).
Proof.
  intros Hab Hlen Ha Hb -> -> ->. unfold std_move.
  erewrite bind_ok by (apply distance_run; lia).
  replace (Z.to_nat _) with (length mid) by lia.
  by eapply move_n_across.
Qed.

Lemma std_move_left a pre x0 mid post h (i j k : Z) :
  h !! a = Some (pre ++ x0 :: mid ++ post) →
  i = Z.of_nat (length pre) + 1 →
  j = Z.of_nat (length pre) + 1 + Z.of_nat (length mid) →
  k = Z.of_nat (length pre) →
  ∃ junk, length junk = S (length post) ∧
    std_move (Ptr (Some a) i) (Ptr (Some a) j) (Ptr (Some a) k) h
    = Ok (Ptr (Some a) (Z.of_nat (length pre + length mid)),
          <[a := pre ++ mid ++ junk]> h).
Proof.
  intros Ha -> -> ->. unfold std_move.
  erewrite bind_ok by (apply distance_run; lia).
  replace (Z.to_nat _) with (length mid) by lia.
  replace (Z.of_nat (length pre) + 1) with (Z.of_nat (S (length pre))) by lia.
  by eapply move_n_left.
Qed.

Lemma std_move_backward_right a pre mid y0 post h (i j k : Z) :
  h !! a = Some (pre ++ mid ++ y0 :: post) →
  i = Z.of_nat (length pre) →
  j = Z.of_nat (length pre + length mid) →
  k = Z.of_nat (length pre + length mid) + 1 →
  ∃ junk,
    std_move_backward (Ptr (Some a) i) (Ptr (Some a) j) (Ptr (Some a) k) h
    = Ok (Ptr (Some a) (Z.of_nat (S (length pre))),
          <[a := pre ++ junk :: mid ++ post]> h).
Proof.
  intros Ha -> -> ->. unfold std_move_backward.
  erewrite bind_ok by (apply distance_run; lia).
  replace (Z.to_nat _) with (length mid) by lia.
  replace (Z.of_nat (length pre + length mid) + 1)
    with (Z.of_nat (S (length pre + length mid))) by lia.
  by eapply move_backward_n_right.
Qed.

Lemma std_move_const_across a b pa mid qa pb old qb h (i j k : Z) :
  a ≠ b → length old = length mid →
  h !! a = Some (pa ++ mid ++ qa) →
  h !! b = Some (pb ++ old ++ qb) →
  i = Z.of_nat (length pa) → j = Z.of_nat (length pa + length mid) →
  k = Z.of_nat (length pb) →
  std_move_const (Ptr (Some a) i) (Ptr (Some a) j) (Ptr (Some b) k) h
  = Ok (Ptr (Some b) (Z.of_nat (length pb + length mid)),
        <[b := pb ++ mid ++ qb]> h).
Proof.
  intros Hab Hlen Ha Hb -> -> ->. unfold std_move_const.
  erewrite bind_ok by (apply distance_run; lia).
  replace (Z.to_nat _) with (length mid) by lia.
  by eapply copy_n_across.
Qed.

Lemma std_fill_over b value pb old qb h (i j : Z) :
  h !! b = Some (pb ++ old ++ qb) →
  i = Z.of_nat (length pb) → j = Z.of_nat (length pb + length old) →
  std_fill (Ptr (Some b) i) (Ptr (Some b) j) value h
  = Ok ((), <[b := pb ++ replicate (length old) value ++ qb]> h).
Proof.
  intros Hb -> ->. unfold std_fill.
  erewrite bind_ok by (apply distance_run; lia).
  replace (Z.to_nat _) with (length old) by lia.
  by eapply fill_n_over.
Qed.

(** A loop over an empty range touches nothing, whatever the pointers. *)
Lemma std_move_empty (p d : ptr) h : std_move p p d h = Ok (d, h).
Proof.
  unfold std_move. destruct p as [b i].
  erewrite bind_ok by (apply distance_run; lia).
  by rewrite Z.sub_diag.
Qed.

Lemma std_move_const_empty (p d : ptr) h : std_move_const p p d h = Ok (d, h).
Proof.
  unfold std_move_const. destruct p as [b i].
  erewrite bind_ok by (apply distance_run; lia).
  by rewrite Z.sub_diag.
Qed.

Lemma std_fill_empty (p : ptr) value h : std_fill p p value h = Ok ((), h).
Proof.
  unfold std_fill. destruct p as [b i].
  erewrite bind_ok by (apply distance_run; lia).
  by rewrite Z.sub_diag.
Qed.

End Memory.

(** ** The invariant *)

Section Invariant.

Context {T : Type}.
Implicit Types (h : heap T) (v : SimpleVector) (els spare : list T).

Lemma holds_elements h v els spare : holds h v els spare → elements h v = els.
Proof.
  intros (Hb & Hs & _). unfold elements. rewrite Hb, Hs, Nat2Z.id.
  by rewrite take_app_length.
Qed.

Lemma holds_invariant h v els spare : holds h v els spare → invariant h v.
Proof.
  intros (Hb & Hs & Hc & Hmax). repeat split; try lia.
  exists (els ++ spare). split; [done|]. rewrite length_app. lia.
Qed.

Lemma invariant_holds h v :
  invariant h v → ∃ spare, holds h v (elements h v) spare.
Proof.
  intros (H0 & Hsc & Hmax & l & Hb & Hl).
  exists (drop (Z.to_nat (size_ v)) l). unfold holds, elements. rewrite Hb.
  rewrite take_drop. split; [done|].
  rewrite length_take, length_drop. repeat split; lia.
Qed.

Lemma fresh_lookup h : h !! fresh (dom h) = None.
Proof. apply not_elem_of_dom, is_fresh. Qed.

Lemma untouched_refl (p : ArrayPtr) h : untouched p h h.
Proof. by intros b _ _. Qed.

Lemma untouched_insert (p : ArrayPtr) h a l :
  p = Some a → untouched p h (<[a := l]> h).
Proof. intros -> b Hb _. rewrite lookup_insert_ne; congruence. Qed.

Lemma untouched_realloc (p : ArrayPtr) h l :
  untouched p h (<[fresh (dom h) := l]> (release p h)).
Proof.
  intros b Hb [x Hx]. rewrite lookup_insert_ne.
  - destruct p as [a|]; simpl; [|done]. rewrite lookup_delete_ne; congruence.
  - intros <-. by rewrite fresh_lookup in Hx.
Qed.

End Invariant.

(** ** Allocation, construction from a count, reallocation *)

Section Allocation.

Context {T : Type} {ET : Element T} {Env : Environment}.
Implicit Types (h : heap T) (v : SimpleVector) (els spare : list T).

Lemma ArrayPtr_delete_run (p : ArrayPtr) h l :
  buffer h p = Some l → ArrayPtr_delete p h = Ok ((), release p h).
Proof.
  destruct p as [a|]; simpl; [|done]. unfold ArrayPtr_delete.
  by intros ->.
Qed.

Lemma ArrayPtr_new_run n h :
  match ArrayPtr_new n h with
  | Ok (p, h') =>
      (n = 0 ∧ p = None ∧ h' = h) ∨
      (n ≠ 0 ∧ grants n ∧ p = Some (fresh (dom h)) ∧
       h' = <[fresh (dom h) := replicate (Z.to_nat n) indet]> h)
  | Fail f => f = bad_alloc ∧ n ≠ 0 ∧ ¬ grants n
  end.
Proof.
  unfold ArrayPtr_new, grants. destruct (Z.eqb_spec n 0) as [->|Hn].
  - by left.
  - destruct (Z.leb_spec n heap_limit), (Z.leb_spec n PTRDIFF_MAX); simpl;
      try (repeat split; [done|lia]).
    right. repeat split; done.
Qed.

Lemma SimpleVector_filled_run n value h :
  0 ≤ n →
  match SimpleVector_filled n value h with
  | Ok (v, h') =>
      (n = 0 ∧ v = SimpleVector_default ∧ h' = h) ∨
      (0 < n ∧ grants n ∧
       v = {| items_ := Some (fresh (dom h)); size_ := n; capacity_ := n |} ∧
       h' = <[fresh (dom h) := replicate (Z.to_nat n) value]> h)
  | Fail f => f = bad_alloc ∧ 0 < n ∧ ¬ grants n
  end.
Proof.
  intros Hn. unfold SimpleVector_filled.
  pose proof (ArrayPtr_new_run n h) as Hnew.
  destruct (ArrayPtr_new n h) as [[p h1]|f] eqn:E.
  - rewrite (bind_ok _ _ _ _ _ E).
    destruct Hnew as [(-> & -> & ->)|(Hn0 & Hg & -> & ->)].
    + rewrite begin_at, end_at.
      erewrite bind_ok by apply std_fill_empty. by left.
    + rewrite begin_at, end_at. fields.
      erewrite bind_ok; last first.
      { apply (std_fill_over _ value [] (replicate (Z.to_nat n) indet) []).
        - by rewrite lookup_insert_eq, app_nil_r.
        - done.
        - simpl. rewrite length_replicate. lia. }
      rewrite ret_run. right. split; [lia|]. do 2 (split; [done|]).
      simpl. rewrite length_replicate, app_nil_r. heap_eq.
  - rewrite (bind_fail _ _ _ _ E). destruct Hnew as (-> & ? & ?).
    split; [done|]. split; [lia|done].
Qed.

Lemma SimpleVector_sized_run n h :
  0 ≤ n →
  match SimpleVector_sized n h with
  | Ok (v, h') =>
      (n = 0 ∧ v = SimpleVector_default ∧ h' = h) ∨
      (0 < n ∧ grants n ∧
       v = {| items_ := Some (fresh (dom h)); size_ := n; capacity_ := n |} ∧
       h' = <[fresh (dom h) := replicate (Z.to_nat n) dflt]> h)
  | Fail f => f = bad_alloc ∧ 0 < n ∧ ¬ grants n
  end.
Proof. apply SimpleVector_filled_run. Qed.

Lemma holds_fresh h (f : addr) (l spare : list T) n c :
  n = Z.of_nat (length l) → c = Z.of_nat (length l + length spare) →
  c ≤ PTRDIFF_MAX →
  holds (<[f := l ++ spare]> h)
        {| items_ := Some f; size_ := n; capacity_ := c |} l spare.
Proof.
  intros -> -> Hc. repeat split; simpl; [|done].
  by rewrite lookup_insert_eq.
Qed.

Lemma Reallocate_run n h v els spare :
  holds h v els spare → 0 < n → size_ v ≤ n →
  match Reallocate n v h with
  | Ok (v', h') =>
      grants n ∧
      v' = {| items_ := Some (fresh (dom h)); size_ := size_ v;
              capacity_ := n |} ∧
      h' = <[fresh (dom h) :=
               els ++ replicate (Z.to_nat n - length els) indet]>
             (release (items_ v) h)
  | Fail f => f = bad_alloc ∧ ¬ grants n
  end.
Proof.
  intros (Hb & Hs & Hc & Hmax) Hn Hsn. unfold Reallocate.
  pose proof (ArrayPtr_new_run n h) as Hnew.
  destruct (ArrayPtr_new n h) as [[p h1]|f] eqn:E.
  - rewrite (bind_ok _ _ _ _ _ E).
    destruct Hnew as [(-> & _)|(_ & Hg & -> & ->)]; [lia|].
    set (f := fresh (dom h)) in *.
    assert (Hf : h !! f = None) by apply fresh_lookup.
    destruct (items_ v) as [a|] eqn:Hi; simpl in Hb.
    + assert (Haf : a ≠ f) by congruence.
      unfold ArrayPtr_Get. rewrite ptr_add_at.
      erewrite bind_ok; last first.
      { apply (std_move_across a f [] els spare []
                 (replicate (length els) indet)
                 (replicate (Z.to_nat n - length els) indet));
          try done; try lia.
        - by rewrite length_replicate.
        - by rewrite lookup_insert_ne.
        - rewrite lookup_insert_eq. simpl. f_equal.
          rewrite <- replicate_add. f_equal. lia. }
      cbn [ArrayPtr_swap].
      erewrite bind_ok; last first.
      { eapply ArrayPtr_delete_run. simpl.
        by rewrite lookup_insert_ne, lookup_insert_eq. }
      rewrite ret_run. do 2 (split; [done|]). simpl. heap_eq.
    + injection Hb as Hb. symmetry in Hb. apply app_eq_nil in Hb as [-> ->].
      simpl in *. rewrite Hs. rewrite ptr_add_0.
      erewrite bind_ok by apply std_move_empty.
      cbn [ArrayPtr_swap].
      erewrite bind_ok by by eapply ArrayPtr_delete_run.
      rewrite ret_run. do 2 (split; [done|]).
      simpl. by rewrite Nat.sub_0_r.
  - rewrite (bind_fail _ _ _ _ E). by destruct Hnew as (-> & _ & ?).
Qed.

Lemma holds_reallocated n h v els spare :
  holds h v els spare → size_ v ≤ n → n ≤ PTRDIFF_MAX →
  holds (<[fresh (dom h) := els ++ replicate (Z.to_nat n - length els) indet]>
           (release (items_ v) h))
        {| items_ := Some (fresh (dom h)); size_ := size_ v; capacity_ := n |}
        els (replicate (Z.to_nat n - length els) indet).
Proof.
  intros (Hb & Hs & Hc & Hmax) Hsn Hn. repeat split; simpl; [|done| |done].
  - by rewrite lookup_insert_eq.
  - rewrite length_replicate. lia.
Qed.

End Allocation.

(** ** The member functions, one by one *)

Section Members.

Context {T : Type} {ET : Element T} {Env : Environment}.
Implicit Types (h : heap T) (v : SimpleVector) (els spare : list T).

Lemma wrap_small z : 0 ≤ z ≤ SIZE_MAX → wrap z = z.
Proof. intros Hz. apply Z.mod_small. unfold SIZE_MAX in Hz. lia. Qed.

Lemma PTRDIFF_MAX_twice : 2 * PTRDIFF_MAX + 1 = SIZE_MAX.
Proof. done. Qed.

Lemma holds_bounds h v els spare :
  holds h v els spare →
  0 ≤ size_ v ∧ size_ v ≤ capacity_ v ∧ capacity_ v ≤ PTRDIFF_MAX ∧
  (spare = [] ↔ size_ v = capacity_ v).
Proof.
  intros (_ & Hs & Hc & Hmax). repeat split; try lia.
  - intros ->. rewrite Hs, Hc. simpl. lia.
  - intros Heq. destruct spare; [done|]. simpl in *. lia.
Qed.

Lemma holds_storage h v els spare :
  holds h v els spare → 0 < capacity_ v →
  ∃ a, items_ v = Some a ∧ h !! a = Some (els ++ spare).
Proof.
  intros (Hb & Hs & Hc & _) Hpos. destruct (items_ v) as [a|]; [by exists a|].
  simpl in Hb. injection Hb as Hb. symmetry in Hb.
  apply app_eq_nil in Hb as [-> ->]. simpl in *. lia.
Qed.

(** Storing one more element in a vector that has room. *)
Lemma store_at_end h v els s0 spare x :
  holds h v els (s0 :: spare) →
  ∃ h', store (ArrayPtr_index (items_ v) (size_ v)) x h = Ok ((), h') ∧
        holds h' (set_size (wrap (size_ v + 1)) v) (els ++ [x]) spare ∧
        untouched (items_ v) h h'.
Proof.
  intros Hv. pose proof (holds_bounds _ _ _ _ Hv) as (H0 & Hsc & Hmax & _).
  destruct (holds_storage _ _ _ _ Hv) as (a & Hi & Ha).
  { destruct Hv as (_ & _ & Hc & _). rewrite Hc, length_cons. lia. }
  destruct Hv as (_ & Hs & Hc & _). rewrite length_cons in Hc.
  exists (<[a := els ++ x :: spare]> h). split; [|split].
  - rewrite index_at, Hi, Hs. by apply store_mid with (x := s0).
  - unfold holds, set_size. fields. rewrite Hi. simpl.
    rewrite lookup_insert_eq, <- (assoc_L (++)), length_app. simpl.
    rewrite wrap_small by (rewrite <- PTRDIFF_MAX_twice; lia).
    repeat split; [lia|lia|done].
  - by apply untouched_insert.
Qed.

Lemma untouched_trans (p q : ArrayPtr) h1 h2 h3 :
  untouched p h1 h2 → untouched q h2 h3 →
  (∀ b, p ≠ Some b → is_Some (h1 !! b) → q ≠ Some b) →
  untouched p h1 h3.
Proof.
  intros H12 H23 Hq b Hb Hin.
  rewrite H23; [by apply H12|by apply Hq|]. by rewrite H12.
Qed.

Lemma PushBack_run x h v els spare :
  holds h v els spare →
  match PushBack x v h with
  | Ok (v', h') =>
      (∃ spare', holds h' v' (els ++ [x]) spare') ∧
      untouched (items_ v) h h' ∧ storage_kept_or_new h v v' ∧
      capacity_ v' = PushBack_capacity v ∧
      (spare = [] → grants (PushBack_capacity v))
  | Fail f =>
      f = bad_alloc ∧ spare = [] ∧ ¬ grants (PushBack_capacity v)
  end.
Proof.
  intros Hv. pose proof (holds_bounds _ _ _ _ Hv) as (H0 & Hsc & Hmax & Hfull).
  unfold PushBack, PushBack_capacity.
  destruct (Z.eqb_spec (capacity_ v) 0) as [Hc0|Hc0].
  - (* no storage yet *)
    assert (spare = []) as Hsp by (apply Hfull; lia).
    pose proof (Reallocate_run 1 h v els spare Hv ltac:(lia) ltac:(lia)) as Hr.
    destruct (Reallocate 1 v h) as [[v1 h1]|f] eqn:E.
    + rewrite (bind_ok _ _ _ _ _ E). destruct Hr as (Hg & -> & ->). fields.
      assert (size_ v = 0) as Hs0 by lia. rewrite Hs0.
      destruct (Z.eqb_spec 0 1); [done|].
      erewrite (bind_ok (mret _)) by apply ret_run.
      assert (els = []) as ->.
      { destruct Hv as (_ & Hs & _). destruct els; [done|simpl in *; lia]. }
      fields. simpl app.
      destruct (store_at_end _ _ [] indet [] x
                  (holds_reallocated 1 h v [] spare Hv ltac:(lia)
                     ltac:(unfold PTRDIFF_MAX; lia)))
        as (h2 & Hst & Hh2 & Hun).
      rewrite Hs0 in *. fields. simpl in Hst, Hh2, Hun.
      rewrite (bind_ok _ _ _ _ _ Hst). rewrite ret_run.
      split; [by exists []|]. split; [|split; [|done]].
      * eapply untouched_trans; [apply untouched_realloc|apply Hun|].
        intros b _ Hin [= <-]. destruct Hin as [? Hin].
        by rewrite fresh_lookup in Hin.
      * right; right. eexists. split; [done|]. apply fresh_lookup.
    + rewrite (bind_fail _ _ _ _ E). by destruct Hr as (-> & ?).
  - rewrite bind_ok with (r := v) (h' := h) by done.
    destruct (Z.eqb_spec (size_ v) (capacity_ v)) as [Hsc'|Hsc'].
    + (* full *)
      assert (spare = []) as Hsp by (by apply Hfull).
      rewrite wrap_small by (rewrite <- PTRDIFF_MAX_twice; lia).
      pose proof (Reallocate_run (capacity_ v * 2) h v els spare Hv
                    ltac:(lia) ltac:(lia)) as Hr.
      destruct (Reallocate (capacity_ v * 2) v h) as [[v1 h1]|f] eqn:E.
      * rewrite (bind_ok _ _ _ _ _ E). destruct Hr as (Hg & -> & ->). fields.
        assert (Hg' := Hg). destruct Hg' as [_ Hgmax].
        pose proof (holds_reallocated (capacity_ v * 2) h v els spare Hv
                      ltac:(lia) Hgmax) as Hh1.
        destruct (replicate (Z.to_nat (capacity_ v * 2) - length els) indet)
          as [|s0 sp1] eqn:Hrep.
        { apply (f_equal length) in Hrep. rewrite length_replicate in Hrep.
          destruct Hv as (_ & Hs & _). simpl in Hrep. lia. }
        destruct (store_at_end _ _ _ _ _ x Hh1) as (h2 & Hst & Hh2 & Hun).
        fields. rewrite (bind_ok _ _ _ _ _ Hst). rewrite ret_run.
        replace (2 * capacity_ v) with (capacity_ v * 2) by lia.
        split; [by exists sp1|]. split; [|split; [|done]].
        -- eapply untouched_trans; [apply untouched_realloc|apply Hun|].
           intros b _ Hin [= <-]. destruct Hin as [? Hin].
           by rewrite fresh_lookup in Hin.
        -- right; right. eexists. split; [done|]. apply fresh_lookup.
      * rewrite (bind_fail _ _ _ _ E). destruct Hr as (-> & ?).
        by replace (2 * capacity_ v) with (capacity_ v * 2) by lia.
    + (* room left *)
      rewrite bind_ok with (r := v) (h' := h) by done.
      destruct spare as [|s0 spare];
        [destruct Hfull as [Hf _]; by specialize (Hf eq_refl)|].
      destruct (store_at_end _ _ _ _ _ x Hv) as (h2 & Hst & Hh2 & Hun).
      rewrite (bind_ok _ _ _ _ _ Hst). rewrite ret_run.
      split; [by exists spare|]. split; [done|]. split; [by left|done].
Qed.

Lemma position_assert k v :
  ptr_le (cbegin v) (begin v +ₚ k) && ptr_le (begin v +ₚ k) (cend v)
  = bool_decide (0 ≤ k ≤ size_ v).
Proof.
  unfold ptr_le, cbegin, cend. rewrite begin_at, end_at, ptr_add_at. fields.
  rewrite !bool_decide_eq_true_2 by done. simpl.
  destruct (Z.leb_spec 0 (0 + k)), (Z.leb_spec (0 + k) (size_ v)); simpl;
    symmetry; (apply bool_decide_eq_true_2 || apply bool_decide_eq_false_2);
    lia.
Qed.

Lemma position_assert_strict k v :
  ptr_le (cbegin v) (begin v +ₚ k) && ptr_lt (begin v +ₚ k) (cend v)
  = bool_decide (0 ≤ k < size_ v).
Proof.
  unfold ptr_le, ptr_lt, cbegin, cend.
  rewrite begin_at, end_at, ptr_add_at. fields.
  rewrite !bool_decide_eq_true_2 by done. simpl.
  destruct (Z.leb_spec 0 (0 + k)), (Z.ltb_spec (0 + k) (size_ v)); simpl;
    symmetry; (apply bool_decide_eq_true_2 || apply bool_decide_eq_false_2);
    lia.
Qed.

Lemma split_at (k : Z) (els : list T) :
  0 ≤ k ≤ Z.of_nat (length els) →
  els = take (Z.to_nat k) els ++ drop (Z.to_nat k) els ∧
  Z.of_nat (length (take (Z.to_nat k) els)) = k ∧
  Z.of_nat (length (drop (Z.to_nat k) els)) = Z.of_nat (length els) - k.
Proof.
  intros Hk. rewrite take_drop, length_take, length_drop.
  split; [done|lia].
Qed.

Lemma Insert_in_place k x h v els s0 spare :
  holds h v els (s0 :: spare) → 0 ≤ k ≤ size_ v →
  ∃ h', Insert (begin v +ₚ k) x v h
        = Ok ((begin v +ₚ k, set_size (wrap (size_ v + 1)) v), h') ∧
        holds h' (set_size (wrap (size_ v + 1)) v)
          (take (Z.to_nat k) els ++ x :: drop (Z.to_nat k) els) spare ∧
        untouched (items_ v) h h'.
Proof.
  intros Hv Hk.
  pose proof (holds_bounds _ _ _ _ Hv) as (H0 & Hsc & Hmax & Hfull).
  destruct (holds_storage _ _ _ _ Hv) as (a & Hi & Ha).
  { destruct Hv as (_ & _ & Hc & _). rewrite Hc, length_cons. lia. }
  destruct Hv as (_ & Hs & Hc & _). rewrite length_cons in Hc.
  destruct (split_at k els ltac:(lia)) as (Hels & Hpre & Hmid).
  set (pre := take (Z.to_nat k) els) in *.
  set (mid := drop (Z.to_nat k) els) in *.
  assert (Ha' : h !! a = Some (pre ++ mid ++ s0 :: spare)).
  { rewrite Ha, Hels at 1. by rewrite <- (assoc_L (++)). }
  unfold Insert. rewrite position_assert.
  rewrite bool_decide_eq_true_2 by done.
  rewrite (bind_ok _ _ _ _ _ (assert_true _)).
  destruct (Z.ltb_spec (size_ v) (capacity_ v)); [|lia].
  rewrite begin_at, end_at, !ptr_add_at, Hi.
  destruct (std_move_backward_right a pre mid s0 spare h
              (0 + k) (size_ v) (size_ v + 1) Ha') as (junk & Hmv);
    [lia|rewrite Hs, Hels at 1; rewrite length_app; lia
    |rewrite Hs, Hels at 1; rewrite length_app; lia|].
  rewrite (bind_ok _ _ _ _ _ Hmv).
  erewrite bind_ok; last first.
  { replace (0 + k) with (Z.of_nat (length pre)) by lia.
    apply store_mid with (x := junk). by rewrite lookup_insert_eq. }
  rewrite ret_run. eexists. split; [done|]. split.
  - unfold holds, set_size. fields. rewrite Hi. simpl.
    rewrite lookup_insert_eq, <- (assoc_L (++)). simpl.
    rewrite wrap_small by (rewrite <- PTRDIFF_MAX_twice; lia).
    rewrite length_app, length_cons. repeat split; [lia|lia|done].
  - intros b Hb _. rewrite !lookup_insert_ne; congruence.
Qed.

Lemma Insert_grown k x h v els :
  holds h v els [] → 0 ≤ k ≤ size_ v → grants (Insert_capacity v) →
  let f := fresh (dom h) in
  let v' := {| items_ := Some f; size_ := wrap (size_ v + 1);
               capacity_ := Insert_capacity v |} in
  ∃ spare',
    Insert (begin v +ₚ k) x v h
    = Ok ((Ptr (Some f) k, v'),
          <[f := (take (Z.to_nat k) els ++ x :: drop (Z.to_nat k) els)
                 ++ spare']> (release (items_ v) h)) ∧
    Z.of_nat (length els + 1 + length spare') = Insert_capacity v.
Proof.
  intros Hv Hk Hg f v'.
  pose proof (holds_bounds _ _ _ _ Hv) as (H0 & Hsc & Hmax & Hfull).
  assert (size_ v = capacity_ v) as Hfull' by by apply Hfull.
  destruct Hv as (Hb & Hs & Hc & _). rewrite app_nil_r in Hb.
  destruct (split_at k els ltac:(lia)) as (Hels & Hpre & Hmid).
  set (pre := take (Z.to_nat k) els) in *.
  set (mid := drop (Z.to_nat k) els) in *.
  assert (Hf : h !! f = None) by apply fresh_lookup.
  assert (Hn : Insert_capacity v
               = if size_ v =? 0 then 1 else wrap (capacity_ v * 2)).
  { unfold Insert_capacity. destruct (Z.ltb_spec (size_ v) (capacity_ v));
      [lia|]. destruct (size_ v =? 0); [done|].
    rewrite wrap_small by (rewrite <- PTRDIFF_MAX_twice; lia). lia. }
  assert (Hn1 : size_ v + 1 ≤ Insert_capacity v).
  { rewrite Hn. destruct (Z.eqb_spec (size_ v) 0); [lia|].
    rewrite wrap_small by (rewrite <- PTRDIFF_MAX_twice; lia). lia. }
  set (n := Insert_capacity v) in *.
  exists (replicate (Z.to_nat n - length els - 1) dflt).
  split; [|rewrite length_replicate; lia].
  unfold Insert. rewrite position_assert.
  rewrite bool_decide_eq_true_2 by done.
  rewrite (bind_ok _ _ _ _ _ (assert_true _)).
  destruct (Z.ltb_spec (size_ v) (capacity_ v)); [lia|].
  rewrite <- Hn.
  pose proof (SimpleVector_sized_run n h ltac:(lia)) as Hnew.
  destruct (SimpleVector_sized n h) as [[tmp h1]|e] eqn:E;
    [|by destruct Hnew as (_ & _ & ?)].
  rewrite (bind_ok _ _ _ _ _ E).
  destruct Hnew as [(? & _)|(_ & _ & -> & ->)]; [lia|]. fold f.
  rewrite !begin_at, end_at, !ptr_add_at. fields.
  assert (Hrep : replicate (Z.to_nat n) dflt
                 = replicate (length pre) dflt
                   ++ dflt :: replicate (length mid) dflt
                   ++ replicate (Z.to_nat n - length els - 1) (dflt : T)).
  { change (dflt :: ?l) with (replicate 1 dflt ++ l).
    rewrite <- !replicate_add. f_equal. lia. }
  destruct (items_ v) as [a|] eqn:Hi; simpl in Hb.
  - assert (Haf : a ≠ f) by congruence.
    erewrite bind_ok; last first.
    { apply (std_move_across a f [] pre mid [] (replicate (length pre) dflt)
               (dflt :: replicate (length mid) dflt
                  ++ replicate (Z.to_nat n - length els - 1) dflt));
        try done; try (simpl; lia).
      - by rewrite length_replicate.
      - rewrite lookup_insert_ne by done. by rewrite Hb, Hels at 1.
      - rewrite lookup_insert_eq. simpl. by rewrite Hrep. }
    simpl length. replace (Z.of_nat (0 + length pre)) with k by lia.
    erewrite bind_ok; last first.
    { replace k with (Z.of_nat (length ([] ++ pre))) at 1
        by (rewrite app_nil_l; lia).
      apply store_mid with (x := dflt). by rewrite lookup_insert_eq. }
    erewrite bind_ok; last first.
    { apply (std_move_across a f (moved <$> pre) mid [] (pre ++ [x])
               (replicate (length mid) dflt)
               (replicate (Z.to_nat n - length els - 1) dflt));
        try done.
      - by rewrite length_replicate.
      - rewrite lookup_insert_ne by done. rewrite lookup_insert_ne by done.
        rewrite lookup_insert_eq. simpl. by rewrite app_nil_r.
      - rewrite lookup_insert_eq. simpl. by rewrite <- (assoc_L (++)).
      - rewrite length_fmap. lia.
      - rewrite length_fmap. rewrite Hs, Hels at 1. rewrite length_app. lia.
      - rewrite length_app. simpl. lia. }
    cbn [swap ArrayPtr_swap set_size]. fields.
    unfold SimpleVector_destroy. fields. rewrite ?Hi.
    erewrite bind_ok; last first.
    { eapply ArrayPtr_delete_run. simpl.
      by rewrite lookup_insert_ne, lookup_insert_eq. }
    rewrite ret_run. unfold v', set_size. fields. do 2 f_equal.
    simpl. rewrite <- !(assoc_L (++)). simpl. heap_eq.
  - injection Hb as Hb. subst els. simpl in Hs.
    assert (k = 0) as -> by lia. simpl in pre, mid.
    erewrite bind_ok by apply std_move_empty.
    erewrite bind_ok; last first.
    { apply (store_mid _ f [] dflt (replicate (Z.to_nat n - 0 - 1) dflt)).
      rewrite lookup_insert_eq. f_equal. simpl in Hrep. by rewrite Hrep. }
    rewrite Hs. erewrite bind_ok by apply std_move_empty.
    cbn [swap ArrayPtr_swap set_size]. fields.
    unfold SimpleVector_destroy. fields. rewrite ?Hi.
    erewrite bind_ok by by eapply ArrayPtr_delete_run.
    rewrite ret_run. unfold v', set_size. fields. rewrite Hs.
    do 2 f_equal. simpl. heap_eq.
Qed.

Lemma Insert_run k x h v els spare :
  holds h v els spare →
  match Insert (begin v +ₚ k) x v h with
  | Ok ((it, v'), h') =>
      0 ≤ k ≤ size_ v ∧ it = begin v' +ₚ k ∧
      (∃ spare', holds h' v'
          (take (Z.to_nat k) els ++ x :: drop (Z.to_nat k) els) spare') ∧
      untouched (items_ v) h h' ∧ storage_kept_or_new h v v' ∧
      capacity_ v' = Insert_capacity v ∧
      (spare = [] → grants (Insert_capacity v))
  | Fail f =>
      (f = assertion_failed ∧ ¬ (0 ≤ k ≤ size_ v)) ∨
      (f = bad_alloc ∧ 0 ≤ k ≤ size_ v ∧ spare = [] ∧
       ¬ grants (Insert_capacity v))
  end.
Proof.
  intros Hv.
  pose proof (holds_bounds _ _ _ _ Hv) as (H0 & Hsc & Hmax & Hfull).
  destruct (decide (0 ≤ k ≤ size_ v)) as [Hk|Hk]; last first.
  { unfold Insert. rewrite position_assert.
    rewrite bool_decide_eq_false_2 by done.
    erewrite bind_fail by done. by left. }
  destruct spare as [|s0 spare].
  - assert (size_ v = capacity_ v) as Hfull' by by apply Hfull.
    destruct (decide (grants (Insert_capacity v))) as [Hg|Hg].
    + destruct (Insert_grown k x h v els Hv Hk Hg) as (spare' & -> & Hlen).
      split; [done|]. split; [by rewrite begin_at, ptr_add_at|].
      assert (Hsz : wrap (size_ v + 1) = Z.of_nat (length els) + 1).
      { destruct Hv as (_ & Hs & _). rewrite <- Hs.
        apply wrap_small. rewrite <- PTRDIFF_MAX_twice. lia. }
      split; [|split; [|split; [|done]]].
      * exists spare'. rewrite Hsz.
        assert (Hl : length (take (Z.to_nat k) els
                             ++ x :: drop (Z.to_nat k) els)
                     = (length els + 1)%nat).
        { rewrite length_app, length_cons, length_take, length_drop.
          destruct Hv as (_ & Hs & _). lia. }
        apply holds_fresh; rewrite ?Hl; [lia|lia|]. by destruct Hg.
      * apply untouched_realloc.
      * right; right. eexists. split; [done|]. apply fresh_lookup.
    + unfold Insert. rewrite position_assert.
      rewrite bool_decide_eq_true_2 by done.
      rewrite (bind_ok _ _ _ _ _ (assert_true _)).
      destruct (Z.ltb_spec (size_ v) (capacity_ v)) as [|_]; [lia|].
      assert (Hn : (if size_ v =? 0 then 1 else wrap (capacity_ v * 2))
                   = Insert_capacity v).
      { unfold Insert_capacity.
        destruct (Z.ltb_spec (size_ v) (capacity_ v)); [lia|].
        destruct (size_ v =? 0); [done|].
        rewrite wrap_small by (rewrite <- PTRDIFF_MAX_twice; lia). lia. }
      assert (Hn1 : 1 ≤ Insert_capacity v).
      { rewrite <- Hn. destruct (Z.eqb_spec (size_ v) 0); [lia|].
        rewrite wrap_small by (rewrite <- PTRDIFF_MAX_twice; lia). lia. }
      rewrite Hn.
      pose proof (SimpleVector_sized_run (Insert_capacity v) h ltac:(lia))
        as Hnew.
      destruct (SimpleVector_sized (Insert_capacity v) h)
        as [[tmp h1]|e] eqn:E.
      * exfalso. destruct Hnew as [(Hz & _)|(_ & ? & _)]; [lia|done].
      * rewrite (bind_fail _ _ _ _ E). right. by destruct Hnew as (-> & _ & ?).
  - destruct (Insert_in_place k x h v els s0 spare Hv Hk)
      as (h' & -> & Hh' & Hun).
    split; [done|]. split; [done|]. split; [by exists spare|].
    split; [done|]. split; [by left|]. split; [|done].
    unfold set_size, Insert_capacity. fields.
    destruct (Z.ltb_spec (size_ v) (capacity_ v)); [done|].
    destruct Hfull as [_ Hf]. by specialize (Hf ltac:(lia)).
Qed.

Lemma Erase_run k h v els spare :
  holds h v els spare →
  match Erase (begin v +ₚ k) v h with
  | Ok ((it, v'), h') =>
      0 ≤ k < size_ v ∧ it = begin v +ₚ k ∧
      v' = set_size (size_ v - 1) v ∧
      (∃ spare', holds h' v'
          (take (Z.to_nat k) els ++ drop (S (Z.to_nat k)) els) spare') ∧
      untouched (items_ v) h h'
  | Fail f => f = assertion_failed ∧ ¬ (0 ≤ k < size_ v)
  end.
Proof.
  intros Hv.
  pose proof (holds_bounds _ _ _ _ Hv) as (H0 & Hsc & Hmax & Hfull).
  unfold Erase. rewrite position_assert_strict.
  destruct (decide (0 ≤ k < size_ v)) as [Hk|Hk]; last first.
  { rewrite bool_decide_eq_false_2 by done. by erewrite bind_fail by done. }
  rewrite bool_decide_eq_true_2 by done.
  rewrite (bind_ok _ _ _ _ _ (assert_true _)).
  destruct (holds_storage _ _ _ _ Hv ltac:(lia)) as (a & Hi & Ha).
  destruct Hv as (_ & Hs & Hc & _).
  destruct (split_at k els ltac:(lia)) as (Hels & Hpre & Hmid).
  set (pre := take (Z.to_nat k) els) in *.
  destruct (drop (Z.to_nat k) els) as [|e mid] eqn:Hdrop;
    [simpl in Hmid; lia|].
  assert (Hmid' : drop (S (Z.to_nat k)) els = mid).
  { replace (S (Z.to_nat k)) with (Z.to_nat k + 1)%nat by lia.
    by rewrite <- drop_drop, Hdrop. }
  rewrite Hmid'. simpl in Hmid.
  assert (Ha' : h !! a = Some (pre ++ e :: mid ++ spare)).
  { rewrite Ha, Hels at 1. by rewrite <- (assoc_L (++)). }
  rewrite begin_at, end_at, !ptr_add_at, Hi.
  destruct (std_move_left a pre e mid spare h (0 + k + 1) (size_ v) (0 + k)
              Ha') as (junk & Hjunk & Hmv); [lia|lia|lia|].
  rewrite (bind_ok _ _ _ _ _ Hmv). rewrite ret_run.
  rewrite wrap_small by (rewrite <- PTRDIFF_MAX_twice; lia).
  do 3 (split; [done|]). split.
  - exists junk. unfold holds, set_size. fields. rewrite Hi. simpl.
    rewrite lookup_insert_eq, <- (assoc_L (++)), length_app.
    repeat split; [lia|lia|done].
  - by apply untouched_insert.
Qed.

Lemma PopBack_run h v els spare :
  holds h v els spare →
  match PopBack v h with
  | Ok (v', h') =>
      0 < size_ v ∧ h' = h ∧ v' = set_size (size_ v - 1) v ∧
      holds h v' (take (length els - 1) els)
                 (drop (length els - 1) els ++ spare)
  | Fail f => f = assertion_failed ∧ size_ v = 0
  end.
Proof.
  intros Hv.
  pose proof (holds_bounds _ _ _ _ Hv) as (H0 & Hsc & Hmax & Hfull).
  unfold PopBack, IsEmpty. destruct (Z.eqb_spec (size_ v) 0) as [Hz|Hz].
  { by erewrite bind_fail by done. }
  rewrite (bind_ok _ _ _ _ _ (assert_true _)). rewrite ret_run.
  rewrite wrap_small by (rewrite <- PTRDIFF_MAX_twice; lia).
  split; [lia|]. do 2 (split; [done|]).
  destruct Hv as (Hb & Hs & Hc & _). unfold holds, set_size. fields.
  rewrite (assoc_L (++)), take_drop, length_take, length_app, length_drop.
  repeat split; [done|lia|lia|done].
Qed.

Lemma Reserve_run n h v els spare :
  holds h v els spare → 0 ≤ n →
  match Reserve n v h with
  | Ok (v', h') =>
      (∃ spare', holds h' v' els spare') ∧
      untouched (items_ v) h h' ∧ storage_kept_or_new h v v' ∧
      size_ v' = size_ v ∧ capacity_ v' = Z.max (capacity_ v) n
  | Fail f => f = bad_alloc ∧ capacity_ v < n ∧ ¬ grants n
  end.
Proof.
  intros Hv Hn.
  pose proof (holds_bounds _ _ _ _ Hv) as (H0 & Hsc & Hmax & Hfull).
  unfold Reserve. destruct (Z.ltb_spec (capacity_ v) n) as [Hlt|Hge].
  - pose proof (Reallocate_run n h v els spare Hv ltac:(lia) ltac:(lia))
      as Hr.
    destruct (Reallocate n v h) as [[v1 h1]|f].
    + destruct Hr as (Hg & -> & ->). fields.
      split; [|split; [|split; [|split; [done|lia]]]].
      * eexists. eapply holds_reallocated; [exact Hv|lia|by destruct Hg].
      * apply untouched_realloc.
      * right; right. eexists. split; [done|]. apply fresh_lookup.
    + by destruct Hr as (-> & ?).
  - rewrite ret_run. split; [by exists spare|].
    split; [apply untouched_refl|]. split; [by left|]. split; [done|lia].
Qed.

Lemma Clear_holds h v els spare :
  holds h v els spare → holds h (Clear v) [] (els ++ spare).
Proof.
  intros (Hb & Hs & Hc & Hmax). unfold holds, Clear, set_size. fields.
  rewrite length_app. simpl. repeat split; [done|lia|done].
Qed.

Lemma At_run i h v :
  match At i v h with
  | Ok (p, h') => i < size_ v ∧ h' = h ∧ p = begin v +ₚ i
  | Fail f => f = out_of_range ∧ size_ v ≤ i
  end.
Proof.
  unfold At. destruct (Z.leb_spec (size_ v) i); [done|].
  rewrite ret_run. by rewrite index_at, begin_at, ptr_add_at.
Qed.

Lemma subscript_run i h v :
  match subscript i v h with
  | Ok (p, h') => i < size_ v ∧ h' = h ∧ p = begin v +ₚ i
  | Fail f => f = assertion_failed ∧ size_ v ≤ i
  end.
Proof.
  unfold subscript, assert_less, name_in_scope. simpl.
  destruct (Z.ltb_spec i (size_ v)).
  - rewrite (bind_ok _ _ _ _ _ (assert_true _)), ret_run.
    by rewrite index_at, begin_at, ptr_add_at.
  - by erewrite bind_fail by done.
Qed.

(** Reading and writing the element a valid index refers to. *)
Lemma element_access i h v els spare :
  holds h v els spare → 0 ≤ i < size_ v →
  ∃ x, els !! Z.to_nat i = Some x ∧
       load (begin v +ₚ i) h = Ok (x, h) ∧
       ∀ y, ∃ h', store (begin v +ₚ i) y h = Ok ((), h') ∧
                  holds h' v (<[Z.to_nat i := y]> els) spare ∧
                  untouched (items_ v) h h'.
Proof.
  intros Hv Hi.
  pose proof (holds_bounds _ _ _ _ Hv) as (H0 & Hsc & Hmax & Hfull).
  destruct (holds_storage _ _ _ _ Hv ltac:(lia)) as (a & Hit & Ha).
  destruct Hv as (_ & Hs & Hc & _).
  destruct (split_at i els ltac:(lia)) as (Hels & Hpre & Hmid).
  set (pre := take (Z.to_nat i) els) in *.
  destruct (drop (Z.to_nat i) els) as [|x mid] eqn:Hdrop;
    [simpl in Hmid; lia|].
  assert (Ha' : h !! a = Some (pre ++ x :: mid ++ spare)).
  { rewrite Ha, Hels at 1. by rewrite <- (assoc_L (++)). }
  assert (Hp : begin v +ₚ i = Ptr (Some a) (Z.of_nat (length pre))).
  { rewrite begin_at, ptr_add_at, Hit. f_equal. lia. }
  assert (Hnat : Z.to_nat i = length pre) by lia.
  exists x. split; [|split].
  - rewrite Hels, Hnat. by apply list_lookup_middle.
  - rewrite Hp. by eapply load_mid.
  - intros y. exists (<[a := pre ++ y :: mid ++ spare]> h). split; [|split].
    + rewrite Hp. by eapply store_mid.
    + assert (Hins : <[Z.to_nat i := y]> els = pre ++ y :: mid).
      { rewrite Hnat. rewrite Hels at 1.
        replace (length pre) with (length pre + 0)%nat at 1 by lia.
        by rewrite insert_app_r. }
      unfold holds. rewrite Hit. simpl. rewrite lookup_insert_eq.
      rewrite length_insert, Hins, <- (assoc_L (++)). done.
    + by apply untouched_insert.
Qed.

Lemma Resize_run n h v els spare :
  holds h v els spare → 0 ≤ n →
  match Resize n v h with
  | Ok (v', h') =>
      (∃ spare', holds h' v'
          (take (Z.to_nat n) els ++ replicate (Z.to_nat n - length els) dflt)
          spare') ∧
      untouched (items_ v) h h' ∧ storage_kept_or_new h v v' ∧
      size_ v' = n ∧
      (n ≤ size_ v → v' = set_size n v ∧ h' = h) ∧
      (n ≤ capacity_ v → capacity_ v' = capacity_ v) ∧
      (capacity_ v < n → capacity_ v' = Z.max n (2 * capacity_ v))
  | Fail f =>
      f = bad_alloc ∧ capacity_ v < n ∧
      ¬ grants (Z.max n (2 * capacity_ v))
  end.
Proof.
  intros Hv Hn.
  pose proof (holds_bounds _ _ _ _ Hv) as (H0 & Hsc & Hmax & Hfull).
  unfold Resize. destruct (Z.ltb_spec (capacity_ v) n) as [Hlt|Hge].
  - (* the storage is replaced *)
    rewrite wrap_small by (rewrite <- PTRDIFF_MAX_twice; lia).
    replace (capacity_ v * 2) with (2 * capacity_ v) by lia.
    set (nc := Z.max n (2 * capacity_ v)).
    pose proof (Reallocate_run nc h v els spare Hv ltac:(lia) ltac:(lia))
      as Hr.
    destruct (Reallocate nc v h) as [[v1 h1]|f] eqn:E.
    + rewrite (bind_ok _ _ _ _ _ E). destruct Hr as (Hg & -> & ->). fields.
      destruct (Z.ltb_spec (size_ v) n) as [_|]; [|lia].
      rewrite end_at, !ptr_add_at. fields.
      destruct Hv as (Hb & Hs & Hc & _).
      erewrite bind_ok; last first.
      { apply (std_fill_over _ dflt els
                 (replicate (Z.to_nat n - length els) indet)
                 (replicate (Z.to_nat nc - Z.to_nat n) indet)).
        - rewrite lookup_insert_eq. f_equal. f_equal.
          rewrite <- replicate_add. f_equal. lia.
        - done.
        - rewrite length_replicate. lia. }
      rewrite ret_run. unfold set_size. fields.
      rewrite length_replicate, take_ge by lia.
      split; [|split; [|split; [|split; [done|]]]];
        [| | |split; [lia|split; [lia|done]]].
      * eexists. rewrite insert_insert_eq. rewrite (assoc_L (++)).
        apply holds_fresh; rewrite ?length_app, ?length_replicate;
          [lia|lia|by destruct Hg].
      * rewrite insert_insert_eq. apply untouched_realloc.
      * right; right. eexists. split; [done|]. apply fresh_lookup.
    + rewrite (bind_fail _ _ _ _ E). by destruct Hr as (-> & ?).
  - rewrite bind_ok with (r := v) (h' := h) by done.
    destruct (Z.ltb_spec (size_ v) n) as [Hgrow|Hshrink].
    + (* new elements in the spare part *)
      destruct (holds_storage _ _ _ _ Hv ltac:(lia)) as (a & Hi & Ha).
      destruct Hv as (Hb & Hs & Hc & _).
      destruct (split_at (n - size_ v) spare ltac:(lia)) as (Hsp & Hpre & Hmid).
      set (new := take (Z.to_nat (n - size_ v)) spare) in *.
      set (rest := drop (Z.to_nat (n - size_ v)) spare) in *.
      rewrite end_at, !ptr_add_at, Hi.
      erewrite bind_ok; last first.
      { apply (std_fill_over _ dflt els new rest); [|done|lia].
        rewrite Ha. by rewrite Hsp at 1. }
      rewrite ret_run. unfold set_size. fields.
      rewrite take_ge by lia.
      replace (length new) with (Z.to_nat n - length els)%nat by lia.
      split; [|split; [|split; [|split; [done|]]]];
        [| | |split; [lia|split; [done|lia]]].
      * exists rest. unfold holds. fields. rewrite Hi. simpl.
        rewrite lookup_insert_eq, (assoc_L (++)).
        rewrite !length_app, length_replicate.
        rewrite Hsp, length_app in Hc. repeat split; [lia|lia|done].
      * by apply untouched_insert.
      * by left.
    + rewrite bind_ok with (r := ()) (h' := h) by done. rewrite ret_run.
      destruct Hv as (Hb & Hs & Hc & _).
      replace (Z.to_nat n - length els)%nat with 0%nat by lia.
      simpl. rewrite app_nil_r.
      split; [|split; [apply untouched_refl|split; [by left|]]].
      * exists (drop (Z.to_nat n) els ++ spare).
        unfold holds, set_size. fields.
        rewrite (assoc_L (++)), take_drop, length_take, length_app,
          length_drop.
        repeat split; [done|lia|lia|done].
      * unfold set_size; fields. split; [done|]. split; [done|].
        split; [done|lia].
Qed.

Lemma holds_default h : holds h SimpleVector_default [] [].
Proof. repeat split; simpl; done. Qed.

Lemma holds_untouched h h' v els spare :
  holds h v els spare → untouched None h h' → holds h' v els spare.
Proof.
  intros (Hb & Hrest) Hun. split; [|done].
  destruct (items_ v) as [a|]; [|done]. simpl in *.
  rewrite Hun; by eauto.
Qed.

Lemma SimpleVector_copy_run h a els spare :
  holds h a els spare →
  match SimpleVector_copy a h with
  | Ok (b, h') =>
      holds h' b els [] ∧ untouched None h h' ∧
      (items_ b = None ∨ ∃ f, items_ b = Some f ∧ h !! f = None) ∧
      (size_ a ≠ 0 → grants (size_ a))
  | Fail f => f = bad_alloc ∧ 0 < size_ a ∧ ¬ grants (size_ a)
  end.
Proof.
  intros Hv.
  pose proof (holds_bounds _ _ _ _ Hv) as (H0 & Hsc & Hmax & Hfull).
  unfold SimpleVector_copy, Assign_vector.
  pose proof (SimpleVector_sized_run (size_ a) h H0) as Hnew.
  destruct (SimpleVector_sized (size_ a) h) as [[tmp h1]|e] eqn:E.
  - rewrite (bind_ok _ _ _ _ _ E).
    destruct Hnew as [(Hz & -> & ->)|(Hpos & Hg & -> & ->)].
    + rewrite !begin_at, end_at, Hz.
      erewrite bind_ok by apply std_move_const_empty.
      cbn [swap ArrayPtr_swap SimpleVector_default]. fields.
      unfold SimpleVector_destroy. fields.
      erewrite bind_ok by by eapply ArrayPtr_delete_run.
      rewrite ret_run. simpl.
      destruct Hv as (_ & Hs & _).
      assert (els = []) as -> by (destruct els; [done|simpl in *; lia]).
      split; [apply holds_default|]. split; [apply untouched_refl|].
      split; [by left|done].
    + destruct (holds_storage _ _ _ _ Hv ltac:(lia)) as (a0 & Hi & Ha).
      destruct Hv as (_ & Hs & Hc & _).
      assert (Hf : h !! fresh (dom h) = None) by apply fresh_lookup.
      rewrite !begin_at, end_at, Hi. fields.
      erewrite bind_ok; last first.
      { apply (std_move_const_across a0 (fresh (dom h)) [] els spare []
                 (replicate (length els) dflt) []); try done.
        - congruence.
        - by rewrite length_replicate.
        - rewrite lookup_insert_ne by congruence. done.
        - rewrite lookup_insert_eq, app_nil_r. simpl. do 2 f_equal. lia. }
      cbn [swap ArrayPtr_swap SimpleVector_default]. fields.
      unfold SimpleVector_destroy. fields.
      erewrite bind_ok by by eapply ArrayPtr_delete_run.
      rewrite ret_run. simpl. rewrite insert_insert_eq.
      split; [|split; [|split; [|done]]].
      * apply holds_fresh; rewrite ?Nat.add_0_r; [done|done|lia].
      * intros b _ [x Hx]. rewrite lookup_insert_ne; [done|congruence].
      * right. by eexists.
  - rewrite (bind_fail _ _ _ _ E). by destruct Hnew as (-> & ? & ?).
Qed.

Lemma SimpleVector_init_run h (init : list T) :
  match SimpleVector_init init h with
  | Ok (v, h') =>
      holds h' v init [] ∧ untouched None h h' ∧
      (items_ v = None ∨ ∃ f, items_ v = Some f ∧ h !! f = None) ∧
      (init ≠ [] → grants (Z.of_nat (length init)))
  | Fail f =>
      f = bad_alloc ∧ init ≠ [] ∧ ¬ grants (Z.of_nat (length init))
  end.
Proof.
  unfold SimpleVector_init, Assign_init.
  pose proof (SimpleVector_sized_run (Z.of_nat (length init)) h ltac:(lia))
    as Hnew.
  destruct (SimpleVector_sized (Z.of_nat (length init)) h)
    as [[tmp h1]|e] eqn:E.
  - rewrite (bind_ok _ _ _ _ _ E).
    destruct Hnew as [(Hz & -> & ->)|(Hpos & Hg & -> & ->)].
    + destruct init; [|simpl in Hz; lia]. simpl std_move_init.
      rewrite bind_ok with (r := begin SimpleVector_default) (h' := h)
        by done.
      cbn [swap ArrayPtr_swap SimpleVector_default]. fields.
      unfold SimpleVector_destroy. fields.
      erewrite bind_ok by by eapply ArrayPtr_delete_run.
      rewrite ret_run. simpl.
      split; [apply holds_default|]. split; [apply untouched_refl|].
      split; [by left|done].
    + assert (Hf : h !! fresh (dom h) = None) by apply fresh_lookup.
      rewrite !begin_at. fields.
      erewrite bind_ok; last first.
      { apply (std_move_init_over (fresh (dom h)) init []
                 (replicate (length init) dflt) []).
        - by rewrite length_replicate.
        - rewrite lookup_insert_eq, app_nil_r. simpl. do 2 f_equal. lia. }
      cbn [swap ArrayPtr_swap SimpleVector_default]. fields.
      unfold SimpleVector_destroy. fields.
      erewrite bind_ok by by eapply ArrayPtr_delete_run.
      rewrite ret_run. simpl. rewrite insert_insert_eq.
      split; [|split; [|split; [|done]]].
      * apply holds_fresh; rewrite ?Nat.add_0_r; [done|done|].
        by destruct Hg.
      * intros b _ [x Hx]. rewrite lookup_insert_ne; [done|congruence].
      * right. by eexists.
  - rewrite (bind_fail _ _ _ _ E). destruct Hnew as (-> & Hpos & ?).
    split; [done|]. split; [|done]. intros ->. simpl in Hpos. lia.
Qed.

Lemma SimpleVector_reserved_run h (obj : ReserveProxyObj) :
  0 ≤ capacity_to_reserve_ obj →
  match SimpleVector_reserved obj h with
  | Ok (v, h') =>
      (∃ spare, holds h' v [] spare) ∧ size_ v = 0 ∧
      capacity_ v = capacity_to_reserve_ obj ∧ untouched None h h'
  | Fail f => f = bad_alloc ∧ ¬ grants (capacity_to_reserve_ obj)
  end.
Proof.
  intros Hn. unfold SimpleVector_reserved, GetCapacityToReserve.
  pose proof (Reserve_run (capacity_to_reserve_ obj) h SimpleVector_default
                [] [] (holds_default h) Hn) as Hr.
  destruct (Reserve (capacity_to_reserve_ obj) SimpleVector_default h)
    as [[v h']|f].
  - destruct Hr as (Hh & Hun & _ & Hs & Hc). simpl in Hc.
    split; [done|]. split; [done|]. split; [lia|done].
  - by destruct Hr as (-> & _ & ?).
Qed.

(** The move constructor needs nothing of its argument: the new object has
    the three members of the old one, which is left as default-constructed;
    the free store is as before. *)
Lemma SimpleVector_move_run h (other : SimpleVector) :
  SimpleVector_move other h = Ok ((other, SimpleVector_default), h).
Proof.
  destruct other as [items size capacity].
  unfold SimpleVector_move, ArrayPtr_move_assign. simpl.
  by destruct move_assign_by_swap.
Qed.

(** The defaulted move assignment leaves the counters of the right operand
    as they were. *)
Lemma move_assign_run h (this rhs : SimpleVector) l :
  buffer h (items_ this) = Some l →
  ∃ p h',
    move_assign this rhs h
    = Ok ((rhs, {| items_ := p; size_ := size_ rhs;
                   capacity_ := capacity_ rhs |}), h') ∧
    (if move_assign_by_swap then p = items_ this ∧ h' = h
     else p = None ∧ h' = release (items_ this) h).
Proof.
  intros Hb. destruct rhs as [items size capacity].
  unfold move_assign, ArrayPtr_move_assign. fields.
  destruct move_assign_by_swap.
  - by exists (items_ this), h.
  - exists None, (release (items_ this) h). split; [|done].
    assert (E : (ArrayPtr_delete (items_ this)
                 ≫= λ _, mret (items, None : ArrayPtr)) h
                = Ok ((items, None), release (items_ this) h)).
    { by erewrite bind_ok by by eapply ArrayPtr_delete_run. }
    by rewrite (bind_ok _ _ _ _ _ E).
Qed.

Lemma copy_assign_run h (this rhs : SimpleVector) et st er sr :
  holds h this et st → holds h rhs er sr → separate this rhs →
  match copy_assign (TwoObjects this rhs) h with
  | Ok (TwoObjects this' rhs', h') =>
      rhs' = rhs ∧ holds h' this' er [] ∧ holds h' rhs er sr
  | Ok (SameObject _, _) => False
  | Fail f => f = bad_alloc ∧ 0 < size_ rhs ∧ ¬ grants (size_ rhs)
  end.
Proof.
  intros Ht Hr Hsep. unfold copy_assign.
  pose proof (SimpleVector_copy_run h rhs er sr Hr) as Hc.
  destruct (SimpleVector_copy rhs h) as [[tmp h1]|f] eqn:E.
  - rewrite (bind_ok _ _ _ _ _ E).
    destruct Hc as (Htmp & Hun & Hnew & _).
    cbn [swap ArrayPtr_swap]. unfold SimpleVector_destroy. fields.
    assert (Ht1 := holds_untouched _ _ _ _ _ Ht Hun).
    assert (Hr1 := holds_untouched _ _ _ _ _ Hr Hun).
    erewrite bind_ok; last first.
    { eapply ArrayPtr_delete_run. by destruct Ht1 as (Hb & _). }
    rewrite ret_run. split; [done|].
    assert (Hne : ∀ a, items_ this = Some a → items_ tmp ≠ Some a).
    { intros a Ha. destruct Hnew as [->|(f & -> & Hf)]; [done|].
      intros [= ->]. destruct Ht as (Hb & _). rewrite Ha in Hb. simpl in Hb.
      congruence. }
    split.
    + destruct Htmp as (Hb & Hrest). split; [|done]. fields.
      destruct (items_ tmp) as [b|]; [|done]. simpl in *.
      destruct (items_ this) as [a|] eqn:Hit; simpl; [|done].
      rewrite lookup_delete_ne; [done|]. intros ->. by eapply Hne.
    + destruct Hr1 as (Hb & Hrest). split; [|done].
      destruct (items_ rhs) as [b|] eqn:Hir; [|done]. simpl in *.
      destruct (items_ this) as [a|] eqn:Hit; simpl; [|done].
      rewrite lookup_delete_ne; [done|]. intros ->. by eapply Hsep.
  - rewrite (bind_fail _ _ _ _ E). done.
Qed.

End Members.

(** ** The comparison operators *)

Section Comparison.

Context {T : Type} {ET : Element T} {Cmp : Comparable T}.
Implicit Types (h : heap T) (v : SimpleVector) (els spare : list T).

Lemma holds_readable h v els spare :
  holds h v els spare → readable h (begin v) els.
Proof.
  intros Hv i x Hx.
  assert (i < length els)%nat by by eapply lookup_lt_Some.
  destruct (element_access (Z.of_nat i) h v els spare Hv) as (y & Hy & Hl & _).
  { destruct Hv as (_ & -> & _). lia. }
  rewrite Nat2Z.id in Hy. by simplify_eq.
Qed.

Lemma readable_cons h p x l :
  readable h p (x :: l) → load p h = Ok (x, h) ∧ readable h (p +ₚ 1) l.
Proof.
  intros Hr. split.
  - rewrite <- (ptr_add_0 p). by apply (Hr 0%nat).
  - intros i y Hy. rewrite ptr_add_add.
    replace (1 + Z.of_nat i) with (Z.of_nat (S i)) by lia. by apply Hr.
Qed.

Lemma equal_n_run h : ∀ l1 l2 p1 p2,
  readable h p1 l1 → readable h p2 l2 → length l1 = length l2 →
  ∃ r, equal_n (length l1) p1 p2 h = Ok (r, h) ∧
       (r = true ↔ pairwise_equal l1 l2).
Proof.
  unfold pairwise_equal.
  induction l1 as [|x l1 IH]; intros [|y l2] p1 p2 H1 H2 Hlen; try done.
  - exists true. split; [done|]. split; [constructor|done].
  - apply readable_cons in H1 as [Hx H1]. apply readable_cons in H2 as [Hy H2].
    simpl. rewrite (bind_ok _ _ _ _ _ Hx), (bind_ok _ _ _ _ _ Hy).
    destruct (elem_eq x y) eqn:Exy.
    + destruct (IH l2 _ _ H1 H2 ltac:(by injection Hlen)) as (r & -> & Hr).
      exists r. split; [done|]. rewrite Hr. split.
      * by constructor.
      * by inversion 1.
    + exists false. split; [done|]. split; [done|].
      inversion 1; congruence.
Qed.

Lemma lexicographical_compare_n_run h : ∀ l1 l2 p1 p2,
  readable h p1 l1 → readable h p2 l2 →
  ∃ r, lexicographical_compare_n (length l1) (length l2) p1 p2 h
       = Ok (r, h) ∧
       (r = true ↔ lex_less l1 l2).
Proof.
  induction l1 as [|x l1 IH]; intros [|y l2] p1 p2 H1 H2.
  - exists false. split; [done|]. split; [done|inversion 1].
  - exists true. split; [done|]. split; [constructor|done].
  - exists false. split; [done|]. split; [done|inversion 1].
  - apply readable_cons in H1 as [Hx H1]. apply readable_cons in H2 as [Hy H2].
    simpl. rewrite (bind_ok _ _ _ _ _ Hx), (bind_ok _ _ _ _ _ Hy).
    destruct (elem_lt x y) eqn:Exy.
    { exists true. split; [done|]. split; [|done]. by constructor. }
    destruct (elem_lt y x) eqn:Eyx.
    { exists false. split; [done|]. split; [done|]. inversion 1; congruence. }
    destruct (IH l2 _ _ H1 H2) as (r & -> & Hr).
    exists r. split; [done|]. rewrite Hr. split.
    + by constructor.
    + inversion 1; [congruence|done].
Qed.

Lemma operator_eq_run h lhs rhs l1 s1 l2 s2 :
  holds h lhs l1 s1 → holds h rhs l2 s2 →
  ∃ r, operator_eq (TwoObjects lhs rhs) h = Ok (r, h) ∧
       (r = true ↔ size_ lhs = size_ rhs ∧ pairwise_equal l1 l2).
Proof.
  intros Hl Hr. unfold operator_eq, GetSize.
  assert (Hs1 : size_ lhs = Z.of_nat (length l1))
    by by destruct Hl as (_ & ? & _).
  assert (Hs2 : size_ rhs = Z.of_nat (length l2))
    by by destruct Hr as (_ & ? & _).
  destruct (Z.eqb_spec (size_ lhs) (size_ rhs)) as [Heq|Hne].
  - unfold std_equal. rewrite !begin_at, !end_at.
    erewrite bind_ok by (apply distance_run; lia).
    erewrite bind_ok by (apply distance_run; lia).
    rewrite !Z.sub_0_r, Heq, Nat.eqb_refl, Hs2, Nat2Z.id.
    destruct (equal_n_run h l1 l2 (begin lhs) (begin rhs)) as (r & Hrun & Hiff);
      [by eapply holds_readable|by eapply holds_readable|lia|].
    exists r. replace (length l2) with (length l1) by lia.
    rewrite !begin_at in Hrun. split; [done|]. rewrite Hiff. tauto.
  - exists false. split; [done|]. split; [done|]. by intros [? _].
Qed.

Lemma operator_lt_run h lhs rhs l1 s1 l2 s2 :
  holds h lhs l1 s1 → holds h rhs l2 s2 →
  ∃ r, operator_lt lhs rhs h = Ok (r, h) ∧ (r = true ↔ lex_less l1 l2).
Proof.
  intros Hl Hr. unfold operator_lt, std_lexicographical_compare.
  assert (Hs1 : size_ lhs = Z.of_nat (length l1))
    by by destruct Hl as (_ & ? & _).
  assert (Hs2 : size_ rhs = Z.of_nat (length l2))
    by by destruct Hr as (_ & ? & _).
  rewrite !begin_at, !end_at.
  erewrite bind_ok by (apply distance_run; lia).
  erewrite bind_ok by (apply distance_run; lia).
  rewrite !Z.sub_0_r, Hs1, Hs2, !Nat2Z.id.
  destruct (lexicographical_compare_n_run h l1 l2 (begin lhs) (begin rhs))
    as (r & Hrun & Hiff);
    [by eapply holds_readable|by eapply holds_readable|].
  exists r. by rewrite !begin_at in Hrun.
Qed.

(** A strict prefix is less, whatever the element order. *)
Lemma lex_less_strict_prefix (l : list T) y rest : lex_less l (l ++ y :: rest).
Proof.
  induction l as [|x l IH]; simpl; [constructor|].
  destruct (elem_lt x x) eqn:E; by constructor.
Qed.

End Comparison.

(** ** What a mutation can and cannot touch *)

Section Frame.

Context {T : Type} {ET : Element T} {Env : Environment}.
Implicit Types (h : heap T) (v : SimpleVector) (els spare : list T).

Lemma mutate_effect m h v els spare v' h' :
  holds h v els spare → size_t_args m →
  mutate m v h = Ok (v', h') →
  (∃ els' spare', holds h' v' els' spare') ∧
  untouched (items_ v) h h' ∧ storage_kept_or_new h v v'.
Proof.
  intros Hv Hargs Hrun. destruct m; simpl in Hrun, Hargs.
  - pose proof (PushBack_run item h v els spare Hv) as Hr.
    rewrite Hrun in Hr. destruct Hr as ((sp & Hh) & Hun & Hst & _).
    eauto.
  - pose proof (PopBack_run h v els spare Hv) as Hr.
    rewrite Hrun in Hr. destruct Hr as (_ & -> & -> & Hh).
    split; [eauto|]. split; [apply untouched_refl|by left].
  - apply bind_inv in Hrun as ([it v1] & h1 & Hins & Hret).
    injection Hret as <- <-.
    pose proof (Insert_run index value h v els spare Hv) as Hr.
    rewrite Hins in Hr. destruct Hr as (_ & _ & (sp & Hh) & Hun & Hst & _).
    eauto.
  - apply bind_inv in Hrun as ([it v1] & h1 & Hers & Hret).
    injection Hret as <- <-.
    pose proof (Erase_run index h v els spare Hv) as Hr.
    rewrite Hers in Hr. destruct Hr as (_ & _ & -> & (sp & Hh) & Hun).
    split; [eauto|]. split; [done|by left].
  - pose proof (Resize_run new_size h v els spare Hv ltac:(lia)) as Hr.
    rewrite Hrun in Hr. destruct Hr as ((sp & Hh) & Hun & Hst & _).
    eauto.
  - pose proof (Reserve_run new_capacity h v els spare Hv ltac:(lia)) as Hr.
    rewrite Hrun in Hr. destruct Hr as ((sp & Hh) & Hun & Hst & _).
    eauto.
  - injection Hrun as <- <-. split; [|split; [apply untouched_refl|by left]].
    eexists _, _. by apply Clear_holds.
  - apply bind_inv in Hrun as (p & h1 & Hat & Hrun).
    pose proof (At_run index h v) as Hr. rewrite Hat in Hr.
    destruct Hr as (Hlt & -> & ->).
    destruct (element_access index h v els spare Hv ltac:(lia))
      as (x & _ & _ & Hst).
    destruct (Hst value) as (h2 & Hst2 & Hh2 & Hun).
    rewrite (bind_ok _ _ _ _ _ Hst2) in Hrun. injection Hrun as <- <-.
    split; [eauto|]. split; [done|by left].
  - apply bind_inv in Hrun as (p & h1 & Hat & Hrun).
    pose proof (subscript_run index h v) as Hr. rewrite Hat in Hr.
    destruct Hr as (Hlt & -> & ->).
    destruct (element_access index h v els spare Hv ltac:(lia))
      as (x & _ & _ & Hst).
    destruct (Hst value) as (h2 & Hst2 & Hh2 & Hun).
    rewrite (bind_ok _ _ _ _ _ Hst2) in Hrun. injection Hrun as <- <-.
    split; [eauto|]. split; [done|by left].
Qed.

(** A vector that shares no storage with the one an operation works on
    keeps its array, and stays apart from the result. *)
Lemma bystander h h' v v' w ew sw :
  holds h w ew sw → separate v w →
  untouched (items_ v) h h' → storage_kept_or_new h v v' →
  holds h' w ew sw ∧ separate v' w ∧
  buffer h' (items_ w) = buffer h (items_ w).
Proof.
  intros Hw Hsep Hun Hst.
  assert (Hbuf : buffer h' (items_ w) = buffer h (items_ w)).
  { destruct (items_ w) as [x|] eqn:Hiw; [|done]. simpl.
    destruct Hw as (Hb & _). rewrite Hiw in Hb. simpl in Hb.
    apply Hun; [|by eauto]. intros Hv. by eapply Hsep. }
  split; [|split; [|done]].
  - destruct Hw as (Hb & Hrest). split; [|done]. by rewrite Hbuf.
  - intros a Ha Hwa. destruct Hst as [Hst|[Hst|(f & Hst & Hf)]].
    + rewrite Hst in Ha. by eapply Hsep.
    + congruence.
    + assert (a = f) as -> by congruence.
      destruct Hw as (Hb & _). rewrite Hwa in Hb. simpl in Hb. congruence.
Qed.

Lemma mutate_all_bystander ms : ∀ h v els spare w ew sw v' h',
  holds h v els spare → holds h w ew sw → separate v w →
  Forall size_t_args ms →
  mutate_all ms v h = Ok (v', h') →
  holds h' w ew sw ∧ buffer h' (items_ w) = buffer h (items_ w) ∧
  (∃ els' spare', holds h' v' els' spare') ∧ separate v' w.
Proof.
  induction ms as [|m ms IH]; intros h v els spare w ew sw v' h'
    Hv Hw Hsep Hargs Hrun.
  - injection Hrun as <- <-. eauto 10.
  - simpl in Hrun. apply bind_inv in Hrun as (v1 & h1 & Hm & Hrun).
    inversion Hargs as [|? ? Harg Hargs']; subst.
    destruct (mutate_effect m h v els spare v1 h1 Hv Harg Hm)
      as ((e1 & s1 & Hv1) & Hun & Hst).
    destruct (bystander h h1 v v1 w ew sw Hw Hsep Hun Hst)
      as (Hw1 & Hsep1 & Hbuf1).
    destruct (IH h1 v1 e1 s1 w ew sw v' h' Hv1 Hw1 Hsep1 Hargs' Hrun)
      as (Hw' & Hbuf' & Hv' & Hsep').
    split; [done|]. split; [congruence|done].
Qed.

End Frame.

(** * The growth law of PushBack *)

Section Growth.

Context {T : Type} {ET : Element T} {Env : Environment}.
Implicit Types (h : heap T) (v : SimpleVector) (els spare : list T).

Lemma grants_le n m : n ≤ m → grants m → grants n.
Proof. intros Hnm [? ?]. split; lia. Qed.

Lemma doubled_smallest v :
  0 < size_ v → size_ v ≤ capacity_ v → doubled v →
  smallest_power_of_two_from (size_ v) (capacity_ v).
Proof.
  intros Hpos Hle [Hz|(k & Hk & Hc & Hlt)]; [lia|].
  exists k. split; [done|]. split; [done|]. split; [lia|].
  intros j Hj Hnj. destruct (decide (k ≤ j)) as [Hkj|Hkj].
  - by apply Z.pow_le_mono_r.
  - assert (2 ^ j ≤ 2 ^ (k - 1)) by (apply Z.pow_le_mono_r; lia).
    assert (2 ^ k = 2 * 2 ^ (k - 1)).
    { rewrite <- Z.pow_succ_r by lia. f_equal. lia. }
    lia.
Qed.

Lemma PushBack_doubled x h v els spare :
  holds h v els spare → doubled v →
  grants (2 * (size_ v + 1)) →
  ∃ v' h' spare',
    PushBack x v h = Ok (v', h') ∧ holds h' v' (els ++ [x]) spare' ∧
    doubled v' ∧ capacity_ v' = PushBack_capacity v.
Proof.
  intros Hv Hd Hg.
  pose proof (holds_bounds _ _ _ _ Hv) as (H0 & Hsc & Hmax & Hfull).
  pose proof (PushBack_run x h v els spare Hv) as Hr.
  assert (Hcap : PushBack_capacity v ≤ 2 * (size_ v + 1) ∧
                 (PushBack_capacity v = 0 ∨
                  ∃ k, 0 ≤ k ∧ PushBack_capacity v = 2 ^ k ∧
                       2 ^ k < 2 * (size_ v + 1))).
  { unfold PushBack_capacity.
    destruct (Z.eqb_spec (capacity_ v) 0) as [Hz|Hz].
    { split; [lia|]. right. exists 0. simpl. lia. }
    destruct Hd as [?|(k & Hk & Hc & Hlt)]; [done|].
    destruct (Z.eqb_spec (size_ v) (capacity_ v)) as [Heq|Hne].
    - split; [lia|]. right. exists (k + 1).
      rewrite Z.pow_add_r by lia. simpl. lia.
    - split; [lia|]. right. exists k. lia. }
  destruct Hcap as (Hle & Hd').
  destruct (PushBack x v h) as [[v' h']|f].
  - destruct Hr as ((sp & Hh) & _ & _ & Hc & _).
    exists v', h', sp. do 2 (split; [done|]). split; [|done].
    unfold doubled. rewrite Hc.
    destruct Hh as (_ & Hs' & _). destruct Hv as (_ & Hs & _).
    rewrite Hs', length_app. simpl. rewrite Hs in Hd'.
    destruct Hd' as [?|(k & ? & ? & ?)]; [by left|].
    right. exists k. lia.
  - destruct Hr as (_ & _ & Hng). exfalso. apply Hng.
    by eapply grants_le.
Qed.

Lemma PushBack_all_doubled items : ∀ h v els spare,
  holds h v els spare → doubled v →
  grants (2 * (size_ v + Z.of_nat (length items))) →
  ∃ v' h' spare',
    PushBack_all items v h = Ok (v', h') ∧
    holds h' v' (els ++ items) spare' ∧ doubled v'.
Proof.
  induction items as [|x items IH]; intros h v els spare Hv Hd Hg.
  - exists v, h, spare. by rewrite app_nil_r.
  - simpl in Hg.
    destruct (PushBack_doubled x h v els spare Hv Hd) as
      (v1 & h1 & sp1 & Hrun & Hv1 & Hd1 & _).
    { eapply grants_le; [|done]. lia. }
    assert (Hs1 : size_ v1 = size_ v + 1).
    { destruct Hv1 as (_ & -> & _). destruct Hv as (_ & -> & _).
      rewrite length_app. simpl. lia. }
    destruct (IH h1 v1 (els ++ [x]) sp1 Hv1 Hd1) as
      (v' & h' & sp' & Hrun' & Hv' & Hd').
    { eapply grants_le; [|done]. lia. }
    exists v', h', sp'. simpl. rewrite (bind_ok _ _ _ _ _ Hrun).
    split; [done|]. by rewrite <- (assoc_L (++)) in Hv'.
Qed.

(** C1.  From a default-constructed vector, as far as the allocator grants
    twice the number of elements, appending the first [n] of a list of
    values one by one succeeds and leaves a vector of size [n] holding
    these values, whose capacity is the smallest power of two that is at
    least [n]; this covers every step, [n] being any prefix length.  One
    call of [PushBack] on any vector that has room, or whose new capacity
    the allocator grants, succeeds, adds one to the size, and takes the
    capacity 0 to 1, a full vector's capacity to its double, and leaves any
    other capacity as it is. *)
Theorem PushBack_growth_law (items : list T) (n : nat) h :
  (1 ≤ n ≤ length items)%nat →
  grants (2 * Z.of_nat (length items)) →
  (∃ v h',
     PushBack_all (take n items) SimpleVector_default h = Ok (v, h') ∧
     GetSize v = Z.of_nat n ∧ elements h' v = take n items ∧
     smallest_power_of_two_from (Z.of_nat n) (GetCapacity v)) ∧
  (∀ v x, invariant h v →
     GetSize v < GetCapacity v ∨ grants (PushBack_capacity v) →
     ∃ v' h', PushBack x v h = Ok (v', h') ∧
       GetSize v' = GetSize v + 1 ∧
       (GetCapacity v = 0 → GetCapacity v' = 1) ∧
       (GetCapacity v ≠ 0 → GetSize v = GetCapacity v →
        GetCapacity v' = GetCapacity v * 2) ∧
       (GetCapacity v ≠ 0 → GetSize v ≠ GetCapacity v →
        GetCapacity v' = GetCapacity v)).
Proof.
  intros Hn Hg. split.
  - destruct (PushBack_all_doubled (take n items) h SimpleVector_default
                [] [] (holds_default h)) as (v & h' & sp & Hrun & Hv & Hd).
    { by left. }
    { simpl. rewrite length_take. eapply grants_le; [|done]. lia. }
    exists v, h'. split; [done|]. simpl in Hv.
    assert (Hs : size_ v = Z.of_nat n).
    { destruct Hv as (_ & -> & _). rewrite length_take. lia. }
    split; [done|]. split; [by eapply holds_elements|].
    unfold GetCapacity. rewrite <- Hs.
    apply doubled_smallest; [lia| |done].
    by destruct (holds_bounds _ _ _ _ Hv) as (_ & ? & _).
  - intros v x Hinv Hroom.
    destruct (invariant_holds _ _ Hinv) as (sp & Hv).
    pose proof (holds_bounds _ _ _ _ Hv) as (_ & _ & _ & Hfull).
    pose proof (PushBack_run x h v _ sp Hv) as Hr.
    destruct (PushBack x v h) as [[v' h']|f]; last first.
    { exfalso. destruct Hr as (_ & Hsp & Hng).
      destruct Hroom as [Hlt|?]; [|done].
      unfold GetSize, GetCapacity in Hlt. apply Hfull in Hsp. lia. }
    exists v', h'. split; [done|].
    destruct Hr as ((sp' & Hv') & _ & _ & Hc & _).
    unfold GetSize, GetCapacity, PushBack_capacity in *. split.
    + destruct Hv' as (_ & -> & _). destruct Hv as (_ & -> & _).
      rewrite length_app. simpl. lia.
    + rewrite Hc. split; [|split].
      * intros ->. done.
      * intros Hz Hfull'. destruct (Z.eqb_spec (capacity_ v) 0); [done|].
        destruct (Z.eqb_spec (size_ v) (capacity_ v)); [lia|done].
      * intros Hz Hfull'. destruct (Z.eqb_spec (capacity_ v) 0); [done|].
        by destruct (Z.eqb_spec (size_ v) (capacity_ v)).
Qed.

End Growth.

(** * Element access, shrinking and removal *)

Section Access.

Context {T : Type} {ET : Element T} {Env : Environment}.
Implicit Types (h : heap T) (v : SimpleVector) (els spare : list T).

(** C3.  For a vector that satisfies the class invariant and an index [i]
    of type [size_t], the checked access [At], in its mutable and in its
    const form, throws [out_of_range] exactly when [i] is at least the
    size.  When [i] is less than the size it returns, with the free store
    as it was, the address of the element at position [i]: reading through
    it gives that element, and assigning through it changes that element
    of the vector and nothing else. *)
Theorem At_checked_access h v (i : Z) :
  invariant h v → 0 ≤ i →
  (At i v h = Fail out_of_range ↔ GetSize v ≤ i) ∧
  (At_const i v h = Fail out_of_range ↔ GetSize v ≤ i) ∧
  (i < GetSize v →
   ∃ x, At i v h = Ok (begin v +ₚ i, h) ∧
        At_const i v h = Ok (begin v +ₚ i, h) ∧
        elements h v !! Z.to_nat i = Some x ∧
        load (begin v +ₚ i) h = Ok (x, h) ∧
        ∀ y, ∃ h', store (begin v +ₚ i) y h = Ok ((), h') ∧
                   invariant h' v ∧
                   elements h' v = <[Z.to_nat i := y]> (elements h v)).
Proof.
  intros Hinv Hi. unfold GetSize.
  pose proof (At_run i h v) as Hr.
  change (At_const i v h) with (At i v h).
  assert (Hiff : At i v h = Fail out_of_range ↔ size_ v ≤ i).
  { destruct (At i v h) as [[p h']|f].
    - destruct Hr as (Hlt & _). split; [done|lia].
    - destruct Hr as (-> & Hge). done. }
  split; [done|]. split; [done|]. intros Hlt.
  destruct (invariant_holds _ _ Hinv) as (sp & Hv).
  destruct (element_access i h v _ sp Hv ltac:(lia)) as (x & Hx & Hl & Hst).
  exists x. destruct (At i v h) as [[p h']|f].
  - destruct Hr as (_ & -> & ->). do 4 (split; [done|]).
    intros y. destruct (Hst y) as (h' & Hs & Hh' & _).
    exists h'. split; [done|]. split; [by eapply holds_invariant|].
    by eapply holds_elements.
  - destruct Hr as (_ & Hge). lia.
Qed.

(** C7.  For a vector that satisfies the class invariant and a count [k]
    not above its size, [Resize(k)] succeeds without touching the free
    store: the size becomes [k], the capacity and the storage stay the
    same, and the elements are the first [k] of the elements before. *)
Theorem Resize_to_smaller h v (k : Z) :
  invariant h v → 0 ≤ k ≤ GetSize v →
  ∃ v', Resize k v h = Ok (v', h) ∧
        GetSize v' = k ∧ GetCapacity v' = GetCapacity v ∧
        items_ v' = items_ v ∧
        elements h v' = take (Z.to_nat k) (elements h v) ∧
        ∀ i : nat, Z.of_nat i < k → elements h v' !! i = elements h v !! i.
Proof.
  intros Hinv Hk. unfold GetSize, GetCapacity in *.
  destruct (invariant_holds _ _ Hinv) as (sp & Hv).
  pose proof (Resize_run k h v _ sp Hv ltac:(lia)) as Hr.
  pose proof (holds_bounds _ _ _ _ Hv) as (H0 & Hsc & _).
  destruct (Resize k v h) as [[v' h']|f].
  - destruct Hr as (_ & _ & _ & _ & Hshrink & _).
    destruct (Hshrink ltac:(lia)) as (-> & ->).
    exists (set_size k v). split; [done|]. do 3 (split; [done|]).
    assert (Hels : elements h (set_size k v)
                   = take (Z.to_nat k) (elements h v)).
    { unfold elements, set_size. fields.
      destruct (buffer h (items_ v)); [|by rewrite take_nil].
      rewrite take_take. f_equal. lia. }
    split; [done|]. intros i Hik. rewrite Hels.
    apply lookup_take_lt. lia.
  - destruct Hr as (_ & Hlt & _). lia.
Qed.

(** C10.  On a vector that satisfies the class invariant, [PopBack] of a
    non-empty vector and [Erase] at a position from [begin] up to but not
    including [end] succeed and leave the capacity and the storage as they
    are; the size goes down by one.  Every element before the last one
    (for [PopBack]) or before the erased position (for [Erase]) stays where
    it is, and after [Erase], which returns the position it was given, each
    element that was behind the erased position is one place further to
    the front. *)
Theorem PopBack_Erase_frame h v :
  invariant h v →
  (0 < GetSize v →
   ∃ v', PopBack v h = Ok (v', h) ∧
         GetCapacity v' = GetCapacity v ∧ items_ v' = items_ v ∧
         GetSize v' = GetSize v - 1 ∧
         ∀ i : nat, Z.of_nat i < GetSize v - 1 →
                    elements h v' !! i = elements h v !! i) ∧
  (∀ k : Z, 0 ≤ k < GetSize v →
   ∃ v' h', Erase (begin v +ₚ k) v h = Ok ((begin v +ₚ k, v'), h') ∧
            invariant h' v' ∧
            GetCapacity v' = GetCapacity v ∧ items_ v' = items_ v ∧
            GetSize v' = GetSize v - 1 ∧
            (∀ i : nat, Z.of_nat i < k →
                        elements h' v' !! i = elements h v !! i) ∧
            (∀ i : nat, k < Z.of_nat i < GetSize v →
                        elements h' v' !! (i - 1)%nat = elements h v !! i)).
Proof.
  intros Hinv. unfold GetSize, GetCapacity.
  destruct (invariant_holds _ _ Hinv) as (sp & Hv).
  pose proof (holds_bounds _ _ _ _ Hv) as (H0 & Hsc & _).
  assert (Hlen : size_ v = Z.of_nat (length (elements h v)))
    by by destruct Hv as (_ & ? & _).
  split.
  - intros Hpos. pose proof (PopBack_run h v _ sp Hv) as Hr.
    destruct (PopBack v h) as [[v' h']|f]; [|destruct Hr; lia].
    destruct Hr as (_ & -> & -> & Hv'). exists (set_size (size_ v - 1) v).
    split; [done|]. do 3 (split; [done|]). intros i Hi.
    rewrite (holds_elements _ _ _ _ Hv'). apply lookup_take_lt. lia.
  - intros k Hk. pose proof (Erase_run k h v _ sp Hv) as Hr.
    destruct (Erase (begin v +ₚ k) v h) as [[[it v'] h']|f];
      [|destruct Hr; lia].
    destruct Hr as (_ & -> & -> & (sp' & Hv') & _).
    exists (set_size (size_ v - 1) v), h'. split; [done|].
    split; [by eapply holds_invariant|]. do 3 (split; [done|]).
    rewrite (holds_elements _ _ _ _ Hv'). split.
    + intros i Hi. rewrite lookup_app_l by (rewrite length_take; lia).
      apply lookup_take_lt. lia.
    + intros i Hi. rewrite lookup_app_r by (rewrite length_take; lia).
      rewrite length_take, lookup_drop. f_equal. lia.
Qed.

End Access.

(** * Insertion undone by removal; copies *)

Section Copies.

Context {T : Type} {ET : Element T} {Env : Environment}.
Implicit Types (h : heap T) (v : SimpleVector) (els spare : list T).

Lemma operator_eq_same_answer {Cmp : Comparable T} h h' v v' o els sv sv'
    eo so :
  holds h v els sv → holds h' v' els sv' →
  holds h o eo so → holds h' o eo so →
  ∃ r r', operator_eq (TwoObjects v o) h = Ok (r, h) ∧
          operator_eq (TwoObjects v' o) h' = Ok (r, h') ∧
          operator_eq (TwoObjects o v) h = Ok (r', h) ∧
          operator_eq (TwoObjects o v') h' = Ok (r', h').
Proof.
  intros Hv Hv' Ho Ho'.
  assert (Hs : size_ v' = size_ v).
  { destruct Hv as (_ & -> & _). by destruct Hv' as (_ & -> & _). }
  destruct (operator_eq_run h v o _ _ _ _ Hv Ho) as (r1 & E1 & I1).
  destruct (operator_eq_run h' v' o _ _ _ _ Hv' Ho') as (r2 & E2 & I2).
  destruct (operator_eq_run h o v _ _ _ _ Ho Hv) as (r3 & E3 & I3).
  destruct (operator_eq_run h' o v' _ _ _ _ Ho' Hv') as (r4 & E4 & I4).
  rewrite Hs in I2, I4.
  assert (r2 = r1) as ->
    by (destruct r1, r2; tauto || (exfalso; intuition congruence)).
  assert (r4 = r3) as ->
    by (destruct r3, r4; tauto || (exfalso; intuition congruence)).
  by exists r1, r3.
Qed.

(** C5.  For a vector that satisfies the class invariant, a position
    [begin + k] with [k] from 0 up to and including the size, and a value:
    when the vector has room, or the allocator grants the larger storage
    that the insertion asks for, [Insert] succeeds, [Erase] at the iterator
    it returned succeeds, and the vector that results has the size and the
    elements of the original one.  Any other vector, such as a copy of the
    original taken before, gets from [operator==] against the result the
    answer it got against the original, on either side.  So the result
    compares equal to the original: [operator==] answers true for the
    result against every vector whose elements are equal pairwise to those
    of the original, and so against every vector that holds the elements
    of the original, such as a copy of it taken before the two calls, when
    each element is equal to itself under [operator==] of the element
    type. *)
Theorem Insert_then_Erase h v (k : Z) (x : T) :
  invariant h v → 0 ≤ k ≤ GetSize v →
  GetSize v < GetCapacity v ∨ grants (Insert_capacity v) →
  ∃ it v1 h1 v2 h2,
    Insert (begin v +ₚ k) x v h = Ok ((it, v1), h1) ∧
    Erase it v1 h1 = Ok ((it, v2), h2) ∧
    invariant h2 v2 ∧ GetSize v2 = GetSize v ∧
    elements h2 v2 = elements h v ∧
    ∀ (Cmp : Comparable T) (o : SimpleVector),
      invariant h o → separate v o →
      (∃ r r', operator_eq (TwoObjects v o) h = Ok (r, h) ∧
               operator_eq (TwoObjects v2 o) h2 = Ok (r, h2) ∧
               operator_eq (TwoObjects o v) h = Ok (r', h) ∧
               operator_eq (TwoObjects o v2) h2 = Ok (r', h2)) ∧
      (pairwise_equal (elements h v) (elements h o) →
       operator_eq (TwoObjects v2 o) h2 = Ok (true, h2)) ∧
      (pairwise_equal (elements h o) (elements h v) →
       operator_eq (TwoObjects o v2) h2 = Ok (true, h2)) ∧
      (elements h o = elements h v →
       Forall (λ y, elem_eq y y = true) (elements h v) →
       operator_eq (TwoObjects v2 o) h2 = Ok (true, h2) ∧
       operator_eq (TwoObjects o v2) h2 = Ok (true, h2)).
Proof.
  intros Hinv Hk Hroom. unfold GetSize, GetCapacity in *.
  destruct (invariant_holds _ _ Hinv) as (sp & Hv).
  set (els := elements h v) in *.
  pose proof (holds_bounds _ _ _ _ Hv) as (H0 & Hsc & _ & Hfull).
  assert (Hlen : size_ v = Z.of_nat (length els))
    by by destruct Hv as (_ & ? & _).
  pose proof (Insert_run k x h v els sp Hv) as Hi.
  destruct (Insert (begin v +ₚ k) x v h) as [[[it v1] h1]|f]; last first.
  { exfalso. destruct Hi as [(_ & ?)|(_ & _ & Hsp & Hng)]; [done|].
    destruct Hroom as [Hlt|?]; [|done]. apply Hfull in Hsp. lia. }
  destruct Hi as (_ & -> & (sp1 & Hv1) & Hun1 & Hst1 & _).
  pose proof (Erase_run k h1 v1 _ sp1 Hv1) as He.
  assert (Hs1 : size_ v1 = size_ v + 1).
  { destruct Hv1 as (_ & -> & _).
    rewrite length_app, length_cons, length_take, length_drop. lia. }
  destruct (Erase (begin v1 +ₚ k) v1 h1) as [[[it2 v2] h2]|f] eqn:EE;
    last first.
  { destruct He as (_ & ?). lia. }
  destruct He as (_ & -> & -> & (sp2 & Hv2) & Hun2).
  assert (Hback : take (Z.to_nat k) (take (Z.to_nat k) els
                                     ++ x :: drop (Z.to_nat k) els)
                  ++ drop (S (Z.to_nat k)) (take (Z.to_nat k) els
                                     ++ x :: drop (Z.to_nat k) els) = els).
  { assert (Hpre : length (take (Z.to_nat k) els) = Z.to_nat k)
      by (rewrite length_take; lia).
    rewrite take_app_length' by done.
    rewrite (cons_middle x), (assoc_L (++)).
    rewrite drop_app_length' by (rewrite length_app; simpl; lia).
    apply take_drop. }
  rewrite Hback in Hv2.
  exists (begin v1 +ₚ k), v1, h1, (set_size (size_ v1 - 1) v1), h2.
  do 2 (split; [done|]). split; [by eapply holds_invariant|].
  split; [unfold set_size; fields; lia|].
  split; [by eapply holds_elements|].
  intros Cmp o Ho Hsep. destruct (invariant_holds _ _ Ho) as (so & Hho).
  destruct (bystander h h1 v v1 o _ so Hho Hsep Hun1 Hst1)
    as (Hho1 & Hsep1 & _).
  destruct (bystander h1 h2 v1 (set_size (size_ v1 - 1) v1) o _ so
              Hho1 Hsep1 Hun2 ltac:(by left)) as (Hho2 & _ & _).
  split.
  { destruct (operator_eq_same_answer h h2 v (set_size (size_ v1 - 1) v1) o
                els sp sp2 _ so Hv Hv2 Hho Hho2)
      as (r & r' & E1 & E2 & E3 & E4).
    by exists r, r'. }
  assert (Hleft : pairwise_equal els (elements h o) →
                  operator_eq (TwoObjects (set_size (size_ v1 - 1) v1) o) h2
                  = Ok (true, h2)).
  { intros Hpw.
    destruct (operator_eq_run h2 _ o _ _ _ _ Hv2 Hho2) as (r & -> & Hiff).
    do 2 f_equal. apply Hiff. split; [|done].
    destruct Hv2 as (_ & -> & _), Hho2 as (_ & -> & _).
    by rewrite (Forall2_length _ _ _ Hpw). }
  assert (Hright : pairwise_equal (elements h o) els →
                   operator_eq (TwoObjects o (set_size (size_ v1 - 1) v1)) h2
                   = Ok (true, h2)).
  { intros Hpw.
    destruct (operator_eq_run h2 o _ _ _ _ _ Hho2 Hv2) as (r & -> & Hiff).
    do 2 f_equal. apply Hiff. split; [|done].
    destruct Hv2 as (_ & -> & _), Hho2 as (_ & -> & _).
    by rewrite (Forall2_length _ _ _ Hpw). }
  split; [done|]. split; [done|].
  intros Hsame Hrefl.
  assert (Hpw : pairwise_equal els els).
  { unfold pairwise_equal. clear -Hrefl. induction Hrefl; by constructor. }
  split; [apply Hleft|apply Hright]; by rewrite Hsame.
Qed.

(** C8.  For a vector [a] that satisfies the class invariant and whose
    size the allocator grants (or which is empty): the copy constructor
    succeeds and gives a vector [b] whose size and capacity are both the
    size of [a], whatever capacity [a] has, and whose elements are those of
    [a] in order; [a], its storage and its elements are as before, and
    [a == b] holds when the elements of [a] are equal to themselves under
    [operator==] of the element type.  After any sequence of mutating
    calls on [b] that runs to its end, the storage and the elements of [a]
    are still what they were. *)
Theorem copy_is_deep h (a : SimpleVector) :
  invariant h a →
  GetSize a = 0 ∨ grants (GetSize a) →
  ∃ b h',
    SimpleVector_copy a h = Ok (b, h') ∧
    GetSize b = GetSize a ∧ GetCapacity b = GetSize a ∧
    elements h' b = elements h a ∧
    invariant h' b ∧ invariant h' a ∧ separate b a ∧
    buffer h' (items_ a) = buffer h (items_ a) ∧
    elements h' a = elements h a ∧
    (∀ Cmp : Comparable T,
       Forall (λ x, elem_eq x x = true) (elements h a) →
       operator_eq (TwoObjects a b) h' = Ok (true, h')) ∧
    ∀ (ms : list (mutation T)) b' h'',
      Forall size_t_args ms →
      mutate_all ms b h' = Ok (b', h'') →
      invariant h'' a ∧
      buffer h'' (items_ a) = buffer h (items_ a) ∧
      elements h'' a = elements h a.
Proof.
  intros Hinv Hg. unfold GetSize, GetCapacity in *.
  destruct (invariant_holds _ _ Hinv) as (sp & Ha).
  set (els := elements h a) in *.
  pose proof (SimpleVector_copy_run h a els sp Ha) as Hr.
  destruct (SimpleVector_copy a h) as [[b h']|f]; last first.
  { exfalso. destruct Hr as (_ & Hpos & Hng).
    destruct Hg as [Hz|?]; [lia|done]. }
  destruct Hr as (Hb & Hun & Hnew & _).
  assert (Ha' := holds_untouched _ _ _ _ _ Ha Hun).
  assert (Hbuf : buffer h' (items_ a) = buffer h (items_ a)).
  { destruct Ha as (E & _), Ha' as (E' & _). congruence. }
  assert (Hsep : separate b a).
  { intros x Hx Hax. destruct Hnew as [?|(f & Hf & Hnone)]; [congruence|].
    assert (x = f) as -> by congruence.
    destruct Ha as (E & _). rewrite Hax in E. simpl in E. congruence. }
  exists b, h'. split; [done|].
  assert (Hsb : size_ b = size_ a).
  { destruct Hb as (_ & -> & _). by destruct Ha as (_ & -> & _). }
  split; [done|]. split.
  { destruct Hb as (_ & Hs & Hc & _). rewrite Nat.add_0_r in Hc. lia. }
  split; [by eapply holds_elements|].
  split; [by eapply holds_invariant|]. split; [by eapply holds_invariant|].
  do 2 (split; [done|]). split; [by eapply holds_elements|]. split.
  - intros Cmp Hrefl.
    destruct (operator_eq_run h' a b _ _ _ _ Ha' Hb) as (r & -> & Hiff).
    do 2 f_equal. apply Hiff. split; [done|].
    unfold pairwise_equal. clear -Hrefl.
    induction Hrefl; by constructor.
  - intros ms b' h'' Hargs Hrun.
    destruct (mutate_all_bystander ms h' b els [] a els sp b' h''
                Hb Ha' Hsep Hargs Hrun) as (Ha'' & Hbuf'' & _).
    split; [by eapply holds_invariant|]. split; [congruence|].
    by eapply holds_elements.
Qed.

End Copies.

(** * Further properties of the member functions *)

(** ** What a call can reach in the free store *)

Section Footprint.

Context {T : Type} {ET : Element T} {Env : Environment}.
Implicit Types (h : heap T) (v : SimpleVector) (A : list ArrayPtr).
Implicit Types (x : T) (p q d : ptr) (init : list T).

Lemma confined_ret {X} A (r : X) : confined A (mret r : M T X).
Proof. by intros h r' h' [= _ <-]. Qed.

Lemma confined_raise {X} A f : confined A (raise f : M T X).
Proof. by intros h r h'. Qed.

Lemma confined_assert A b : confined A (assert (T:=T) b).
Proof. destruct b; [apply confined_ret|apply confined_raise]. Qed.

Lemma confined_bind {X Y} A (m : M T X) (k : X → M T Y) :
  confined A m → (∀ r, confined A (k r)) → confined A (m ≫= k).
Proof.
  intros Hm Hk h r h' Hrun b Hb.
  apply bind_inv in Hrun as (r1 & h1 & Hx & Hr).
  rewrite (Hk r1 _ _ _ Hr b Hb). by eapply Hm.
Qed.

Lemma confined_load A p : confined A (load (T:=T) p).
Proof.
  intros h r h'. unfold load.
  destruct (base p) as [a|]; [|done]. destruct (h !! a) as [l|]; [|done].
  destruct (0 <=? off p); [|done].
  destruct (l !! Z.to_nat (off p)); [|done]. by intros [= _ <-].
Qed.

Lemma confined_store A p x : base p ∈ A → confined A (store p x).
Proof.
  intros Hp h r h'. unfold store.
  destruct (base p) as [a|]; [|done]. destruct (h !! a) as [l|]; [|done].
  destruct ((0 <=? off p) && (off p <? Z.of_nat (length l))); [|done].
  intros [= _ <-] b Hb. rewrite lookup_insert_ne; [done|].
  intros ->. done.
Qed.

Lemma confined_distance A p q : confined A (distance (T:=T) p q).
Proof.
  unfold distance.
  destruct (bool_decide (base p = base q) && (off p <=? off q));
    [apply confined_ret|apply confined_raise].
Qed.

Lemma confined_move_n A n : ∀ p d,
  base p ∈ A → base d ∈ A → confined A (move_n n p d).
Proof.
  induction n as [|n IH]; intros p d Hp Hd; simpl; [apply confined_ret|].
  apply confined_bind; [apply confined_load|intros x].
  apply confined_bind; [by apply confined_store|intros _].
  apply confined_bind; [by apply confined_store|intros _].
  by apply IH.
Qed.

Lemma confined_move_backward_n A n : ∀ p d,
  base p ∈ A → base d ∈ A → confined A (move_backward_n n p d).
Proof.
  induction n as [|n IH]; intros p d Hp Hd; simpl; [apply confined_ret|].
  apply confined_bind; [apply confined_load|intros x].
  apply confined_bind; [by apply confined_store|intros _].
  apply confined_bind; [by apply confined_store|intros _].
  by apply IH.
Qed.

Lemma confined_copy_n A n : ∀ p d,
  base d ∈ A → confined A (copy_n (T:=T) n p d).
Proof.
  induction n as [|n IH]; intros p d Hd; simpl; [apply confined_ret|].
  apply confined_bind; [apply confined_load|intros x].
  apply confined_bind; [by apply confined_store|intros _].
  by apply IH.
Qed.

Lemma confined_fill_n A n x : ∀ p, base p ∈ A → confined A (fill_n n p x).
Proof.
  induction n as [|n IH]; intros p Hp; simpl; [apply confined_ret|].
  apply confined_bind; [by apply confined_store|intros _]. by apply IH.
Qed.

Lemma confined_std_move_init A init : ∀ d,
  base d ∈ A → confined A (std_move_init init d).
Proof.
  induction init as [|x init IH]; intros d Hd; simpl; [apply confined_ret|].
  apply confined_bind; [by apply confined_store|intros _]. by apply IH.
Qed.

Lemma confined_std_move A p q d :
  base p ∈ A → base d ∈ A → confined A (std_move p q d).
Proof.
  intros Hp Hd. apply confined_bind; [apply confined_distance|intros n].
  by apply confined_move_n.
Qed.

Lemma confined_std_move_backward A p q d :
  base q ∈ A → base d ∈ A → confined A (std_move_backward p q d).
Proof.
  intros Hq Hd. apply confined_bind; [apply confined_distance|intros n].
  by apply confined_move_backward_n.
Qed.

Lemma confined_std_move_const A p q d :
  base d ∈ A → confined A (std_move_const (T:=T) p q d).
Proof.
  intros Hd. apply confined_bind; [apply confined_distance|intros n].
  by apply confined_copy_n.
Qed.

Lemma confined_std_fill A p q x : base p ∈ A → confined A (std_fill p q x).
Proof.
  intros Hp. apply confined_bind; [apply confined_distance|intros n].
  by apply confined_fill_n.
Qed.

(** A call confined to the storage of a vector leaves the free store,
    with this storage taken out, as it was. *)
Lemma confined_release {X} (p : ArrayPtr) (m : M T X) h r h' :
  confined [p] m → m h = Ok (r, h') → release p h' = release p h.
Proof.
  intros Hc Hrun. apply map_eq. intros b. destruct p as [a|]; simpl.
  - destruct (decide (a = b)) as [->|Hne].
    + by rewrite !lookup_delete_eq.
    + rewrite !lookup_delete_ne by done. eapply Hc; [done|].
      rewrite list_elem_of_singleton. congruence.
  - eapply Hc; [done|]. by rewrite list_elem_of_singleton.
Qed.

End Footprint.

(** ** Storage is neither leaked nor released twice *)

Section Storage.

Context {T : Type} {ET : Element T} {Env : Environment}.
Implicit Types (h : heap T) (v : SimpleVector) (els spare : list T).
Implicit Types (x : T) (p : ArrayPtr).

Lemma release_fresh p h (f : addr) (l : list T) :
  h !! f = None →
  release (Some f) (<[f := l]> (release p h)) = release p h.
Proof.
  intros Hf. simpl. apply map_eq. intros b.
  destruct (decide (f = b)) as [<-|Hne].
  - rewrite lookup_delete_eq. destruct p as [a|]; simpl; [|done].
    destruct (decide (a = f)) as [->|?];
      [by rewrite lookup_delete_eq|by rewrite lookup_delete_ne].
  - by rewrite lookup_delete_ne, lookup_insert_ne.
Qed.

Lemma Reallocate_footprint n h v els spare v1 h1 :
  holds h v els spare → 0 < n → size_ v ≤ n →
  Reallocate n v h = Ok (v1, h1) →
  release (items_ v1) h1 = release (items_ v) h ∧
  size_ v1 = size_ v ∧ capacity_ v1 = n ∧
  ∃ spare1, holds h1 v1 els spare1.
Proof.
  intros Hv Hn Hsn Hrun.
  pose proof (Reallocate_run n h v els spare Hv Hn Hsn) as Hr.
  rewrite Hrun in Hr. destruct Hr as ([_ Hg] & -> & ->).
  split; [apply release_fresh, fresh_lookup|]. do 2 (split; [done|]).
  eexists. by eapply holds_reallocated.
Qed.

Lemma store_footprint h v els spare (i : Z) x u h' :
  holds h v els spare →
  store (Ptr (items_ v) i) x h = Ok (u, h') →
  release (items_ v) h' = release (items_ v) h.
Proof.
  intros Hv Hrun. eapply confined_release; [|done].
  apply confined_store. simpl. by rewrite list_elem_of_singleton.
Qed.

Lemma PushBack_footprint x h v els spare v' h' :
  holds h v els spare → PushBack x v h = Ok (v', h') →
  release (items_ v') h' = release (items_ v) h ∧
  (size_ v < capacity_ v →
   items_ v' = items_ v ∧ capacity_ v' = capacity_ v).
Proof.
  intros Hv Hrun.
  pose proof (holds_bounds _ _ _ _ Hv) as (H0 & Hsc & Hmax & Hfull).
  unfold PushBack in Hrun.
  apply bind_inv in Hrun as (v1 & h1 & H1 & Hrun).
  apply bind_inv in Hrun as (v2 & h2 & H2 & Hrun).
  apply bind_inv in Hrun as (u & h3 & H3 & Hrun).
  injection Hrun as <- <-.
  assert (S1 : release (items_ v1) h1 = release (items_ v) h ∧
               size_ v1 = size_ v ∧
               (size_ v < capacity_ v →
                items_ v1 = items_ v ∧ capacity_ v1 = capacity_ v) ∧
               0 < capacity_ v1 ∧
               ∃ sp1, holds h1 v1 els sp1).
  { destruct (Z.eqb_spec (capacity_ v) 0) as [Hz|Hz].
    - destruct (Reallocate_footprint 1 h v els spare v1 h1 Hv) as
        (? & ? & ? & ?); [lia|lia|done|].
      split; [done|]. split; [done|]. split; [lia|]. split; [lia|done].
    - injection H1 as <- <-. split; [done|]. split; [done|].
      split; [done|]. split; [lia|by exists spare]. }
  destruct S1 as (R1 & Hs1 & Hk1 & Hpos1 & sp1 & Hv1).
  pose proof (holds_bounds _ _ _ _ Hv1) as (_ & Hsc1 & Hmax1 & _).
  assert (S2 : release (items_ v2) h2 = release (items_ v1) h1 ∧
               (size_ v1 < capacity_ v1 →
                items_ v2 = items_ v1 ∧ capacity_ v2 = capacity_ v1) ∧
               ∃ sp2, holds h2 v2 els sp2).
  { destruct (Z.eqb_spec (size_ v1) (capacity_ v1)) as [Hz|Hz].
    - rewrite wrap_small in H2 by (rewrite <- PTRDIFF_MAX_twice; lia).
      destruct (Reallocate_footprint (capacity_ v1 * 2) h1 v1 els sp1 v2 h2
                  Hv1) as (? & ? & ? & ?); [lia|lia|done|].
      split; [done|]. split; [lia|done].
    - injection H2 as <- <-. split; [done|]. split; [done|by exists sp1]. }
  destruct S2 as (R2 & Hk2 & sp2 & Hv2).
  rewrite index_at in H3.
  pose proof (store_footprint h2 v2 els sp2 _ x u h3 Hv2 H3) as R3.
  unfold set_size. fields. split; [congruence|].
  intros Hroom. destruct (Hk1 Hroom) as (E1 & E2).
  destruct Hk2 as (E3 & E4); [lia|]. split; congruence.
Qed.

Lemma confined_Erase (k : Z) v :
  confined [items_ v] (Erase (begin v +ₚ k) v).
Proof.
  unfold Erase. apply confined_bind; [apply confined_assert|intros _].
  apply confined_bind; [|intros; apply confined_ret].
  apply confined_std_move; simpl; by rewrite list_elem_of_singleton.
Qed.

Lemma confined_Insert_in_place (k : Z) x v :
  size_ v < capacity_ v →
  confined [items_ v] (Insert (begin v +ₚ k) x v).
Proof.
  intros Hroom. unfold Insert.
  destruct (Z.ltb_spec (size_ v) (capacity_ v)); [|lia].
  apply confined_bind; [apply confined_assert|intros _].
  apply confined_bind;
    [apply confined_std_move_backward; simpl;
       by rewrite list_elem_of_singleton|intros _].
  apply confined_bind; [|intros; apply confined_ret].
  apply confined_store. simpl. by rewrite list_elem_of_singleton.
Qed.

Lemma Insert_footprint (k : Z) x h v els spare it v' h' :
  holds h v els spare → Insert (begin v +ₚ k) x v h = Ok ((it, v'), h') →
  release (items_ v') h' = release (items_ v) h ∧
  (size_ v < capacity_ v →
   items_ v' = items_ v ∧ capacity_ v' = capacity_ v).
Proof.
  intros Hv Hrun.
  pose proof (holds_bounds _ _ _ _ Hv) as (H0 & Hsc & Hmax & Hfull).
  pose proof (Insert_run k x h v els spare Hv) as Hr. rewrite Hrun in Hr.
  destruct Hr as (Hk & _ & _ & _ & _ & _ & Hg).
  destruct spare as [|s0 spare].
  - assert (size_ v = capacity_ v) by by apply Hfull.
    destruct (Insert_grown k x h v els Hv Hk (Hg eq_refl))
      as (sp & Hrun' & _).
    rewrite Hrun in Hrun'. injection Hrun' as _ -> ->.
    split; [apply release_fresh, fresh_lookup|lia].
  - destruct (Insert_in_place k x h v els s0 spare Hv Hk)
      as (h2 & Hrun' & _).
    rewrite Hrun in Hrun'. injection Hrun' as _ -> ->.
    assert (size_ v < capacity_ v).
    { destruct Hv as (_ & -> & -> & _). rewrite length_cons. lia. }
    split; [|done]. unfold set_size. fields.
    eapply confined_release; [|done]. by apply confined_Insert_in_place.
Qed.

Lemma Resize_footprint (n : Z) h v els spare v' h' :
  holds h v els spare → 0 ≤ n → Resize n v h = Ok (v', h') →
  release (items_ v') h' = release (items_ v) h ∧
  (n ≤ capacity_ v → items_ v' = items_ v ∧ capacity_ v' = capacity_ v).
Proof.
  intros Hv Hn Hrun.
  pose proof (holds_bounds _ _ _ _ Hv) as (H0 & Hsc & Hmax & Hfull).
  unfold Resize in Hrun.
  apply bind_inv in Hrun as (v1 & h1 & H1 & Hrun).
  apply bind_inv in Hrun as (u & h2 & H2 & Hrun).
  injection Hrun as <- <-.
  assert (S1 : release (items_ v1) h1 = release (items_ v) h ∧
               (n ≤ capacity_ v →
                items_ v1 = items_ v ∧ capacity_ v1 = capacity_ v)).
  { destruct (Z.ltb_spec (capacity_ v) n) as [Hlt|Hge].
    - rewrite wrap_small in H1 by (rewrite <- PTRDIFF_MAX_twice; lia).
      destruct (Reallocate_footprint (Z.max n (capacity_ v * 2)) h v els
                  spare v1 h1 Hv) as (? & _); [lia|lia|done|].
      split; [done|lia].
    - injection H1 as <- <-. done. }
  destruct S1 as (R1 & Hk1).
  assert (R2 : release (items_ v1) h2 = release (items_ v1) h1).
  { destruct (size_ v1 <? n).
    - eapply confined_release; [|done].
      apply confined_std_fill. simpl. by rewrite list_elem_of_singleton.
    - by injection H2 as _ <-. }
  unfold set_size. fields. split; [congruence|done].
Qed.

Lemma Reserve_footprint (n : Z) h v els spare v' h' :
  holds h v els spare → 0 ≤ n → Reserve n v h = Ok (v', h') →
  release (items_ v') h' = release (items_ v) h ∧
  (n ≤ capacity_ v → v' = v ∧ h' = h).
Proof.
  intros Hv Hn Hrun.
  pose proof (holds_bounds _ _ _ _ Hv) as (H0 & Hsc & Hmax & Hfull).
  unfold Reserve in Hrun.
  destruct (Z.ltb_spec (capacity_ v) n) as [Hlt|Hge].
  - destruct (Reallocate_footprint n h v els spare v' h' Hv) as
      (? & _); [lia|lia|done|]. split; [done|lia].
  - by injection Hrun as <- <-.
Qed.

(** One mutation changes the free store in the storage of the vector
    only; when the capacity covers it, the storage and the capacity stay
    the same. *)
Lemma mutate_footprint m h v els spare v' h' :
  holds h v els spare → size_t_args m → mutate m v h = Ok (v', h') →
  release (items_ v') h' = release (items_ v) h ∧
  (fits m v → items_ v' = items_ v ∧ capacity_ v' = capacity_ v).
Proof.
  intros Hv Hargs Hrun. destruct m; simpl in Hrun, Hargs; simpl fits.
  - by eapply PushBack_footprint.
  - pose proof (PopBack_run h v els spare Hv) as Hr.
    rewrite Hrun in Hr. by destruct Hr as (_ & -> & -> & _).
  - apply bind_inv in Hrun as ([it v1] & h1 & Hins & Hret).
    injection Hret as <- <-. by eapply Insert_footprint.
  - apply bind_inv in Hrun as ([it v1] & h1 & Hers & Hret).
    injection Hret as <- <-.
    pose proof (Erase_run index h v els spare Hv) as Hr.
    rewrite Hers in Hr. destruct Hr as (_ & _ & -> & _).
    split; [|done]. unfold set_size. fields.
    eapply confined_release; [apply confined_Erase|done].
  - eapply Resize_footprint; [done|lia|done].
  - destruct (Reserve_footprint new_capacity h v els spare v' h' Hv
                ltac:(lia) Hrun) as (R & Hk).
    split; [done|]. intros Hfit. by destruct (Hk Hfit) as (-> & ->).
  - by injection Hrun as <- <-.
  - apply bind_inv in Hrun as (p & h1 & Hat & Hrun).
    pose proof (At_run index h v) as Hr. rewrite Hat in Hr.
    destruct Hr as (_ & -> & ->).
    apply bind_inv in Hrun as (u & h2 & Hst & Hrun).
    injection Hrun as <- <-. split; [|done].
    rewrite begin_at, ptr_add_at in Hst. by eapply store_footprint.
  - apply bind_inv in Hrun as (p & h1 & Hat & Hrun).
    pose proof (subscript_run index h v) as Hr. rewrite Hat in Hr.
    destruct Hr as (_ & -> & ->).
    apply bind_inv in Hrun as (u & h2 & Hst & Hrun).
    injection Hrun as <- <-. split; [|done].
    rewrite begin_at, ptr_add_at in Hst. by eapply store_footprint.
Qed.

Lemma mutate_all_release ms : ∀ h v els spare v' h',
  holds h v els spare → Forall size_t_args ms →
  mutate_all ms v h = Ok (v', h') →
  release (items_ v') h' = release (items_ v) h ∧
  ∃ els' spare', holds h' v' els' spare'.
Proof.
  induction ms as [|m ms IH]; intros h v els spare v' h' Hv Hargs Hrun.
  - injection Hrun as <- <-. eauto.
  - simpl in Hrun. apply bind_inv in Hrun as (v1 & h1 & Hm & Hrun).
    inversion Hargs as [|? ? Harg Hargs']; subst.
    destruct (mutate_effect m h v els spare v1 h1 Hv Harg Hm)
      as ((e1 & s1 & Hv1) & _).
    destruct (mutate_footprint m h v els spare v1 h1 Hv Harg Hm) as (R1 & _).
    destruct (IH h1 v1 e1 s1 v' h' Hv1 Hargs' Hrun) as (R & Hv').
    split; [congruence|done].
Qed.

Lemma SimpleVector_init_release (init : list T) h0 v h :
  SimpleVector_init init h0 = Ok (v, h) → release (items_ v) h = h0.
Proof.
  intros Hrun. unfold SimpleVector_init, Assign_init in Hrun.
  apply bind_inv in Hrun as (tmp & h1 & Hnew & Hrun).
  apply bind_inv in Hrun as (d & h2 & Hmv & Hrun).
  cbn [swap ArrayPtr_swap SimpleVector_default] in Hrun. fields.
  unfold SimpleVector_destroy in Hrun. fields.
  apply bind_inv in Hrun as (u & h3 & Hdel & Hrun).
  injection Hrun as <- <-. injection Hdel as _ H. fields.
  assert (R2 : release (items_ tmp) h2 = release (items_ tmp) h1).
  { eapply confined_release; [|done].
    apply confined_std_move_init. simpl. by rewrite list_elem_of_singleton. }
  rewrite <- H, R2.
  pose proof (SimpleVector_sized_run (Z.of_nat (length init)) h0 ltac:(lia))
    as Hr. rewrite Hnew in Hr.
  destruct Hr as [(_ & -> & ->)|(_ & _ & -> & ->)]; [done|].
  apply (release_fresh None), fresh_lookup.
Qed.

Lemma SimpleVector_copy_release (other : SimpleVector) h0 v h :
  0 ≤ size_ other →
  SimpleVector_copy other h0 = Ok (v, h) → release (items_ v) h = h0.
Proof.
  intros Hs Hrun. unfold SimpleVector_copy, Assign_vector in Hrun.
  apply bind_inv in Hrun as (tmp & h1 & Hnew & Hrun).
  apply bind_inv in Hrun as (d & h2 & Hmv & Hrun).
  cbn [swap ArrayPtr_swap SimpleVector_default] in Hrun. fields.
  unfold SimpleVector_destroy in Hrun. fields.
  apply bind_inv in Hrun as (u & h3 & Hdel & Hrun).
  injection Hrun as <- <-. injection Hdel as _ H. fields.
  assert (R2 : release (items_ tmp) h2 = release (items_ tmp) h1).
  { eapply confined_release; [|done].
    apply confined_std_move_const. simpl.
    by rewrite list_elem_of_singleton. }
  rewrite <- H, R2.
  pose proof (SimpleVector_sized_run (size_ other) h0 Hs) as Hr.
  rewrite Hnew in Hr.
  destruct Hr as [(_ & -> & ->)|(_ & _ & -> & ->)]; [done|].
  apply (release_fresh None), fresh_lookup.
Qed.

End Storage.

(** ** Construction *)

Section Construction.

Context {T : Type} {ET : Element T} {Env : Environment}.
Implicit Types (h : heap T) (v : SimpleVector) (els spare : list T).

Lemma holds_replicated h (f : addr) (n : Z) (x : T) :
  0 < n → n ≤ PTRDIFF_MAX →
  holds (<[f := replicate (Z.to_nat n) x]> h)
        {| items_ := Some f; size_ := n; capacity_ := n |}
        (replicate (Z.to_nat n) x) [].
Proof.
  intros Hn Hmax. unfold holds. fields. simpl.
  rewrite lookup_insert_eq, app_nil_r, length_replicate.
  repeat split; [lia|lia|done].
Qed.

(** X3.  The constructors from a count, [SimpleVector(size)] and
    [SimpleVector(size, value)]: when the count is 0 they build the empty
    vector without asking for storage; when the allocator grants the count
    they build a vector whose size and capacity are the count and whose
    elements are all [Type()], respectively all [value], in a new array, with
    the arrays that existed left alone; otherwise they throw [bad_alloc]. *)
Theorem constructed_from_count (n : Z) (value : T) h :
  0 ≤ n →
  (n = 0 →
   SimpleVector_sized n h = Ok (SimpleVector_default, h) ∧
   SimpleVector_filled n value h = Ok (SimpleVector_default, h)) ∧
  (0 < n → grants n →
   ∃ v h' w h'',
     SimpleVector_sized n h = Ok (v, h') ∧
     SimpleVector_filled n value h = Ok (w, h'') ∧
     invariant h' v ∧ GetSize v = n ∧ GetCapacity v = n ∧
     elements h' v = replicate (Z.to_nat n) dflt ∧
     invariant h'' w ∧ GetSize w = n ∧ GetCapacity w = n ∧
     elements h'' w = replicate (Z.to_nat n) value ∧
     untouched None h h' ∧ untouched None h h'' ∧
     release (items_ v) h' = h ∧ release (items_ w) h'' = h) ∧
  (0 < n → ¬ grants n →
   SimpleVector_sized n h = Fail bad_alloc ∧
   SimpleVector_filled n value h = Fail bad_alloc).
Proof.
  intros Hn.
  pose proof (SimpleVector_sized_run n h Hn) as Hs.
  pose proof (SimpleVector_filled_run n value h Hn) as Hf.
  split; [|split].
  - intros Hz.
    destruct (SimpleVector_sized n h) as [[v h']|f];
      destruct (SimpleVector_filled n value h) as [[w h'']|f'];
      try (destruct Hs as (_ & ? & _); lia);
      try (destruct Hf as (_ & ? & _); lia).
    destruct Hs as [(_ & -> & ->)|(? & _)]; [|lia].
    by destruct Hf as [(_ & -> & ->)|(? & _)]; [|lia].
  - intros Hpos Hg.
    destruct (SimpleVector_sized n h) as [[v h']|f];
      [|by destruct Hs as (_ & _ & ?)].
    destruct (SimpleVector_filled n value h) as [[w h'']|f'];
      [|by destruct Hf as (_ & _ & ?)].
    destruct Hs as [(? & _)|(_ & _ & -> & ->)]; [lia|].
    destruct Hf as [(? & _)|(_ & _ & -> & ->)]; [lia|].
    assert (Hfresh : h !! fresh (dom h) = None) by apply fresh_lookup.
    assert (Hun : ∀ l : list T, untouched None h (<[fresh (dom h) := l]> h)).
    { intros l b _ [y Hy]. rewrite lookup_insert_ne; [done|congruence]. }
    destruct Hg as [_ Hmax].
    eexists _, _, _, _. do 2 (split; [done|]).
    split; [eapply holds_invariant; by apply holds_replicated|].
    do 2 (split; [done|]).
    split; [eapply holds_elements; by apply holds_replicated|].
    split; [eapply holds_invariant; by apply holds_replicated|].
    do 2 (split; [done|]).
    split; [eapply holds_elements; by apply holds_replicated|].
    do 2 (split; [apply Hun|]).
    split; by apply (release_fresh None).
  - intros Hpos Hng.
    destruct (SimpleVector_sized n h) as [[v h']|f].
    { destruct Hs as [(? & _)|(_ & ? & _)]; [lia|done]. }
    destruct (SimpleVector_filled n value h) as [[w h'']|f'].
    { destruct Hf as [(? & _)|(_ & ? & _)]; [lia|done]. }
    destruct Hs as (-> & _). by destruct Hf as (-> & _).
Qed.

(** X4.  The constructor from an initializer list: when the list is empty it
    builds the empty vector without asking for storage; when the allocator
    grants the length it builds a vector whose size and capacity are the
    length of the list and whose elements are the values of the list in order,
    each of them read by [At] at its index, and the arrays that existed are
    left alone; otherwise it throws [bad_alloc]. *)
Theorem constructed_from_list (init : list T) h :
  (init = [] → SimpleVector_init init h = Ok (SimpleVector_default, h)) ∧
  (init ≠ [] → grants (Z.of_nat (length init)) →
   ∃ v h',
     SimpleVector_init init h = Ok (v, h') ∧
     invariant h' v ∧
     GetSize v = Z.of_nat (length init) ∧
     GetCapacity v = Z.of_nat (length init) ∧
     elements h' v = init ∧
     untouched None h h' ∧ release (items_ v) h' = h ∧
     ∀ (i : nat) x, init !! i = Some x →
       ∃ p, At (Z.of_nat i) v h' = Ok (p, h') ∧ load p h' = Ok (x, h')) ∧
  (init ≠ [] → ¬ grants (Z.of_nat (length init)) →
   SimpleVector_init init h = Fail bad_alloc).
Proof.
  pose proof (SimpleVector_init_run h init) as Hr.
  split; [|split].
  - intros ->. by vm_compute.
  - intros Hne Hg.
    destruct (SimpleVector_init init h) as [[v h']|f] eqn:E;
      [|by destruct Hr as (_ & _ & ?)].
    destruct Hr as (Hv & Hun & _ & _).
    exists v, h'. split; [done|]. split; [by eapply holds_invariant|].
    assert (Hs : size_ v = Z.of_nat (length init))
      by by destruct Hv as (_ & ? & _).
    split; [done|]. split.
    { unfold GetCapacity. destruct Hv as (_ & _ & Hc & _).
      rewrite Hc. simpl. lia. }
    split; [by eapply holds_elements|]. split; [done|].
    split; [by eapply SimpleVector_init_release|].
    intros i x Hx.
    assert (i < length init)%nat by by eapply lookup_lt_Some.
    pose proof (At_run (Z.of_nat i) h' v) as Hat.
    destruct (At (Z.of_nat i) v h') as [[p h'']|f]; [|destruct Hat; lia].
    destruct Hat as (_ & -> & ->). eexists. split; [done|].
    by apply (holds_readable h' v init [] Hv).
  - intros Hne Hng.
    destruct (SimpleVector_init init h) as [[v h']|f].
    + destruct Hr as (_ & _ & _ & Hg). by specialize (Hg Hne).
    + by destruct Hr as (-> & _).
Qed.

End Construction.

(** ** Capacity control *)

Section Capacity.

Context {T : Type} {ET : Element T} {Env : Environment}.
Implicit Types (h : heap T) (v : SimpleVector) (els spare : list T).

(** X9.  [Reserve(n)] never shrinks and never changes the elements: when [n]
    is at most the capacity it returns with the vector and the free store as
    they are; otherwise, when the allocator grants [n], it moves the elements
    to a new array of exactly [n] elements and releases the old one; otherwise
    it throws [bad_alloc]. The reserving constructor gives an empty vector of
    the capacity asked for. *)
Theorem Reserve_keeps_elements (n : Z) h v :
  invariant h v → 0 ≤ n →
  (n ≤ GetCapacity v → Reserve n v h = Ok (v, h)) ∧
  (GetCapacity v < n → grants n →
   ∃ v' h', Reserve n v h = Ok (v', h') ∧
     invariant h' v' ∧ GetSize v' = GetSize v ∧ GetCapacity v' = n ∧
     elements h' v' = elements h v ∧
     release (items_ v') h' = release (items_ v) h ∧
     (∃ f, items_ v' = Some f ∧ h !! f = None) ∧
     (∀ a, items_ v = Some a → h' !! a = None)) ∧
  (GetCapacity v < n → ¬ grants n → Reserve n v h = Fail bad_alloc) ∧
  (n = 0 ∨ grants n →
   ∃ w h', SimpleVector_reserved (Reserve_proxy n) h = Ok (w, h') ∧
     invariant h' w ∧ GetSize w = 0 ∧ GetCapacity w = n ∧
     elements h' w = [] ∧ release (items_ w) h' = h).
Proof.
  intros Hinv Hn. unfold GetSize, GetCapacity.
  destruct (invariant_holds _ _ Hinv) as (sp & Hv).
  pose proof (holds_bounds _ _ _ _ Hv) as (H0 & Hsc & Hmax & _).
  split; [|split; [|split]].
  - intros Hle. unfold Reserve.
    by destruct (Z.ltb_spec (capacity_ v) n); [lia|].
  - intros Hlt Hg. unfold Reserve.
    destruct (Z.ltb_spec (capacity_ v) n); [|lia].
    pose proof (Reallocate_run n h v _ sp Hv ltac:(lia) ltac:(lia)) as Hr.
    destruct (Reallocate n v h) as [[v' h']|f]; [|by destruct Hr].
    destruct Hr as (_ & -> & ->). eexists _, _. split; [done|].
    pose proof (holds_reallocated n h v _ sp Hv ltac:(lia) (proj2 Hg))
      as Hh.
    split; [by eapply holds_invariant|]. do 2 (split; [done|]).
    split; [by eapply holds_elements|].
    split; [apply release_fresh, fresh_lookup|].
    split; [eexists; split; [done|apply fresh_lookup]|].
    intros a Ha. rewrite Ha. simpl.
    assert (a ≠ fresh (dom h)).
    { intros ->. destruct Hv as (Hb & _). rewrite Ha in Hb. simpl in Hb.
      by rewrite fresh_lookup in Hb. }
    by rewrite lookup_insert_ne, lookup_delete_eq.
  - intros Hlt Hng. unfold Reserve.
    destruct (Z.ltb_spec (capacity_ v) n); [|lia].
    pose proof (Reallocate_run n h v _ sp Hv ltac:(lia) ltac:(lia)) as Hr.
    destruct (Reallocate n v h) as [[v1 h1]|f];
      [by destruct Hr as (? & _)|by destruct Hr as (-> & _)].
  - intros Hg. unfold SimpleVector_reserved, GetCapacityToReserve. simpl.
    pose proof (Reserve_run n h SimpleVector_default [] []
                  (holds_default h) Hn) as Hr.
    destruct (Reserve n SimpleVector_default h) as [[w h']|f] eqn:E.
    + destruct Hr as ((sp' & Hw) & _ & _ & Hs & Hc). simpl in Hs, Hc.
      exists w, h'. split; [done|]. split; [by eapply holds_invariant|].
      split; [done|]. split; [lia|]. split; [by eapply holds_elements|].
      by destruct (Reserve_footprint n h SimpleVector_default [] [] w h'
                     (holds_default h) Hn E) as (-> & _).
    + exfalso. destruct Hr as (_ & Hlt & Hng). simpl in Hlt.
      destruct Hg as [->|?]; [lia|done].
Qed.

Lemma same_storage_dom (h h' : heap T) (p : ArrayPtr) :
  release p h' = release p h →
  (∀ a, p = Some a → is_Some (h !! a) ∧ is_Some (h' !! a)) →
  dom h' = dom h.
Proof.
  intros Hrel Hp. apply set_eq. intros b. rewrite !elem_of_dom.
  destruct p as [a|]; simpl in Hrel; [|by subst].
  destruct (decide (a = b)) as [<-|Hne].
  - destruct (Hp a eq_refl). tauto.
  - assert (delete a h' !! b = delete a h !! b) as Hb by by rewrite Hrel.
    rewrite !lookup_delete_ne in Hb by done. by rewrite Hb.
Qed.

(** X13.  While the elements to append fit in the capacity, [PushBack] never
    asks for storage: the calls succeed whatever the allocator would grant,
    the vector keeps its array and its capacity, so that pointers into it stay
    good, and no array is created or released. *)
Theorem PushBack_within_capacity (items : list T) h v :
  invariant h v →
  GetSize v + Z.of_nat (length items) ≤ GetCapacity v →
  ∃ v' h',
    PushBack_all items v h = Ok (v', h') ∧
    invariant h' v' ∧
    items_ v' = items_ v ∧ GetCapacity v' = GetCapacity v ∧
    GetSize v' = GetSize v + Z.of_nat (length items) ∧
    elements h' v' = elements h v ++ items ∧
    dom h' = dom h ∧ untouched (items_ v) h h'.
Proof.
  unfold GetSize, GetCapacity. revert h v.
  induction items as [|x items IH]; intros h v Hinv Hfit.
  - exists v, h. simpl. rewrite app_nil_r, Z.add_0_r.
    do 6 (split; [done|]). split; [done|apply untouched_refl].
  - rewrite length_cons in Hfit.
    destruct (invariant_holds _ _ Hinv) as (sp & Hv).
    pose proof (holds_bounds _ _ _ _ Hv) as (H0 & Hsc & Hmax & Hfull).
    pose proof (PushBack_run x h v _ sp Hv) as Hr.
    destruct (PushBack x v h) as [[v1 h1]|f] eqn:E; last first.
    { exfalso. destruct Hr as (_ & Hsp & _). apply Hfull in Hsp. lia. }
    destruct Hr as ((sp1 & Hv1) & Hun1 & _).
    destruct (PushBack_footprint x h v _ sp v1 h1 Hv E) as (R1 & Hk).
    destruct (Hk ltac:(lia)) as (Ei & Ec).
    assert (Hs1 : size_ v1 = size_ v + 1).
    { destruct Hv1 as (_ & -> & _). destruct Hv as (_ & -> & _).
      rewrite length_app. simpl. lia. }
    destruct (IH h1 v1 (holds_invariant _ _ _ _ Hv1) ltac:(lia))
      as (v' & h' & Hrun & Hinv' & Ei' & Ec' & Es' & Eels & Edom & Hun').
    exists v', h'. simpl. rewrite (bind_ok _ _ _ _ _ E).
    split; [done|]. split; [done|]. split; [congruence|].
    split; [congruence|]. split; [lia|]. split.
    { rewrite Eels, (holds_elements _ _ _ _ Hv1).
      by rewrite <- (assoc_L (++)). }
    split.
    + rewrite Edom. eapply same_storage_dom; [by rewrite Ei in R1|].
      intros a Ha.
      destruct Hv as (Hb & _), Hv1 as (Hb1 & _).
      rewrite Ei, Ha in Hb1. rewrite Ha in Hb. simpl in *.
      by rewrite Hb, Hb1.
    + intros b Hb Hin. rewrite Hun'; [by apply Hun1| congruence|].
      by rewrite Hun1.
Qed.

Lemma Resize_within (n : Z) h v els spare :
  holds h v els spare → 0 ≤ n ≤ capacity_ v →
  ∃ v' h' spare',
    Resize n v h = Ok (v', h') ∧
    holds h' v'
      (take (Z.to_nat n) els ++ replicate (Z.to_nat n - length els) dflt)
      spare' ∧
    size_ v' = n ∧ items_ v' = items_ v ∧ capacity_ v' = capacity_ v ∧
    untouched (items_ v) h h'.
Proof.
  intros Hv Hn. pose proof (Resize_run n h v els spare Hv ltac:(lia)) as Hr.
  destruct (Resize n v h) as [[v' h']|f] eqn:E;
    [|destruct Hr as (_ & ? & _); lia].
  destruct Hr as ((sp' & Hv') & Hun & _ & Hs & _ & Hc & _).
  destruct (Resize_footprint n h v els spare v' h' Hv ltac:(lia) E)
    as (_ & Hk).
  destruct (Hk ltac:(lia)) as (Ei & _).
  exists v', h', sp'. do 4 (split; [done|]). split; [apply Hc; lia|done].
Qed.

(** X10.  [Resize(n)] to at least the size keeps the elements and appends
    [Type()] up to the size [n]. When [n] is at most the capacity it never
    asks for storage and the vector keeps its array and capacity; otherwise
    the capacity becomes the larger of [n] and twice the old capacity when the
    allocator grants it, and the call throws [bad_alloc] when not. *)
Theorem Resize_to_larger (n : Z) h v :
  invariant h v → GetSize v ≤ n →
  (n ≤ GetCapacity v →
   ∃ v' h', Resize n v h = Ok (v', h') ∧
     invariant h' v' ∧ GetSize v' = n ∧
     items_ v' = items_ v ∧ GetCapacity v' = GetCapacity v ∧
     elements h' v'
     = elements h v ++ replicate (Z.to_nat (n - GetSize v)) dflt ∧
     untouched (items_ v) h h') ∧
  (GetCapacity v < n → grants (Z.max n (2 * GetCapacity v)) →
   ∃ v' h', Resize n v h = Ok (v', h') ∧
     invariant h' v' ∧ GetSize v' = n ∧
     GetCapacity v' = Z.max n (2 * GetCapacity v) ∧
     elements h' v'
     = elements h v ++ replicate (Z.to_nat (n - GetSize v)) dflt ∧
     release (items_ v') h' = release (items_ v) h) ∧
  (GetCapacity v < n → ¬ grants (Z.max n (2 * GetCapacity v)) →
   Resize n v h = Fail bad_alloc).
Proof.
  intros Hinv Hn. unfold GetSize, GetCapacity in *.
  destruct (invariant_holds _ _ Hinv) as (sp & Hv).
  pose proof (holds_bounds _ _ _ _ Hv) as (H0 & Hsc & Hmax & _).
  assert (Hlen : size_ v = Z.of_nat (length (elements h v)))
    by by destruct Hv as (_ & ? & _).
  pose proof (Resize_run n h v _ sp Hv ltac:(lia)) as Hr.
  assert (Hels : take (Z.to_nat n) (elements h v)
                 ++ replicate (Z.to_nat n - length (elements h v)) dflt
                 = elements h v ++ replicate (Z.to_nat (n - size_ v)) dflt).
  { rewrite take_ge by lia. do 2 f_equal. lia. }
  rewrite Hels in Hr. clear Hels.
  split; [|split].
  - intros Hle. destruct (Resize n v h) as [[v' h']|f] eqn:E;
      [|destruct Hr as (_ & ? & _); lia].
    destruct Hr as ((sp' & Hv') & Hun & _ & Hs & _ & Hc & _).
    destruct (Resize_footprint n h v _ sp v' h' Hv ltac:(lia) E) as (_ & Hk).
    destruct (Hk Hle) as (Ei & _).
    exists v', h'. split; [done|]. split; [by eapply holds_invariant|].
    do 2 (split; [done|]). split; [by apply Hc|].
    split; [by eapply holds_elements|done].
  - intros Hlt Hg. destruct (Resize n v h) as [[v' h']|f] eqn:E;
      [|by destruct Hr as (_ & _ & ?)].
    destruct Hr as ((sp' & Hv') & _ & _ & Hs & _ & _ & Hc).
    destruct (Resize_footprint n h v _ sp v' h' Hv ltac:(lia) E) as (R & _).
    exists v', h'. split; [done|]. split; [by eapply holds_invariant|].
    split; [done|]. split; [by apply Hc|].
    split; [by eapply holds_elements|done].
  - intros Hlt Hng. destruct (Resize n v h) as [[v' h']|f] eqn:E;
      [|by destruct Hr as (-> & _)].
    exfalso. destruct Hr as ((sp' & Hv') & _ & _ & _ & _ & _ & Hc).
    specialize (Hc Hlt). destruct Hv' as (_ & _ & Hc' & Hmax').
    unfold Resize in E. destruct (Z.ltb_spec (capacity_ v) n); [|lia].
    apply bind_inv in E as (v1 & h1 & E1 & _).
    rewrite wrap_small in E1 by (rewrite <- PTRDIFF_MAX_twice; lia).
    pose proof (Reallocate_run (Z.max n (capacity_ v * 2)) h v _ sp Hv
                  ltac:(lia) ltac:(lia)) as Hr'.
    rewrite E1 in Hr'. destruct Hr' as (Hg & _). apply Hng.
    by replace (2 * capacity_ v) with (capacity_ v * 2) by lia.
Qed.

(** X12.  [Clear] empties the vector and keeps its capacity and its array, and
    [Resize(0)] does the same; an element appended afterwards goes into this
    array, without a request for storage. *)
Theorem Clear_keeps_capacity h v :
  invariant h v →
  invariant h (Clear v) ∧ elements h (Clear v) = [] ∧
  IsEmpty (Clear v) = true ∧ GetSize (Clear v) = 0 ∧
  GetCapacity (Clear v) = GetCapacity v ∧ items_ (Clear v) = items_ v ∧
  Resize 0 v h = Ok (Clear v, h) ∧
  (0 < GetCapacity v →
   ∀ x, ∃ v' h', PushBack x (Clear v) h = Ok (v', h') ∧
                 elements h' v' = [x] ∧ items_ v' = items_ v ∧
                 GetCapacity v' = GetCapacity v).
Proof.
  intros Hinv. unfold GetSize, GetCapacity.
  destruct (invariant_holds _ _ Hinv) as (sp & Hv).
  pose proof (holds_bounds _ _ _ _ Hv) as (H0 & Hsc & Hmax & _).
  pose proof (Clear_holds _ _ _ _ Hv) as Hc.
  split; [by eapply holds_invariant|].
  split; [by eapply holds_elements|]. do 4 (split; [done|]). split.
  - pose proof (Resize_run 0 h v _ sp Hv ltac:(lia)) as Hr.
    destruct (Resize 0 v h) as [[v' h']|f]; [|destruct Hr as (_ & ? & _); lia].
    destruct Hr as (_ & _ & _ & _ & Hshrink & _).
    by destruct (Hshrink H0) as (-> & ->).
  - intros Hpos x.
    pose proof (PushBack_run x h (Clear v) _ _ Hc) as Hr.
    destruct (PushBack x (Clear v) h) as [[v' h']|f] eqn:E; last first.
    { exfalso. destruct Hr as (_ & Hsp & _).
      destruct (holds_bounds _ _ _ _ Hc) as (_ & _ & _ & Hfull).
      apply Hfull in Hsp. simpl in Hsp. lia. }
    destruct Hr as ((sp' & Hv') & _).
    destruct (PushBack_footprint x h (Clear v) _ _ v' h' Hc E) as (_ & Hk).
    destruct (Hk ltac:(simpl; lia)) as (Ei & Ec).
    exists v', h'. split; [done|].
    split; [by rewrite (holds_elements _ _ _ _ Hv')|done].
Qed.

(** X11.  Shrinking and growing again does not bring the dropped elements
    back: after [Resize(k)] and [Resize(n)] with [k] at most the size and [n]
    between [k] and the capacity, the elements are the first [k] of the
    original ones followed by [Type()] up to the size [n], in the same array. *)
Theorem Resize_down_then_up (k n : Z) h v :
  invariant h v → 0 ≤ k ≤ GetSize v → k ≤ n ≤ GetCapacity v →
  ∃ v' h',
    (v1 ← Resize k v; Resize n v1) h = Ok (v', h') ∧
    invariant h' v' ∧ GetSize v' = n ∧
    items_ v' = items_ v ∧ GetCapacity v' = GetCapacity v ∧
    elements h' v'
    = take (Z.to_nat k) (elements h v) ++ replicate (Z.to_nat (n - k)) dflt.
Proof.
  intros Hinv Hk Hn. unfold GetSize, GetCapacity in *.
  destruct (invariant_holds _ _ Hinv) as (sp & Hv).
  pose proof (holds_bounds _ _ _ _ Hv) as (H0 & Hsc & _).
  assert (Hlen : size_ v = Z.of_nat (length (elements h v)))
    by by destruct Hv as (_ & ? & _).
  destruct (Resize_within k h v _ sp Hv ltac:(lia))
    as (v1 & h1 & sp1 & E1 & Hv1 & Hs1 & Hi1 & Hc1 & _).
  destruct (Resize_within n h1 v1 _ sp1 Hv1 ltac:(lia))
    as (v' & h' & sp' & E2 & Hv' & Hs & Hi & Hc & _).
  exists v', h'. rewrite (bind_ok _ _ _ _ _ E1).
  split; [done|]. split; [by eapply holds_invariant|]. split; [done|].
  split; [congruence|]. split; [congruence|].
  rewrite (holds_elements _ _ _ _ Hv').
  replace (Z.to_nat k - length (elements h v))%nat with 0%nat by lia.
  simpl. rewrite app_nil_r, length_take, take_ge
    by (rewrite length_take; lia).
  do 2 f_equal. lia.
Qed.

End Capacity.

(** ** Assignment and move *)

Section Assignment.

Context {T : Type} {ET : Element T} {Env : Environment}.
Implicit Types (h : heap T) (v : SimpleVector) (els spare : list T).

Lemma release_comm (p q : ArrayPtr) h :
  release p (release q h) = release q (release p h).
Proof.
  destruct p as [a|], q as [b|]; simpl; try done.
  apply map_eq. intros c. rewrite !lookup_delete.
  by repeat case_decide.
Qed.

(** X5.  Copy assignment between two vectors that share no storage: when the
    allocator grants the size of the right operand (or it is empty), the left
    operand ends with the elements of the right one, in a new array of exactly
    that many elements, its old array is released, and the right operand and
    every other array are as before. Assignment of a vector to itself changes
    nothing. *)
Theorem copy_assignment h (this rhs : SimpleVector) :
  invariant h this → invariant h rhs → separate this rhs →
  (GetSize rhs = 0 ∨ grants (GetSize rhs) →
   ∃ this' h',
     copy_assign (TwoObjects this rhs) h = Ok (TwoObjects this' rhs, h') ∧
     invariant h' this' ∧ invariant h' rhs ∧ separate this' rhs ∧
     elements h' this' = elements h rhs ∧
     elements h' rhs = elements h rhs ∧
     GetSize this' = GetSize rhs ∧ GetCapacity this' = GetSize rhs ∧
     (∀ a, items_ this = Some a → h' !! a = None) ∧
     release (items_ this') h' = release (items_ this) h) ∧
  (0 < GetSize rhs → ¬ grants (GetSize rhs) →
   copy_assign (TwoObjects this rhs) h = Fail bad_alloc) ∧
  copy_assign (SameObject this) h = Ok (SameObject this, h).
Proof.
  intros Ht Hr Hsep. unfold GetSize, GetCapacity.
  destruct (invariant_holds _ _ Ht) as (st & Hht).
  destruct (invariant_holds _ _ Hr) as (sr & Hhr).
  pose proof (holds_bounds _ _ _ _ Hhr) as (H0 & _).
  pose proof (SimpleVector_copy_run h rhs _ sr Hhr) as Hc.
  split; [|split; [|done]].
  - intros Hg. unfold copy_assign.
    destruct (SimpleVector_copy rhs h) as [[tmp h1]|f] eqn:E; last first.
    { exfalso. destruct Hc as (_ & Hpos & Hng).
      destruct Hg as [?|?]; [lia|done]. }
    rewrite (bind_ok _ _ _ _ _ E).
    destruct Hc as (Htmp & Hun & Hnew & _).
    cbn [swap ArrayPtr_swap]. unfold SimpleVector_destroy. fields.
    assert (Ht1 := holds_untouched _ _ _ _ _ Hht Hun).
    assert (Hr1 := holds_untouched _ _ _ _ _ Hhr Hun).
    erewrite bind_ok; last first.
    { eapply ArrayPtr_delete_run. by destruct Ht1 as (Hb & _). }
    rewrite ret_run.
    assert (Hne : ∀ a, items_ this = Some a → items_ tmp ≠ Some a).
    { intros a Ha. destruct Hnew as [->|(f & -> & Hf)]; [done|].
      intros [= ->]. destruct Hht as (Hb & _). rewrite Ha in Hb.
      simpl in Hb. congruence. }
    assert (Hthis' : holds (release (items_ this) h1)
                       {| items_ := items_ tmp; size_ := size_ tmp;
                          capacity_ := capacity_ tmp |}
                       (elements h rhs) []).
    { destruct Htmp as (Hb & Hrest). split; [|done]. fields.
      destruct (items_ tmp) as [b|]; [|done]. simpl in *.
      destruct (items_ this) as [a|] eqn:Hit; simpl; [|done].
      rewrite lookup_delete_ne; [done|]. intros ->. by eapply Hne. }
    assert (Hrhs' : holds (release (items_ this) h1) rhs (elements h rhs) sr).
    { destruct Hr1 as (Hb & Hrest). split; [|done].
      destruct (items_ rhs) as [b|] eqn:Hir; [|done]. simpl in *.
      destruct (items_ this) as [a|] eqn:Hit; simpl; [|done].
      rewrite lookup_delete_ne; [done|]. intros ->. by eapply Hsep. }
    eexists _, _. split; [done|].
    split; [by eapply holds_invariant|].
    split; [by eapply holds_invariant|]. split.
    { intros a Ha Hra. fields. destruct Hnew as [?|(f & Hf & Hnone)];
        [congruence|].
      assert (a = f) as -> by congruence.
      destruct Hhr as (Hb & _). rewrite Hra in Hb. simpl in Hb. congruence. }
    split; [by eapply holds_elements|].
    split; [by eapply holds_elements|].
    destruct Htmp as (_ & Hs & Hcap & _). rewrite Nat.add_0_r in Hcap.
    destruct Hhr as (_ & Hsr & _). fields.
    split; [lia|]. split; [lia|]. split.
    + intros a ->. simpl. by rewrite lookup_delete_eq.
    + rewrite release_comm. f_equal.
      eapply SimpleVector_copy_release; [|done]. lia.
  - intros Hpos Hng. unfold copy_assign.
    destruct (SimpleVector_copy rhs h) as [[tmp h1]|f] eqn:E.
    + destruct Hc as (_ & _ & _ & Hg). exfalso. apply Hng, Hg. lia.
    + rewrite (bind_fail _ _ _ _ E). by destruct Hc as (-> & _).
Qed.


(** X6.  Move assignment between two vectors that share no storage, for either
    form of the move assignment of [ArrayPtr]: the left operand becomes what
    the right operand was, with its storage, counters and elements, and
    satisfies the invariant. The right operand is left with the counters it
    had and with the old storage of the left operand or none; so after a move
    into a vector of capacity 0 it does not satisfy the invariant when its
    capacity was not 0. *)
Theorem move_assignment_transfers h (this rhs : SimpleVector) :
  invariant h this → invariant h rhs → separate this rhs →
  ∃ rhs' h',
    move_assign this rhs h = Ok ((rhs, rhs'), h') ∧
    invariant h' rhs ∧ elements h' rhs = elements h rhs ∧
    GetSize rhs' = GetSize rhs ∧ GetCapacity rhs' = GetCapacity rhs ∧
    (items_ rhs' = items_ this ∨ items_ rhs' = None) ∧
    (0 < GetCapacity rhs → GetCapacity this = 0 → ¬ invariant h' rhs').
Proof.
  intros Ht Hr Hsep. unfold GetSize, GetCapacity.
  destruct (invariant_holds _ _ Hr) as (sr & Hhr).
  pose proof Ht as (_ & _ & _ & l & Hl & Hlen).
  destruct (move_assign_run h this rhs l Hl) as (p & h' & Hrun & Hp).
  assert (Hhr' : holds h' rhs (elements h rhs) sr).
  { destruct move_assign_by_swap; destruct Hp as [-> ->]; [done|].
    destruct Hhr as (Hb & Hrest). split; [|done].
    destruct (items_ rhs) as [b|] eqn:Hir; [|done]. simpl in *.
    destruct (items_ this) as [a|] eqn:Hit; simpl; [|done].
    rewrite lookup_delete_ne; [done|]. intros ->. by eapply Hsep. }
  eexists _, h'. split; [exact Hrun|]. simpl.
  split; [by eapply holds_invariant|]. split; [by eapply holds_elements|].
  do 2 (split; [done|]).
  split; [destruct move_assign_by_swap; destruct Hp as [-> _]; auto|].
  intros Hpos Hzero (_ & _ & _ & l' & Hl' & Hlen'). simpl in Hl', Hlen'.
  assert (l' = []) as ->; [|simpl in Hlen'; lia].
  destruct move_assign_by_swap; destruct Hp as [-> ->].
  - rewrite Hl in Hl'. injection Hl' as <-.
    apply length_zero_iff_nil. lia.
  - simpl in Hl'. by injection Hl' as <-.
Qed.

End Assignment.

(** ** The derived comparison operators *)

Section Order.

Context {T : Type} {ET : Element T} {Cmp : Comparable T}.
Implicit Types (h : heap T) (v : SimpleVector) (els spare : list T).

Lemma lex_less_asymmetric (l1 l2 : list T) :
  (∀ x y : T, elem_lt x y = true → elem_lt y x = false) →
  lex_less l1 l2 → ¬ lex_less l2 l1.
Proof.
  intros Hasym Hl. induction Hl as [y l2|x l1 y l2 Hxy|x l1 y l2 Hxy Hyx Hl IH];
    intros Hr; inversion Hr; subst;
    first [congruence | apply Hasym in Hxy; congruence | by apply IH].
Qed.

(** X20.  The six comparison operators on two vectors all return without
    changing the free store, and the four derived ones answer as the two basic
    ones dictate: [!=] is the negation of [==], [a > b] is [b < a], [a <= b]
    is the negation of [b < a], and [a >= b] is the negation of [a < b]. When
    the order of the elements is asymmetric, [a < b] and [a > b] are never
    both true, so one of [a <= b] and [a >= b] is. *)
Theorem order_operators_agree h (lhs rhs : SimpleVector) :
  invariant h lhs → invariant h rhs →
  ∃ e l g,
    operator_eq (TwoObjects lhs rhs) h = Ok (e, h) ∧
    operator_ne (TwoObjects lhs rhs) h = Ok (negb e, h) ∧
    operator_ne (SameObject lhs) h = Ok (false, h) ∧
    operator_lt lhs rhs h = Ok (l, h) ∧
    operator_lt rhs lhs h = Ok (g, h) ∧
    operator_gt lhs rhs h = Ok (g, h) ∧
    operator_le lhs rhs h = Ok (negb g, h) ∧
    operator_ge lhs rhs h = Ok (negb l, h) ∧
    (g = true ↔ lex_less (elements h rhs) (elements h lhs)) ∧
    ((∀ x y : T, elem_lt x y = true → elem_lt y x = false) →
     (l = true → g = false) ∧ (negb g = true ∨ negb l = true)).
Proof.
  intros Hl Hr.
  destruct (invariant_holds _ _ Hl) as (sl & Hhl).
  destruct (invariant_holds _ _ Hr) as (sr & Hhr).
  destruct (operator_eq_run h lhs rhs _ _ _ _ Hhl Hhr) as (e & He & _).
  destruct (operator_lt_run h lhs rhs _ _ _ _ Hhl Hhr) as (l & Hlt & Hliff).
  destruct (operator_lt_run h rhs lhs _ _ _ _ Hhr Hhl) as (g & Hgt & Hgiff).
  exists e, l, g. split; [done|].
  split; [unfold operator_ne; by rewrite (bind_ok _ _ _ _ _ He)|].
  split; [done|]. split; [done|]. split; [done|]. split; [done|].
  split; [unfold operator_le; by rewrite (bind_ok _ _ _ _ _ Hgt)|].
  split; [unfold operator_ge, operator_le; by rewrite (bind_ok _ _ _ _ _ Hlt)|].
  split; [done|]. intros Hasym.
  assert (Hx : l = true → g = false).
  { intros Hlt'. apply Hliff in Hlt'.
    destruct g; [|done]. exfalso.
    eapply lex_less_asymmetric; [done|apply Hlt'|]. by apply Hgiff. }
  split; [done|]. destruct l; [left; by rewrite Hx|by right].
Qed.

End Order.

(** ** Appending, inserting and removing *)

Section Positions.

Context {T : Type} {ET : Element T} {Env : Environment}.
Implicit Types (h : heap T) (v : SimpleVector) (els spare : list T) (x : T).

Lemma room_or_granted h v els spare (c : Z) :
  holds h v els spare →
  GetSize v < GetCapacity v ∨ grants c →
  ¬ (spare = [] ∧ ¬ grants c).
Proof.
  intros Hv Hroom (Hsp & Hng).
  pose proof (holds_bounds _ _ _ _ Hv) as (_ & _ & _ & Hfull).
  unfold GetSize, GetCapacity in Hroom.
  destruct Hroom as [Hlt|Hg]; [|done]. apply Hfull in Hsp. lia.
Qed.

(** X14.  [PushBack] puts the value after the last element and leaves the
    elements before it as they were; the checked access at the old size then
    gives the address of the new element. [PopBack] right after it takes the
    value off again: the vector has the elements and the size it had, in the
    capacity that [PushBack] left. *)
Theorem PushBack_then_PopBack x h v :
  invariant h v →
  GetSize v < GetCapacity v ∨ grants (PushBack_capacity v) →
  ∃ v1 h1 v2,
    PushBack x v h = Ok (v1, h1) ∧
    invariant h1 v1 ∧
    elements h1 v1 = elements h v ++ [x] ∧
    At (GetSize v) v1 h1 = Ok (begin v1 +ₚ GetSize v, h1) ∧
    load (begin v1 +ₚ GetSize v) h1 = Ok (x, h1) ∧
    PopBack v1 h1 = Ok (v2, h1) ∧
    invariant h1 v2 ∧ elements h1 v2 = elements h v ∧
    GetSize v2 = GetSize v ∧ GetCapacity v2 = PushBack_capacity v.
Proof.
  intros Hinv Hroom. destruct (invariant_holds _ _ Hinv) as (sp & Hv).
  set (els := elements h v) in *.
  pose proof (PushBack_run x h v els sp Hv) as Hr.
  destruct (PushBack x v h) as [[v1 h1]|f]; last first.
  { exfalso. destruct Hr as (_ & Hsp & Hng).
    by apply (room_or_granted _ _ _ _ _ Hv Hroom). }
  destruct Hr as ((sp1 & Hv1) & _ & _ & Hcap & _).
  assert (Hs : size_ v = Z.of_nat (length els))
    by by destruct Hv as (_ & ? & _).
  assert (Hs1 : size_ v1 = size_ v + 1).
  { destruct Hv1 as (_ & -> & _). rewrite length_app. simpl. lia. }
  pose proof (PopBack_run h1 v1 _ _ Hv1) as Hp.
  destruct (PopBack v1 h1) as [[v2 h2]|f] eqn:EP; last first.
  { exfalso. destruct Hp as (_ & Hz). lia. }
  destruct Hp as (_ & -> & -> & Hv2).
  rewrite length_app in Hv2. simpl in Hv2.
  replace (length els + 1 - 1)%nat with (length els) in Hv2 by lia.
  rewrite take_app_length in Hv2.
  exists v1, h1, (set_size (size_ v1 - 1) v1).
  split; [done|]. split; [by eapply holds_invariant|].
  split; [by eapply holds_elements|]. unfold GetSize, GetCapacity.
  pose proof (At_run (size_ v) h1 v1) as Ha.
  destruct (At (size_ v) v1 h1) as [[p h']|f] eqn:EA; last first.
  { destruct Ha as (_ & ?). lia. }
  destruct Ha as (_ & -> & ->). split; [done|].
  split.
  { destruct (element_access (size_ v) h1 v1 _ _ Hv1 ltac:(lia))
      as (y & Hy & Hload & _).
    rewrite Hs, Nat2Z.id in Hy.
    rewrite lookup_app_r, Nat.sub_diag in Hy by lia.
    by injection Hy as <-. }
  split; [done|]. split; [by eapply holds_invariant|].
  split; [by eapply holds_elements|]. unfold set_size. simpl.
  split; [lia|done].
Qed.

(** X15.  [Insert] at a position [begin + k] with [0 <= k <= size] puts the
    value before the element that was at index [k]: the elements before it
    keep their places, the ones from [k] on follow the value, and the iterator
    returned refers to the value. The capacity is kept when there was room and
    is 1 or twice the old one otherwise. [Insert] at [end] gives what
    [PushBack] gives: the same elements, size and capacity. *)
Theorem Insert_places_value (k : Z) x h v :
  invariant h v → 0 ≤ k ≤ GetSize v →
  GetSize v < GetCapacity v ∨ grants (Insert_capacity v) →
  ∃ v' h',
    Insert (begin v +ₚ k) x v h = Ok ((begin v' +ₚ k, v'), h') ∧
    invariant h' v' ∧
    elements h' v'
    = take (Z.to_nat k) (elements h v) ++ x ::
      drop (Z.to_nat k) (elements h v) ∧
    load (begin v' +ₚ k) h' = Ok (x, h') ∧
    GetSize v' = GetSize v + 1 ∧ GetCapacity v' = Insert_capacity v ∧
    (GetSize v < GetCapacity v → items_ v' = items_ v) ∧
    (k = GetSize v →
     ∃ v'' h'',
       PushBack x v h = Ok (v'', h'') ∧
       elements h'' v'' = elements h' v' ∧
       GetSize v'' = GetSize v' ∧ GetCapacity v'' = GetCapacity v').
Proof.
  intros Hinv Hk Hroom. destruct (invariant_holds _ _ Hinv) as (sp & Hv).
  set (els := elements h v) in *.
  pose proof (holds_bounds _ _ _ _ Hv) as (H0 & Hsc & Hmax & Hfull).
  assert (Hs : size_ v = Z.of_nat (length els))
    by by destruct Hv as (_ & ? & _).
  unfold GetSize, GetCapacity in *.
  pose proof (Insert_run k x h v els sp Hv) as Hr.
  destruct (Insert (begin v +ₚ k) x v h) as [[[it v'] h']|f] eqn:E;
    last first.
  { exfalso. destruct Hr as [(_ & Hn)|(_ & _ & Hsp & Hng)]; [done|].
    by apply (room_or_granted _ _ _ _ _ Hv Hroom). }
  destruct Hr as (_ & -> & (sp' & Hv') & _ & _ & Hcap & _).
  assert (Hs' : size_ v' = size_ v + 1).
  { destruct Hv' as (_ & -> & _).
    rewrite length_app, length_take. simpl. rewrite length_drop. lia. }
  exists v', h'. split; [done|]. split; [by eapply holds_invariant|].
  split; [by eapply holds_elements|]. split.
  { destruct (element_access k h' v' _ _ Hv' ltac:(lia))
      as (y & Hy & Hload & _).
    rewrite lookup_app_r in Hy by (rewrite length_take; lia).
    rewrite length_take in Hy.
    replace (Z.to_nat k - Z.to_nat k `min` length els)%nat with 0%nat
      in Hy by lia.
    by injection Hy as <-. }
  split; [done|]. split; [done|]. split.
  { intros Hlt. by eapply Insert_footprint. }
  intros ->.
  pose proof (PushBack_run x h v els sp Hv) as Hp.
  assert (Hsame : PushBack_capacity v = Insert_capacity v).
  { unfold PushBack_capacity, Insert_capacity.
    destruct (Z.eqb_spec (capacity_ v) 0), (Z.eqb_spec (size_ v) (capacity_ v)),
      (Z.ltb_spec (size_ v) (capacity_ v)), (Z.eqb_spec (size_ v) 0); lia. }
  destruct (PushBack x v h) as [[v'' h'']|f]; last first.
  { exfalso. destruct Hp as (_ & Hsp & Hng). rewrite Hsame in Hng.
    by apply (room_or_granted _ _ _ _ _ Hv Hroom). }
  destruct Hp as ((sp'' & Hv'') & _ & _ & Hcap'' & _).
  exists v'', h''. split; [done|].
  rewrite (holds_elements _ _ _ _ Hv''), (holds_elements _ _ _ _ Hv').
  rewrite Hs, Nat2Z.id, take_ge, drop_ge by lia.
  split; [done|]. split; [|congruence].
  destruct Hv'' as (_ & -> & _). rewrite Hs', Hs, length_app. simpl. lia.
Qed.

(** X17.  What the assertions of the member functions reject: [PopBack] on an
    empty vector, [Erase] at a position of the array that is not that of an
    element, [Insert] at a position of the array before [begin] or after
    [end], and the mutable [operator[]] at an index that is not less than the
    size. None of them throws, and none changes the vector before the
    assertion fails. *)
Theorem violated_preconditions_assert h v :
  invariant h v →
  (GetSize v = 0 → PopBack v h = Fail assertion_failed) ∧
  (∀ k : Z, ¬ (0 ≤ k < GetSize v) →
            Erase (begin v +ₚ k) v h = Fail assertion_failed) ∧
  (∀ (k : Z) x, ¬ (0 ≤ k ≤ GetSize v) →
                Insert (begin v +ₚ k) x v h = Fail assertion_failed) ∧
  (∀ i : Z, GetSize v ≤ i → subscript i v h = Fail assertion_failed).
Proof.
  intros Hinv. destruct (invariant_holds _ _ Hinv) as (sp & Hv).
  unfold GetSize. repeat split.
  - intros Hz. pose proof (PopBack_run h v _ _ Hv) as Hr.
    destruct (PopBack v h) as [[v' h']|f]; [lia|]. by destruct Hr as (-> & _).
  - intros k Hk. pose proof (Erase_run k h v _ _ Hv) as Hr.
    destruct (Erase (begin v +ₚ k) v h) as [[[it v'] h']|f].
    + by destruct Hr as (? & _).
    + by destruct Hr as (-> & _).
  - intros k x Hk. pose proof (Insert_run k x h v _ _ Hv) as Hr.
    destruct (Insert (begin v +ₚ k) x v h) as [[[it v'] h']|f].
    + by destruct Hr as (? & _).
    + destruct Hr as [(-> & _)|(_ & ? & _)]; done.
  - intros i Hi. pose proof (subscript_run i h v) as Hr.
    destruct (subscript i v h) as [[p h']|f]; [lia|].
    by destruct Hr as (-> & _).
Qed.

(** X16.  [Erase] of the last element does what [PopBack] does: the same
    vector in the same free store, no element is moved, and the iterator it
    returns is the new [end]. *)
Theorem Erase_last_is_PopBack h v :
  invariant h v → 0 < GetSize v →
  ∃ v', PopBack v h = Ok (v', h) ∧
        Erase (begin v +ₚ (GetSize v - 1)) v h = Ok ((end_ v', v'), h) ∧
        end_ v' = begin v +ₚ (GetSize v - 1).
Proof.
  intros Hinv Hpos. destruct (invariant_holds _ _ Hinv) as (sp & Hv).
  pose proof (holds_bounds _ _ _ _ Hv) as (H0 & Hsc & Hmax & Hfull).
  unfold GetSize in *.
  pose proof (PopBack_run h v _ _ Hv) as Hr.
  destruct (PopBack v h) as [[v' h']|f]; last first.
  { destruct Hr as (_ & ?). lia. }
  destruct Hr as (_ & -> & -> & _).
  exists (set_size (size_ v - 1) v). split; [done|].
  assert (Hend : end_ (set_size (size_ v - 1) v) = begin v +ₚ (size_ v - 1))
    by done.
  split; [|done]. rewrite Hend.
  unfold Erase. rewrite position_assert_strict.
  rewrite bool_decide_eq_true_2 by lia.
  rewrite (bind_ok _ _ _ _ _ (assert_true _)).
  replace (begin v +ₚ (size_ v - 1) +ₚ 1) with (end_ v); last first.
  { rewrite end_at, begin_at, !ptr_add_at. f_equal. lia. }
  rewrite (bind_ok _ _ _ _ _ (std_move_empty _ _ _)), ret_run.
  rewrite wrap_small by (rewrite <- PTRDIFF_MAX_twice; lia). done.
Qed.

End Positions.

(** ** Storage over the life of a vector *)

Section Lifetime.

Context {T : Type} {ET : Element T} {Env : Environment}.
Implicit Types (h : heap T) (v : SimpleVector) (els spare : list T).

(** X23.  No storage is lost. After any sequence of mutating calls that runs
    to its end, destroying the vector leaves the free store that releasing the
    storage of the vector before the calls would have left: every array that
    the calls allocated is released by then, and no other array has changed.
    So a vector built from an initializer list, mutated and destroyed leaves
    the free store as it was before the constructor. *)
Theorem storage_is_released (ms : list (mutation T)) h v v' h' :
  invariant h v → Forall size_t_args ms →
  mutate_all ms v h = Ok (v', h') →
  SimpleVector_destroy v' h' = Ok ((), release (items_ v) h) ∧
  (∀ b, items_ v ≠ Some b → release (items_ v) h !! b = h !! b) ∧
  (items_ v = None → SimpleVector_destroy v' h' = Ok ((), h)) ∧
  (∀ (init : list T) h0,
     SimpleVector_init init h0 = Ok (v, h) →
     SimpleVector_destroy v' h' = Ok ((), h0)).
Proof.
  intros Hinv Hargs Hrun. destruct (invariant_holds _ _ Hinv) as (sp & Hv).
  destruct (mutate_all_release ms h v _ _ v' h' Hv Hargs Hrun)
    as (Hrel & els' & sp' & Hv').
  assert (Hd : SimpleVector_destroy v' h' = Ok ((), release (items_ v) h)).
  { unfold SimpleVector_destroy. rewrite <- Hrel.
    eapply ArrayPtr_delete_run. by destruct Hv' as (Hb & _). }
  split; [done|]. split.
  { intros b Hb. destruct (items_ v) as [a|]; [|done]. simpl.
    apply lookup_delete_ne. congruence. }
  split; [intros Hnone; by rewrite Hd, Hnone|].
  intros init h0 Hinit. rewrite Hd. do 2 f_equal.
  by eapply SimpleVector_init_release.
Qed.

(** X21.  A call that the capacity already covers keeps the storage: appending
    or inserting below capacity, resizing or reserving up to the capacity,
    removing, clearing and assigning to an element all leave the vector with
    the same array and capacity, so [begin] is the same and positions obtained
    before the call still point into the array; no array is created or
    released, and the call cannot end with [bad_alloc]. *)
Theorem fitting_mutations_keep_storage (m : mutation T) h v :
  invariant h v → size_t_args m → fits m v →
  mutate m v h ≠ Fail bad_alloc ∧
  ∀ v' h', mutate m v h = Ok (v', h') →
    invariant h' v' ∧
    items_ v' = items_ v ∧ begin v' = begin v ∧
    GetCapacity v' = GetCapacity v ∧ dom h' = dom h ∧
    untouched (items_ v) h h'.
Proof.
  intros Hinv Hargs Hfits. destruct (invariant_holds _ _ Hinv) as (sp & Hv).
  pose proof (holds_bounds _ _ _ _ Hv) as (H0 & Hsc & Hmax & Hfull).
  split.
  - destruct m; simpl in *.
    + pose proof (PushBack_run item h v _ _ Hv) as Hr. intros E.
      rewrite E in Hr. destruct Hr as (_ & Hsp & _). apply Hfull in Hsp. lia.
    + pose proof (PopBack_run h v _ _ Hv) as Hr. intros E.
      rewrite E in Hr. by destruct Hr as (? & _).
    + pose proof (Insert_run index value h v _ _ Hv) as Hr. intros E.
      destruct (Insert (begin v +ₚ index) value v h)
        as [[[it v1] h1]|f] eqn:EI.
      { by rewrite (bind_ok _ _ _ _ _ EI) in E. }
      rewrite (bind_fail _ _ _ _ EI) in E. injection E as ->.
      destruct Hr as [(? & _)|(_ & _ & Hsp & _)]; [done|].
      apply Hfull in Hsp. lia.
    + pose proof (Erase_run index h v _ _ Hv) as Hr. intros E.
      destruct (Erase (begin v +ₚ index) v h) as [[[it v1] h1]|f] eqn:EI.
      { by rewrite (bind_ok _ _ _ _ _ EI) in E. }
      rewrite (bind_fail _ _ _ _ EI) in E. injection E as ->.
      by destruct Hr as (? & _).
    + pose proof (Resize_run new_size h v _ _ Hv ltac:(lia)) as Hr. intros E.
      rewrite E in Hr. destruct Hr as (_ & ? & _). lia.
    + pose proof (Reserve_run new_capacity h v _ _ Hv ltac:(lia)) as Hr.
      intros E. rewrite E in Hr. destruct Hr as (_ & ? & _). lia.
    + done.
    + pose proof (At_run index h v) as Hr. intros E.
      destruct (At index v h) as [[p h1]|f] eqn:EA.
      * destruct Hr as (Hlt & -> & ->).
        destruct (element_access index h v _ _ Hv ltac:(lia))
          as (y & _ & _ & Hst).
        destruct (Hst value) as (h2 & Hst2 & _).
        rewrite (bind_ok _ _ _ _ _ EA), (bind_ok _ _ _ _ _ Hst2) in E. done.
      * rewrite (bind_fail _ _ _ _ EA) in E. injection E as ->.
        by destruct Hr as (? & _).
    + pose proof (subscript_run index h v) as Hr. intros E.
      destruct (subscript index v h) as [[p h1]|f] eqn:EA.
      * destruct Hr as (Hlt & -> & ->).
        destruct (element_access index h v _ _ Hv ltac:(lia))
          as (y & _ & _ & Hst).
        destruct (Hst value) as (h2 & Hst2 & _).
        rewrite (bind_ok _ _ _ _ _ EA), (bind_ok _ _ _ _ _ Hst2) in E. done.
      * rewrite (bind_fail _ _ _ _ EA) in E. injection E as ->.
        by destruct Hr as (? & _).
  - intros v' h' Hrun.
    destruct (mutate_effect m h v _ _ v' h' Hv Hargs Hrun)
      as ((els' & sp' & Hv') & Hun & _).
    destruct (mutate_footprint m h v _ _ v' h' Hv Hargs Hrun)
      as (Hrel & Hkeep).
    destruct (Hkeep Hfits) as (Hit & Hcap).
    split; [by eapply holds_invariant|]. split; [done|].
    split; [by rewrite !begin_at, Hit|]. split; [done|]. split; [|done].
    rewrite Hit in Hrel. eapply same_storage_dom; [done|].
    intros a Ha. destruct Hv as (Hb & _), Hv' as (Hb' & _).
    rewrite Hit in Hb'. rewrite Ha in Hb, Hb'. simpl in *.
    by rewrite Hb, Hb'.
Qed.

(** X19.  The range from [begin] to [end]: [end] is [size] positions after
    [begin], the const forms give the same positions, reading the positions in
    order gives the elements in order, and the range is empty exactly when
    [IsEmpty] answers true. *)
Theorem range_of_elements h v :
  invariant h v →
  cbegin v = begin v ∧ cend v = end_ v ∧
  end_ v = begin v +ₚ GetSize v ∧
  distance (T:=T) (begin v) (end_ v) h = Ok (Z.to_nat (GetSize v), h) ∧
  Z.of_nat (length (elements h v)) = GetSize v ∧
  readable h (begin v) (elements h v) ∧
  (IsEmpty v = true ↔ begin v = end_ v) ∧
  (IsEmpty v = true ↔ elements h v = []).
Proof.
  intros Hinv. destruct (invariant_holds _ _ Hinv) as (sp & Hv).
  pose proof (holds_bounds _ _ _ _ Hv) as (H0 & Hsc & Hmax & Hfull).
  assert (Hs : size_ v = Z.of_nat (length (elements h v)))
    by by destruct Hv as (_ & ? & _).
  unfold GetSize.
  split; [done|]. split; [done|]. split; [done|]. split.
  { rewrite begin_at, end_at, distance_run by lia. by rewrite Z.sub_0_r. }
  split; [done|]. split; [by eapply holds_readable|]. split.
  { unfold IsEmpty. rewrite begin_at, end_at, Z.eqb_eq. split.
    - by intros ->.
    - by intros [= <-]. }
  unfold IsEmpty. rewrite Z.eqb_eq, Hs. split.
  - intros Hz. apply length_zero_iff_nil. lia.
  - by intros ->.
Qed.

Lemma PushBack_grown x h v els v' h' :
  holds h v els [] → 0 < capacity_ v →
  PushBack x v h = Ok (v', h') → items_ v' = Some (fresh (dom h)).
Proof.
  intros Hv Hc Hrun.
  pose proof (holds_bounds _ _ _ _ Hv) as (H0 & Hsc & Hmax & Hfull).
  assert (Hs : size_ v = capacity_ v) by by apply Hfull.
  unfold PushBack in Hrun.
  destruct (Z.eqb_spec (capacity_ v) 0) as [?|_]; [lia|].
  rewrite (bind_ok _ _ _ _ _ (ret_run _ _)) in Hrun.
  rewrite Hs, Z.eqb_refl in Hrun.
  apply bind_inv in Hrun as (v1 & h1 & Hre & Hrun).
  rewrite wrap_small in Hre by (rewrite <- PTRDIFF_MAX_twice; lia).
  pose proof (Reallocate_run (capacity_ v * 2) h v els [] Hv
                ltac:(lia) ltac:(lia)) as Hr.
  rewrite Hre in Hr. destruct Hr as (_ & -> & _).
  apply bind_inv in Hrun as ([] & h2 & _ & Hrun).
  by injection Hrun as <- _.
Qed.

Lemma released_elsewhere (a f : addr) h h' :
  release (Some f) h' = release (Some a) h → f ≠ a → h' !! a = None.
Proof.
  simpl. intros Hrel Hne.
  rewrite <- (lookup_delete_ne h' f a), Hrel by done.
  apply lookup_delete_eq.
Qed.

(** X22.  What growth does to positions obtained before it. [PushBack] or
    [Insert] on a vector whose array is full moves the elements to an array
    that did not exist before and releases the old one: the old array is no
    longer in the free store, and a read through a position into it is an
    invalid access. *)
Theorem growth_invalidates_positions x h v (a : addr) :
  invariant h v → items_ v = Some a →
  0 < GetSize v → GetSize v = GetCapacity v →
  grants (2 * GetCapacity v) →
  (∃ v' h' f,
     PushBack x v h = Ok (v', h') ∧
     items_ v' = Some f ∧ f ≠ a ∧ h !! f = None ∧ h' !! a = None ∧
     elements h' v' = elements h v ++ [x] ∧
     ∀ i : Z, load (begin v +ₚ i) h' = Fail invalid_access) ∧
  (∀ k : Z, 0 ≤ k ≤ GetSize v →
   ∃ v' h' f,
     Insert (begin v +ₚ k) x v h = Ok ((begin v' +ₚ k, v'), h') ∧
     items_ v' = Some f ∧ f ≠ a ∧ h !! f = None ∧ h' !! a = None ∧
     ∀ i : Z, load (begin v +ₚ i) h' = Fail invalid_access).
Proof.
  intros Hinv Ha Hpos Hfull' Hg. unfold GetSize, GetCapacity in *.
  destruct (invariant_holds _ _ Hinv) as (sp & Hv).
  pose proof (holds_bounds _ _ _ _ Hv) as (H0 & Hsc & Hmax & Hfull).
  assert (sp = []) as -> by by apply Hfull.
  assert (Hfa : fresh (dom h) ≠ a).
  { intros <-. destruct Hv as (Hb & _). rewrite Ha in Hb. simpl in Hb.
    by rewrite fresh_lookup in Hb. }
  assert (Hdangling : ∀ h' (i : Z), h' !! a = None →
            load (begin v +ₚ i) h' = Fail invalid_access).
  { intros h' i Hnone. rewrite begin_at, ptr_add_at, Ha.
    unfold load. simpl. by rewrite Hnone. }
  split.
  - pose proof (PushBack_run x h v _ _ Hv) as Hr.
    assert (Hcap : PushBack_capacity v = 2 * capacity_ v).
    { unfold PushBack_capacity.
      destruct (Z.eqb_spec (capacity_ v) 0); [lia|].
      destruct (Z.eqb_spec (size_ v) (capacity_ v)); [done|lia]. }
    destruct (PushBack x v h) as [[v' h']|f] eqn:E; last first.
    { exfalso. destruct Hr as (_ & _ & Hng). by rewrite Hcap in Hng. }
    destruct Hr as ((sp' & Hv') & _).
    pose proof (PushBack_grown x h v _ v' h' Hv ltac:(lia) E) as Hit.
    destruct (PushBack_footprint x h v _ _ v' h' Hv E) as (Hrel & _).
    rewrite Hit, Ha in Hrel.
    pose proof (released_elsewhere _ _ _ _ Hrel Hfa) as Hnone.
    exists v', h', (fresh (dom h)). split; [done|]. split; [done|].
    split; [done|]. split; [apply fresh_lookup|]. split; [done|].
    split; [by eapply holds_elements|]. intros i. by apply Hdangling.
  - intros k Hk.
    assert (Hcap : Insert_capacity v = 2 * capacity_ v).
    { unfold Insert_capacity.
      destruct (Z.ltb_spec (size_ v) (capacity_ v)); [lia|].
      destruct (Z.eqb_spec (size_ v) 0); [lia|done]. }
    destruct (Insert_grown k x h v _ Hv Hk) as (sp' & E & _);
      [by rewrite Hcap|].
    exists {| items_ := Some (fresh (dom h)); size_ := wrap (size_ v + 1);
              capacity_ := Insert_capacity v |}.
    eexists _, (fresh (dom h)).
    split; [exact E|]. split; [done|]. split; [done|].
    split; [apply fresh_lookup|].
    assert (Hnone : <[fresh (dom h) :=
                        (take (Z.to_nat k) (elements h v) ++
                         x :: drop (Z.to_nat k) (elements h v)) ++ sp']>
                      (release (items_ v) h) !! a = None).
    { rewrite lookup_insert_ne by done. rewrite Ha. simpl.
      apply lookup_delete_eq. }
    split; [done|]. intros i. by apply Hdangling.
Qed.

End Lifetime.

(** * Equality and order *)

Import IntVector.

(** C9.  For two vectors that satisfy the class invariant, [operator==]
    answers true exactly when the sizes are the same and the elements are
    equal pairwise in order, and answers true without looking at anything
    when both operands are one object; [operator<] answers true exactly
    when the elements of the left operand come before those of the right
    one in lexicographic order, so in particular when the left operand is
    a strict prefix of the right one.  On vectors of integers,
    {1,2,3} == {1,2,3}, {1,2} < {1,2,3} and {1,3} > {1,2,9}. *)
Theorem equality_and_order :
  (∀ (T : Type) (ET : Element T) (Cmp : Comparable T)
     (h : heap T) (lhs rhs : SimpleVector),
     invariant h lhs → invariant h rhs →
     ∃ e l,
       operator_eq (TwoObjects lhs rhs) h = Ok (e, h) ∧
       (e = true ↔ GetSize lhs = GetSize rhs ∧
                   pairwise_equal (elements h lhs) (elements h rhs)) ∧
       operator_eq (SameObject lhs) h = Ok (true, h) ∧
       operator_lt lhs rhs h = Ok (l, h) ∧
       (l = true ↔ lex_less (elements h lhs) (elements h rhs)) ∧
       (∀ y rest, elements h rhs = elements h lhs ++ y :: rest →
                  l = true)) ∧
  IntVector.answer (a ← SimpleVector_init [1; 2; 3];
                    b ← SimpleVector_init [1; 2; 3];
                    operator_eq (TwoObjects a b)) = Ok true ∧
  IntVector.answer (a ← SimpleVector_init [1; 2];
                    b ← SimpleVector_init [1; 2; 3];
                    operator_lt a b) = Ok true ∧
  IntVector.answer (a ← SimpleVector_init [1; 3];
                    b ← SimpleVector_init [1; 2; 9];
                    operator_gt a b) = Ok true.
Proof.
  split; [|by vm_compute].
  intros T ET Cmp h lhs rhs Hl Hr.
  destruct (invariant_holds _ _ Hl) as (sl & Hhl).
  destruct (invariant_holds _ _ Hr) as (sr & Hhr).
  destruct (operator_eq_run h lhs rhs _ _ _ _ Hhl Hhr) as (e & He & Hiff).
  destruct (operator_lt_run h lhs rhs _ _ _ _ Hhl Hhr) as (l & Hlt & Hiff').
  exists e, l. do 5 (split; [done|]).
  intros y rest Hpre. apply Hiff'. rewrite Hpre.
  apply lex_less_strict_prefix.
Qed.

(** * The class invariant and the operations that keep it *)

Section Kept.

Context {T : Type} {ET : Element T} {Env : Environment}.
Implicit Types (h : heap T) (v : SimpleVector).

(** X1.  Every constructor other than the move constructor gives an object
    that satisfies the invariant. *)
Lemma invariant_constructed h v h' :
  (v = SimpleVector_default ∧ h' = h) ∨
  (∃ n, 0 ≤ n ∧ SimpleVector_sized n h = Ok (v, h')) ∨
  (∃ n value, 0 ≤ n ∧ SimpleVector_filled n value h = Ok (v, h')) ∨
  (∃ init, SimpleVector_init init h = Ok (v, h')) ∨
  (∃ obj, 0 ≤ capacity_to_reserve_ obj ∧
          SimpleVector_reserved obj h = Ok (v, h')) ∨
  (∃ other, invariant h other ∧ SimpleVector_copy other h = Ok (v, h')) →
  invariant h' v.
Proof.
  intros [(-> & ->)|[(n & Hn & E)|[(n & x & Hn & E)|[(init & E)|
          [(obj & Hn & E)|(other & Ho & E)]]]]].
  - eapply holds_invariant, holds_default.
  - pose proof (SimpleVector_sized_run n h Hn) as Hr. rewrite E in Hr.
    destruct Hr as [(-> & -> & ->)|(Hpos & [_ Hg] & -> & ->)].
    + eapply holds_invariant, holds_default.
    + apply (holds_invariant _ _ (replicate (Z.to_nat n) dflt) []).
      unfold holds. fields. simpl.
      rewrite lookup_insert_eq, app_nil_r, length_replicate.
      repeat split; [lia|lia|done].
  - pose proof (SimpleVector_filled_run n x h Hn) as Hr. rewrite E in Hr.
    destruct Hr as [(-> & -> & ->)|(Hpos & [_ Hg] & -> & ->)].
    + eapply holds_invariant, holds_default.
    + apply (holds_invariant _ _ (replicate (Z.to_nat n) x) []).
      unfold holds. fields. simpl.
      rewrite lookup_insert_eq, app_nil_r, length_replicate.
      repeat split; [lia|lia|done].
  - pose proof (SimpleVector_init_run h init) as Hr. rewrite E in Hr.
    destruct Hr as (Hv & _). by eapply holds_invariant.
  - pose proof (SimpleVector_reserved_run h obj Hn) as Hr. rewrite E in Hr.
    destruct Hr as ((sp & Hv) & _). by eapply holds_invariant.
  - destruct (invariant_holds _ _ Ho) as (sp & Hho).
    pose proof (SimpleVector_copy_run h other _ sp Hho) as Hr.
    rewrite E in Hr. destruct Hr as (Hv & _). by eapply holds_invariant.
Qed.

(** X2.  The mutating member functions keep the invariant. *)
Lemma invariant_mutated m h v v' h' :
  invariant h v → size_t_args m → mutate m v h = Ok (v', h') →
  invariant h' v'.
Proof.
  intros Hinv Hargs Hrun. destruct (invariant_holds _ _ Hinv) as (sp & Hv).
  destruct (mutate_effect m h v _ sp v' h' Hv Hargs Hrun)
    as ((e' & s' & Hv') & _). by eapply holds_invariant.
Qed.

(** So do [swap], copy assignment and the move constructor, for both
    objects they work on. *)
Lemma invariant_exchanged h v w :
  invariant h v → invariant h w →
  invariant h (swap v w).1 ∧ invariant h (swap v w).2 ∧
  SimpleVector_move v h = Ok ((v, SimpleVector_default), h) ∧
  invariant h SimpleVector_default ∧
  (separate v w →
   match copy_assign (TwoObjects v w) h with
   | Ok (TwoObjects v' w', h') => invariant h' v' ∧ invariant h' w'
   | Ok (SameObject _, _) => False
   | Fail f => f = bad_alloc
   end).
Proof.
  intros Hv Hw. split; [by destruct v, w|]. split; [by destruct v, w|].
  split; [apply SimpleVector_move_run|].
  split; [eapply holds_invariant, holds_default|]. intros Hsep.
  destruct (invariant_holds _ _ Hv) as (sv & Hhv).
  destruct (invariant_holds _ _ Hw) as (sw & Hhw).
  pose proof (copy_assign_run h v w _ sv _ sw Hhv Hhw Hsep) as Hr.
  destruct (copy_assign (TwoObjects v w) h) as [[[?|v' w'] h']|f];
    [done| |by destruct Hr].
  destruct Hr as (-> & Hv' & Hw'). split; by eapply holds_invariant.
Qed.

(** X18.  Under the precondition [index < size], both forms of the indexing
    operator return the address of the element at that index. *)
Lemma subscript_in_bounds h v (i : Z) :
  invariant h v → 0 ≤ i < GetSize v →
  ∃ x, subscript i v h = Ok (begin v +ₚ i, h) ∧
       subscript_const i v h = Ok (begin v +ₚ i, h) ∧
       elements h v !! Z.to_nat i = Some x ∧
       load (begin v +ₚ i) h = Ok (x, h).
Proof.
  intros Hinv Hi. unfold GetSize in Hi.
  destruct (invariant_holds _ _ Hinv) as (sp & Hv).
  destruct (element_access i h v _ sp Hv Hi) as (x & Hx & Hl & _).
  exists x. pose proof (subscript_run i h v) as Hr.
  destruct (subscript i v h) as [[p h']|f]; [|destruct Hr; lia].
  destruct Hr as (_ & -> & ->). done.
Qed.

End Kept.

(** * Where the code departs from its specification *)

(** C2.  Move assignment, on the vector {1,2,3} as right operand and a
    default-constructed vector as left operand, with either form of the
    move assignment of [ArrayPtr]: the left operand ends with size 3, and
    the right operand is left with [GetSize() == 3] and
    [GetCapacity() == 3], not 0.  The move constructor on the same vector
    leaves it with size 0 and capacity 0. *)
Theorem move_assignment_keeps_counters :
  answer
    (a ← SimpleVector_init (Env := swap_environment) [1; 2; 3];
     '(b, a) ← move_assign (Env := swap_environment) SimpleVector_default a;
     mret (GetSize b, GetSize a, GetCapacity a)) = Ok (3, 3, 3) ∧
  answer
    (a ← SimpleVector_init (Env := release_environment) [1; 2; 3];
     '(b, a) ← move_assign (Env := release_environment)
                 SimpleVector_default a;
     mret (GetSize b, GetSize a, GetCapacity a)) = Ok (3, 3, 3) ∧
  answer
    (a ← SimpleVector_init (Env := swap_environment) [1; 2; 3];
     '(b, a) ← SimpleVector_move (Env := swap_environment) a;
     mret (GetSize b, GetSize a, GetCapacity a)) = Ok (3, 0, 0).
Proof. by vm_compute. Qed.

(** C4.  The const form of the indexing operator checks nothing: the name
    [size] in its assertion denotes no member of the class, so for every
    index it returns the address at that offset.  On the vector {1,2,3}
    and the index 5, the mutable form fails its assertion and the const
    form returns an address outside the array. *)
Theorem const_subscript_unchecked :
  (∀ (index : Z) (this : SimpleVector),
     name_in_scope index this "size" = None) ∧
  (∀ (T : Type) (index : Z) (this : SimpleVector) (h : heap T),
     subscript_const index this h
     = Ok (ArrayPtr_index (items_ this) index, h)) ∧
  answer (v ← SimpleVector_init [1; 2; 3]; subscript 5 v)
  = Fail assertion_failed ∧
  answer (v ← SimpleVector_init [1; 2; 3]; subscript_const 5 v)
  = Ok (Ptr (Some 1%positive) 5).
Proof. by vm_compute. Qed.

(** C6.  After move assignment from the vector {1,2,3} to a
    default-constructed vector, with either form of the move assignment of
    [ArrayPtr], the right operand has capacity 3 and owns no storage: it
    does not satisfy the class invariant, while the left operand does. *)
Theorem move_assignment_breaks_invariant :
  ∀ by_swap : bool,
    let env := {| heap_limit := 2 ^ 20; move_assign_by_swap := by_swap |} in
    match (a ← SimpleVector_init (Env := env) [1; 2; 3];
           move_assign (Env := env) SimpleVector_default a) ∅ with
    | Ok ((b, a), h) =>
        invariant h b ∧ GetSize b = 3 ∧
        GetSize a = 3 ∧ GetCapacity a = 3 ∧ items_ a = None ∧
        ¬ invariant h a
    | Fail f => False
    end.
Proof.
  intros by_swap env.
  pose proof (SimpleVector_init_run (Env := env) (∅ : heap Z) [1; 2; 3])
    as Hr.
  destruct (SimpleVector_init [1; 2; 3] ∅) as [[a h]|f] eqn:E.
  - rewrite (bind_ok _ _ _ _ _ E).
    destruct Hr as (Ha & _ & _ & _).
    destruct (move_assign_run (Env := env) h SimpleVector_default a []
                eq_refl) as (p & h' & -> & Hp).
    assert (p = None ∧ h' = h) as [-> ->].
    { simpl in Hp. destruct by_swap; destruct Hp as [-> ->]; done. }
    assert (Hs : size_ a = 3) by (destruct Ha as (_ & -> & _); done).
    assert (Hc : capacity_ a = 3) by (destruct Ha as (_ & _ & -> & _); done).
    split; [by eapply holds_invariant|]. do 4 (split; [done|]).
    intros (_ & _ & _ & l & Hl & Hlen). simpl in Hl, Hlen.
    injection Hl as <-. simpl in Hlen. lia.
  - rewrite (bind_fail _ _ _ _ E). destruct Hr as (_ & _ & Hng).
    apply Hng. by split.
Qed.

(** * The theorems at concrete vectors *)

Lemma sample_invariant : invariant sample_store sample.
Proof.
  split; [simpl; lia|]. split; [simpl; lia|]. split; [by vm_compute|].
  exists [10; 20; 30; -1]. split; [by vm_compute|done].
Defined.

Lemma full_invariant : invariant full_store full.
Proof.
  split; [simpl; lia|]. split; [simpl; lia|]. split; [by vm_compute|].
  exists [10; 20; 30]. split; [by vm_compute|done].
Defined.

Lemma short_invariant : invariant full_store short.
Proof.
  split; [simpl; lia|]. split; [simpl; lia|]. split; [by vm_compute|].
  exists [10; 20]. split; [by vm_compute|done].
Defined.

Lemma PushBack_growth_law_witness :
  (1 ≤ 5 ≤ length [1; 2; 3; 4; 5])%nat ∧
  grants (2 * Z.of_nat (length [1; 2; 3; 4; 5])) ∧
  ∃ v h',
    PushBack_all [1; 2; 3; 4; 5] SimpleVector_default ∅ = Ok (v, h') ∧
          GetSize v = 5 ∧
          smallest_power_of_two_from 5 (GetCapacity v).
Proof.
  assert (H1 : (1 ≤ 5 ≤ length [1; 2; 3; 4; 5])%nat) by (simpl; lia).
  assert (H2 : grants (2 * Z.of_nat (length [1; 2; 3; 4; 5])))
    by by vm_compute.
  split; [exact H1|]. split; [exact H2|].
  destruct (PushBack_growth_law [1; 2; 3; 4; 5] 5 ∅ H1 H2)
    as [(v & h' & Hrun & Hs & _ & Hc) _].
  exists v, h'. split; [exact Hrun|]. split; [exact Hs|exact Hc].
Defined.

Lemma At_checked_access_witness :
  invariant sample_store sample ∧ 0 ≤ 1 ∧
  At 1 sample sample_store = Ok (begin sample +ₚ 1, sample_store) ∧
  (At 3 sample sample_store = Fail out_of_range ↔ GetSize sample ≤ 3).
Proof.
  split; [exact sample_invariant|]. split; [lia|].
  destruct (At_checked_access sample_store sample 1 sample_invariant
              ltac:(lia)) as (_ & _ & Hin).
  destruct (Hin ltac:(by vm_compute)) as (x & Hat & _).
  split; [exact Hat|].
  by destruct (At_checked_access sample_store sample 3 sample_invariant
                 ltac:(lia)) as (Hiff & _).
Defined.

Lemma Resize_to_smaller_witness :
  invariant sample_store sample ∧ 0 ≤ 2 ≤ GetSize sample ∧
  ∃ v', Resize 2 sample sample_store = Ok (v', sample_store) ∧
        GetSize v' = 2 ∧ GetCapacity v' = GetCapacity sample ∧
        elements sample_store v' = take 2 (elements sample_store sample).
Proof.
  assert (H2 : 0 ≤ 2 ≤ GetSize sample) by (simpl; lia).
  split; [exact sample_invariant|]. split; [exact H2|].
  destruct (Resize_to_smaller sample_store sample 2 sample_invariant H2)
    as (v' & Hrun & Hs & Hc & _ & Hels & _).
  exists v'. split; [exact Hrun|]. split; [exact Hs|].
  split; [exact Hc|exact Hels].
Defined.

Lemma PopBack_Erase_frame_witness :
  invariant sample_store sample ∧
  ∃ v' h', Erase (begin sample +ₚ 1) sample sample_store
           = Ok ((begin sample +ₚ 1, v'), h') ∧
           GetCapacity v' = GetCapacity sample ∧
           elements h' v' !! 0%nat = elements sample_store sample !! 0%nat ∧
           elements h' v' !! 1%nat = elements sample_store sample !! 2%nat.
Proof.
  split; [exact sample_invariant|].
  destruct (PopBack_Erase_frame sample_store sample sample_invariant)
    as (_ & Herase).
  destruct (Herase 1 ltac:(simpl; lia))
    as (v' & h' & Hrun & _ & Hc & _ & _ & Hbefore & Hafter).
  exists v', h'. split; [exact Hrun|]. split; [exact Hc|]. split.
  - apply Hbefore. lia.
  - apply (Hafter 2%nat). simpl. lia.
Defined.

Lemma Insert_then_Erase_witness :
  ∃ b h0,
    SimpleVector_copy full full_store = Ok (b, h0) ∧
    invariant h0 full ∧ 0 ≤ 1 ≤ GetSize full ∧
    (GetSize full < GetCapacity full ∨ grants (Insert_capacity full)) ∧
    invariant h0 b ∧ separate full b ∧
    elements h0 b = elements h0 full ∧
    Forall (λ y, elem_eq y y = true) (elements h0 full) ∧
    ∃ it v1 h1 v2 h2,
      Insert (begin full +ₚ 1) 99 full h0 = Ok ((it, v1), h1) ∧
      Erase it v1 h1 = Ok ((it, v2), h2) ∧
      elements h2 v2 = elements h0 full ∧
      operator_eq (TwoObjects v2 b) h2 = Ok (true, h2) ∧
      operator_eq (TwoObjects b v2) h2 = Ok (true, h2).
Proof.
  destruct (invariant_holds _ _ full_invariant) as (sp & Hfull).
  pose proof (SimpleVector_copy_run full_store full _ sp Hfull) as Hcopy.
  destruct (SimpleVector_copy full full_store) as [[b h0]|f] eqn:E;
    [|by vm_compute in E].
  destruct Hcopy as (Hb & Hun & Hnew & _).
  pose proof (holds_untouched _ _ _ _ _ Hfull Hun) as Hfull0.
  assert (H1 : invariant h0 full) by by eapply holds_invariant.
  assert (H2 : 0 ≤ 1 ≤ GetSize full) by (simpl; lia).
  assert (H3 : GetSize full < GetCapacity full ∨
               grants (Insert_capacity full))
    by (right; by vm_compute).
  assert (H4 : invariant h0 b) by by eapply holds_invariant.
  assert (H5 : separate full b).
  { intros a Ha Hba. destruct Hnew as [Hn|(f & Hf & Hn)]; [congruence|].
    assert (f = 1%positive) as -> by (simpl in Ha; congruence).
    by vm_compute in Hn. }
  assert (H6 : elements h0 b = elements h0 full).
  { by rewrite (holds_elements _ _ _ _ Hb),
               (holds_elements _ _ _ _ Hfull0). }
  assert (H7 : Forall (λ y, elem_eq y y = true) (elements h0 full)).
  { apply Forall_forall. intros y _. apply Z.eqb_refl. }
  exists b, h0. split; [reflexivity|]. split; [exact H1|].
  split; [exact H2|]. split; [exact H3|]. split; [exact H4|].
  split; [exact H5|]. split; [exact H6|]. split; [exact H7|].
  destruct (Insert_then_Erase h0 full 1 99 H1 H2 H3)
    as (it & v1 & h1 & v2 & h2 & Hins & Hers & _ & _ & Hels & Heq).
  destruct (Heq _ b H4 H5) as (_ & _ & _ & Htrue).
  destruct (Htrue H6 H7) as (Hl & Hr).
  exists it, v1, h1, v2, h2. split; [exact Hins|]. split; [exact Hers|].
  split; [exact Hels|]. split; [exact Hl|exact Hr].
Defined.

Lemma copy_is_deep_witness :
  invariant sample_store sample ∧
  (GetSize sample = 0 ∨ grants (GetSize sample)) ∧
  ∃ b h', SimpleVector_copy sample sample_store = Ok (b, h') ∧
          GetSize b = 3 ∧ GetCapacity b = 3 ∧
          elements h' b = elements sample_store sample ∧
          operator_eq (TwoObjects sample b) h' = Ok (true, h').
Proof.
  assert (H2 : GetSize sample = 0 ∨ grants (GetSize sample))
    by (right; by vm_compute).
  split; [exact sample_invariant|]. split; [exact H2|].
  destruct (copy_is_deep sample_store sample sample_invariant H2)
    as (b & h' & Hrun & Hs & Hc & Hels & _ & _ & _ & _ & _ & Heq & _).
  exists b, h'. split; [exact Hrun|]. split; [exact Hs|].
  split; [exact Hc|]. split; [exact Hels|].
  apply Heq.
  change (elements sample_store sample)
    with (take 3 (default [] (sample_store !! 1%positive))).
  replace (sample_store !! 1%positive) with (Some [10; 20; 30; -1])
    by by vm_compute.
  simpl. repeat constructor.
Defined.

Lemma equality_and_order_witness :
  invariant full_store short ∧ invariant full_store full ∧
  operator_eq (TwoObjects short full) full_store = Ok (false, full_store) ∧
  operator_lt short full full_store = Ok (true, full_store).
Proof.
  split; [exact short_invariant|]. split; [exact full_invariant|].
  destruct (proj1 equality_and_order Z _ _ full_store short full
              short_invariant full_invariant)
    as (e & l & Heq & Hiff & _ & Hlt & _ & Hprefix).
  assert (l = true) as ->.
  { apply (Hprefix 30 []). by vm_compute. }
  assert (e = false) as ->.
  { destruct e; [|done]. by destruct (proj1 Hiff eq_refl) as [Hs _]. }
  split; [exact Heq|exact Hlt].
Defined.

(** ** Instances of the further properties on the sample vectors *)

Lemma full_short_separate : separate full short.
Proof. intros a Ha Hb. simpl in *. congruence. Defined.

Lemma short_full_separate : separate short full.
Proof. intros a Ha Hb. simpl in *. congruence. Defined.

Lemma sample_has_room : GetSize sample < GetCapacity sample.
Proof. simpl. lia. Defined.

Lemma constructed_from_count_witness :
  0 ≤ 3 ∧ 0 < 3 ∧ grants 3 ∧
  ∃ w h', SimpleVector_filled 3 7 (∅ : heap Z) = Ok (w, h') ∧
          GetSize w = 3 ∧ GetCapacity w = 3 ∧
          elements h' w = replicate (Z.to_nat 3) 7.
Proof.
  assert (H1 : 0 ≤ 3) by lia. assert (H2 : 0 < 3) by lia.
  assert (H3 : grants 3) by by vm_compute.
  split; [exact H1|]. split; [exact H2|]. split; [exact H3|].
  destruct (constructed_from_count 3 7 (∅ : heap Z) H1) as (_ & Hmain & _).
  destruct (Hmain H2 H3)
    as (v & h' & w & h'' & _ & Hrun & _ & _ & _ & _ & _ & Hs & Hc & Hels & _).
  exists w, h''. split; [exact Hrun|]. split; [exact Hs|].
  split; [exact Hc|exact Hels].
Defined.

Lemma constructed_from_list_witness :
  [10; 20; 30] ≠ [] ∧ grants (Z.of_nat (length [10; 20; 30])) ∧
  ∃ v h', SimpleVector_init [10; 20; 30] (∅ : heap Z) = Ok (v, h') ∧
          GetCapacity v = Z.of_nat (length [10; 20; 30]) ∧
          elements h' v = [10; 20; 30] ∧ release (items_ v) h' = ∅.
Proof.
  assert (H1 : [10; 20; 30] ≠ ([] : list Z)) by done.
  assert (H2 : grants (Z.of_nat (length [10; 20; 30]))) by by vm_compute.
  split; [exact H1|]. split; [exact H2|].
  destruct (constructed_from_list [10; 20; 30] (∅ : heap Z))
    as (_ & Hmain & _).
  destruct (Hmain H1 H2) as (v & h' & Hrun & _ & _ & Hc & Hels & _ & Hrel & _).
  exists v, h'. split; [exact Hrun|]. split; [exact Hc|].
  split; [exact Hels|exact Hrel].
Defined.

Lemma Reserve_keeps_elements_witness :
  invariant sample_store sample ∧ 0 ≤ 8 ∧ GetCapacity sample < 8 ∧
  grants 8 ∧
  ∃ v' h', Reserve 8 sample sample_store = Ok (v', h') ∧
           GetCapacity v' = 8 ∧
           elements h' v' = elements sample_store sample.
Proof.
  assert (H1 : 0 ≤ 8) by lia.
  assert (H2 : GetCapacity sample < 8) by (simpl; lia).
  assert (H3 : grants 8) by by vm_compute.
  split; [exact sample_invariant|]. split; [exact H1|]. split; [exact H2|].
  split; [exact H3|].
  destruct (Reserve_keeps_elements 8 sample_store sample sample_invariant H1)
    as (_ & Hmain & _).
  destruct (Hmain H2 H3) as (v' & h' & Hrun & _ & _ & Hc & Hels & _).
  exists v', h'. split; [exact Hrun|]. split; [exact Hc|exact Hels].
Defined.

Lemma PushBack_within_capacity_witness :
  invariant sample_store sample ∧
  GetSize sample + Z.of_nat (length [40]) ≤ GetCapacity sample ∧
  ∃ v' h', PushBack_all [40] sample sample_store = Ok (v', h') ∧
           items_ v' = items_ sample ∧
           elements h' v' = elements sample_store sample ++ [40].
Proof.
  assert (H1 : GetSize sample + Z.of_nat (length [40]) ≤ GetCapacity sample)
    by (simpl; lia).
  split; [exact sample_invariant|]. split; [exact H1|].
  destruct (PushBack_within_capacity [40] sample_store sample
              sample_invariant H1)
    as (v' & h' & Hrun & _ & Hit & _ & _ & Hels & _).
  exists v', h'. split; [exact Hrun|]. split; [exact Hit|exact Hels].
Defined.

Lemma Resize_to_larger_witness :
  invariant sample_store sample ∧ GetSize sample ≤ 4 ∧
  4 ≤ GetCapacity sample ∧
  ∃ v' h', Resize 4 sample sample_store = Ok (v', h') ∧
           GetSize v' = 4 ∧
           elements h' v'
           = elements sample_store sample ++
             replicate (Z.to_nat (4 - GetSize sample)) dflt.
Proof.
  assert (H1 : GetSize sample ≤ 4) by (simpl; lia).
  assert (H2 : 4 ≤ GetCapacity sample) by (simpl; lia).
  split; [exact sample_invariant|]. split; [exact H1|]. split; [exact H2|].
  destruct (Resize_to_larger 4 sample_store sample sample_invariant H1)
    as (Hmain & _).
  destruct (Hmain H2) as (v' & h' & Hrun & _ & Hs & _ & _ & Hels & _).
  exists v', h'. split; [exact Hrun|]. split; [exact Hs|exact Hels].
Defined.

Lemma Clear_keeps_capacity_witness :
  invariant sample_store sample ∧ 0 < GetCapacity sample ∧
  Resize 0 sample sample_store = Ok (Clear sample, sample_store) ∧
  ∃ v' h', PushBack 5 (Clear sample) sample_store = Ok (v', h') ∧
           elements h' v' = [5] ∧ GetCapacity v' = GetCapacity sample.
Proof.
  assert (H1 : 0 < GetCapacity sample) by (simpl; lia).
  split; [exact sample_invariant|]. split; [exact H1|].
  destruct (Clear_keeps_capacity sample_store sample sample_invariant)
    as (_ & _ & _ & _ & _ & _ & Hres & Hpush).
  split; [exact Hres|].
  destruct (Hpush H1 5) as (v' & h' & Hrun & Hels & _ & Hc).
  exists v', h'. split; [exact Hrun|]. split; [exact Hels|exact Hc].
Defined.

Lemma Resize_down_then_up_witness :
  invariant sample_store sample ∧ 0 ≤ 1 ≤ GetSize sample ∧
  1 ≤ 4 ≤ GetCapacity sample ∧
  ∃ v' h',
    (v1 ← Resize 1 sample; Resize 4 v1) sample_store = Ok (v', h') ∧
    elements h' v'
    = take (Z.to_nat 1) (elements sample_store sample) ++
      replicate (Z.to_nat (4 - 1)) dflt.
Proof.
  assert (H1 : 0 ≤ 1 ≤ GetSize sample) by (simpl; lia).
  assert (H2 : 1 ≤ 4 ≤ GetCapacity sample) by (simpl; lia).
  split; [exact sample_invariant|]. split; [exact H1|]. split; [exact H2|].
  destruct (Resize_down_then_up 1 4 sample_store sample sample_invariant
              H1 H2) as (v' & h' & Hrun & _ & _ & _ & _ & Hels).
  exists v', h'. split; [exact Hrun|exact Hels].
Defined.

Lemma copy_assignment_witness :
  invariant full_store full ∧ invariant full_store short ∧
  separate full short ∧ (GetSize short = 0 ∨ grants (GetSize short)) ∧
  ∃ this' h',
    copy_assign (TwoObjects full short) full_store
    = Ok (TwoObjects this' short, h') ∧
    elements h' this' = elements full_store short ∧
    GetCapacity this' = GetSize short.
Proof.
  assert (H1 : GetSize short = 0 ∨ grants (GetSize short))
    by (right; by vm_compute).
  split; [exact full_invariant|]. split; [exact short_invariant|].
  split; [exact full_short_separate|]. split; [exact H1|].
  destruct (copy_assignment full_store full short full_invariant
              short_invariant full_short_separate) as (Hmain & _).
  destruct (Hmain H1)
    as (this' & h' & Hrun & _ & _ & _ & Hels & _ & _ & Hc & _).
  exists this', h'. split; [exact Hrun|]. split; [exact Hels|exact Hc].
Defined.

Lemma move_assignment_transfers_witness :
  invariant full_store short ∧ invariant full_store full ∧
  separate short full ∧
  ∃ rhs' h',
    move_assign short full full_store = Ok ((full, rhs'), h') ∧
    elements h' full = elements full_store full ∧
    GetSize rhs' = GetSize full ∧ GetCapacity rhs' = GetCapacity full.
Proof.
  split; [exact short_invariant|]. split; [exact full_invariant|].
  split; [exact short_full_separate|].
  destruct (move_assignment_transfers full_store short full short_invariant
              full_invariant short_full_separate)
    as (rhs' & h' & Hrun & _ & Hels & Hs & Hc & _).
  exists rhs', h'. split; [exact Hrun|]. split; [exact Hels|].
  split; [exact Hs|exact Hc].
Defined.


Lemma order_operators_agree_witness :
  invariant full_store full ∧ invariant full_store short ∧
  (∀ x y : Z, elem_lt x y = true → elem_lt y x = false) ∧
  ∃ l g,
    operator_lt full short full_store = Ok (l, full_store) ∧
    operator_gt full short full_store = Ok (g, full_store) ∧
    operator_le full short full_store = Ok (negb g, full_store) ∧
    operator_ge full short full_store = Ok (negb l, full_store) ∧
    (l = true → g = false).
Proof.
  assert (H1 : ∀ x y : Z, elem_lt x y = true → elem_lt y x = false).
  { intros x y. simpl. intros Hxy. apply Z.ltb_lt in Hxy.
    apply Z.ltb_ge. lia. }
  split; [exact full_invariant|]. split; [exact short_invariant|].
  split; [exact H1|].
  destruct (order_operators_agree full_store full short full_invariant
              short_invariant)
    as (e & l & g & _ & _ & _ & Hlt & _ & Hgt & Hle & Hge & _ & Hasym).
  exists l, g. split; [exact Hlt|]. split; [exact Hgt|].
  split; [exact Hle|]. split; [exact Hge|]. exact (proj1 (Hasym H1)).
Defined.

Lemma PushBack_then_PopBack_witness :
  invariant sample_store sample ∧
  (GetSize sample < GetCapacity sample ∨
   grants (PushBack_capacity sample)) ∧
  ∃ v1 h1 v2,
    PushBack 40 sample sample_store = Ok (v1, h1) ∧
    elements h1 v1 = elements sample_store sample ++ [40] ∧
    PopBack v1 h1 = Ok (v2, h1) ∧
    elements h1 v2 = elements sample_store sample.
Proof.
  assert (H1 : GetSize sample < GetCapacity sample ∨
               grants (PushBack_capacity sample))
    by (left; exact sample_has_room).
  split; [exact sample_invariant|]. split; [exact H1|].
  destruct (PushBack_then_PopBack 40 sample_store sample sample_invariant H1)
    as (v1 & h1 & v2 & Hrun & _ & Hels & _ & _ & Hpop & _ & Hback & _).
  exists v1, h1, v2. split; [exact Hrun|]. split; [exact Hels|].
  split; [exact Hpop|exact Hback].
Defined.

Lemma Insert_places_value_witness :
  invariant sample_store sample ∧ 0 ≤ 1 ≤ GetSize sample ∧
  (GetSize sample < GetCapacity sample ∨
   grants (Insert_capacity sample)) ∧
  ∃ v' h',
    Insert (begin sample +ₚ 1) 99 sample sample_store
    = Ok ((begin v' +ₚ 1, v'), h') ∧
    elements h' v'
    = take (Z.to_nat 1) (elements sample_store sample) ++ 99 ::
      drop (Z.to_nat 1) (elements sample_store sample) ∧
    load (begin v' +ₚ 1) h' = Ok (99, h').
Proof.
  assert (H1 : 0 ≤ 1 ≤ GetSize sample) by (simpl; lia).
  assert (H2 : GetSize sample < GetCapacity sample ∨
               grants (Insert_capacity sample))
    by (left; exact sample_has_room).
  split; [exact sample_invariant|]. split; [exact H1|]. split; [exact H2|].
  destruct (Insert_places_value 1 99 sample_store sample sample_invariant
              H1 H2) as (v' & h' & Hrun & _ & Hels & Hload & _).
  exists v', h'. split; [exact Hrun|]. split; [exact Hels|exact Hload].
Defined.

Lemma violated_preconditions_assert_witness :
  invariant sample_store sample ∧
  ¬ (0 ≤ 3 < GetSize sample) ∧ ¬ (0 ≤ 4 ≤ GetSize sample) ∧
  GetSize sample ≤ 3 ∧
  Erase (begin sample +ₚ 3) sample sample_store = Fail assertion_failed ∧
  Insert (begin sample +ₚ 4) 99 sample sample_store
  = Fail assertion_failed ∧
  subscript 3 sample sample_store = Fail assertion_failed.
Proof.
  assert (H1 : ¬ (0 ≤ 3 < GetSize sample)) by (simpl; lia).
  assert (H2 : ¬ (0 ≤ 4 ≤ GetSize sample)) by (simpl; lia).
  assert (H3 : GetSize sample ≤ 3) by (simpl; lia).
  split; [exact sample_invariant|]. split; [exact H1|]. split; [exact H2|].
  split; [exact H3|].
  destruct (violated_preconditions_assert sample_store sample
              sample_invariant) as (_ & Herase & Hinsert & Hsub).
  split; [exact (Herase 3 H1)|]. split; [exact (Hinsert 4 99 H2)|].
  exact (Hsub 3 H3).
Defined.

Lemma Erase_last_is_PopBack_witness :
  invariant sample_store sample ∧ 0 < GetSize sample ∧
  ∃ v', PopBack sample sample_store = Ok (v', sample_store) ∧
        Erase (begin sample +ₚ (GetSize sample - 1)) sample sample_store
        = Ok ((end_ v', v'), sample_store).
Proof.
  assert (H1 : 0 < GetSize sample) by (simpl; lia).
  split; [exact sample_invariant|]. split; [exact H1|].
  destruct (Erase_last_is_PopBack sample_store sample sample_invariant H1)
    as (v' & Hpop & Herase & _).
  exists v'. split; [exact Hpop|exact Herase].
Defined.

Lemma storage_is_released_witness :
  invariant full_store full ∧
  Forall size_t_args [mPushBack 40; mInsert 0 5; mErase 2; mResize 9] ∧
  ∃ v' h',
    mutate_all [mPushBack 40; mInsert 0 5; mErase 2; mResize 9]
      full full_store = Ok (v', h') ∧
    SimpleVector_destroy v' h' = Ok ((), release (items_ full) full_store).
Proof.
  assert (H1 : Forall (size_t_args (T:=Z))
                 [mPushBack 40; mInsert 0 5; mErase 2; mResize 9]).
  { repeat (constructor; [by vm_compute|]). constructor. }
  split; [exact full_invariant|]. split; [exact H1|].
  destruct (mutate_all [mPushBack 40; mInsert 0 5; mErase 2; mResize 9]
              full full_store) as [[v' h']|f] eqn:E;
    [|by vm_compute in E].
  exists v', h'. split; [reflexivity|].
  by destruct (storage_is_released _ full_store full v' h' full_invariant
                 H1 E) as (Hd & _).
Defined.

Lemma fitting_mutations_keep_storage_witness :
  invariant sample_store sample ∧ size_t_args (T:=Z) (mInsert 1 99) ∧
  fits (mInsert 1 99) sample ∧
  mutate (mInsert 1 99) sample sample_store ≠ Fail bad_alloc ∧
  ∃ v' h', mutate (mInsert 1 99) sample sample_store = Ok (v', h') ∧
           items_ v' = items_ sample ∧ dom h' = dom sample_store.
Proof.
  assert (H1 : size_t_args (T:=Z) (mInsert 1 99)) by by vm_compute.
  assert (H2 : fits (mInsert 1 99) sample) by exact sample_has_room.
  split; [exact sample_invariant|]. split; [exact H1|]. split; [exact H2|].
  destruct (fitting_mutations_keep_storage (mInsert 1 99) sample_store
              sample sample_invariant H1 H2) as (Hnot & Hkeep).
  split; [exact Hnot|].
  destruct (mutate (mInsert 1 99) sample sample_store)
    as [[v' h']|f] eqn:E; [|by vm_compute in E].
  exists v', h'. split; [reflexivity|].
  destruct (Hkeep v' h' eq_refl) as (_ & Hit & _ & _ & Hdom & _).
  split; [exact Hit|exact Hdom].
Defined.

Lemma range_of_elements_witness :
  invariant sample_store sample ∧
  end_ sample = begin sample +ₚ GetSize sample ∧
  Z.of_nat (length (elements sample_store sample)) = GetSize sample ∧
  readable sample_store (begin sample) (elements sample_store sample).
Proof.
  split; [exact sample_invariant|].
  destruct (range_of_elements sample_store sample sample_invariant)
    as (_ & _ & Hend & _ & Hlen & Hread & _).
  split; [exact Hend|]. split; [exact Hlen|exact Hread].
Defined.

Lemma growth_invalidates_positions_witness :
  invariant full_store full ∧ items_ full = Some 1%positive ∧
  0 < GetSize full ∧ GetSize full = GetCapacity full ∧
  grants (2 * GetCapacity full) ∧
  ∃ v' h',
    PushBack 40 full full_store = Ok (v', h') ∧
    h' !! 1%positive = None ∧
    elements h' v' = elements full_store full ++ [40] ∧
    ∀ i : Z, load (begin full +ₚ i) h' = Fail invalid_access.
Proof.
  assert (H1 : items_ full = Some 1%positive) by reflexivity.
  assert (H2 : 0 < GetSize full) by (simpl; lia).
  assert (H3 : GetSize full = GetCapacity full) by reflexivity.
  assert (H4 : grants (2 * GetCapacity full)) by by vm_compute.
  split; [exact full_invariant|]. split; [exact H1|]. split; [exact H2|].
  split; [exact H3|]. split; [exact H4|].
  destruct (growth_invalidates_positions 40 full_store full 1%positive
              full_invariant H1 H2 H3 H4)
    as ((v' & h' & f & Hrun & _ & _ & _ & Hnone & Hels & Hload) & _).
  exists v', h'. split; [exact Hrun|]. split; [exact Hnone|].
  split; [exact Hels|exact Hload].
Defined.

Lemma invariant_constructed_witness :
  ∃ v h',
    SimpleVector_init [10; 20; 30] (∅ : heap Z) = Ok (v, h') ∧
    invariant h' v.
Proof.
  destruct (SimpleVector_init [10; 20; 30] (∅ : heap Z))
    as [[v h']|f] eqn:E; [|by vm_compute in E].
  exists v, h'. split; [reflexivity|].
  apply (invariant_constructed (∅ : heap Z) v h').
  right. right. right. left. exists [10; 20; 30]. exact E.
Defined.

Lemma invariant_mutated_witness :
  invariant sample_store sample ∧ size_t_args (T:=Z) (mResize 9) ∧
  ∃ v' h', mutate (mResize 9) sample sample_store = Ok (v', h') ∧
           invariant h' v'.
Proof.
  assert (H1 : size_t_args (T:=Z) (mResize 9)) by by vm_compute.
  split; [exact sample_invariant|]. split; [exact H1|].
  destruct (mutate (mResize 9) sample sample_store)
    as [[v' h']|f] eqn:E; [|by vm_compute in E].
  exists v', h'. split; [reflexivity|].
  exact (invariant_mutated (mResize 9) sample_store sample v' h'
           sample_invariant H1 E).
Defined.

Lemma subscript_in_bounds_witness :
  invariant sample_store sample ∧ 0 ≤ 1 < GetSize sample ∧
  ∃ x, subscript 1 sample sample_store
       = Ok (begin sample +ₚ 1, sample_store) ∧
       subscript_const 1 sample sample_store
       = Ok (begin sample +ₚ 1, sample_store) ∧
       load (begin sample +ₚ 1) sample_store = Ok (x, sample_store).
Proof.
  assert (H1 : 0 ≤ 1 < GetSize sample) by (simpl; lia).
  split; [exact sample_invariant|]. split; [exact H1|].
  destruct (subscript_in_bounds sample_store sample 1 sample_invariant H1)
    as (x & Hsub & Hconst & _ & Hload).
  exists x. split; [exact Hsub|]. split; [exact Hconst|exact Hload].
Defined.
